(** * IFC STEP to BOT A-box adapter: a shallow embedding of [adapter.py]

    The development follows the four stages of the program:

    - the type registry ([IFC_TO_BOT_ZONE], [IFC_TO_BOT_ELEMENT],
      [IFC_REL_TO_BOT_PROP], [IFC_TYPES_OF_INTEREST]);
    - the record selector [scan_ifc_and_extract_lines];
    - the record parser [parse_selected_ifc_lines];
    - the mapping engine [ifc_to_bot_triples] and the serializer
      [triples_to_ttl].

    Modelling conventions.

    - In the first part a Python [str] is a [list ascii].  It covers
      ASCII text (code points 0..127), which is what an ISO 10303-21 file
      holds; a byte above 127 belongs to no character class and is left
      alone by [upper].  The selector and the parser are embedded a second
      time over Unicode code points, with the character classes of the
      interpreter (module [Unicode]).
    - A Python [int] is a [Z].  In the first part [int(s)] on a digit
      string and the formatting of an integer are total.  The limit of
      the interpreter on the digits of a numeral, beyond which both raise
      [ValueError], is modelled in the second part (modules [Unicode]
      and [Checked]): results there are [Ok] values or [ValueError].
    - A Python [dict] is an association list in insertion order, without
      duplicate keys: iteration order is observable in the output.
    - The three regular expressions of the program are values of a small
      regex syntax, run by a backtracking matcher with the priorities of
      Python's [re] (greedy: longest first; lazy: shortest first).
    - Appending to a result list inside a loop is a [fold_left] threading
      the list. *)

From Stdlib Require Import Ascii String DecimalString DecimalPos DecimalZ.
From Stdlib Require Import ZArith Lia Bool Arith List Permutation.
Import ListNotations.

Local Open Scope list_scope.
Local Open Scope Z_scope.

(* ================================================================== *)
(** * Strings *)
(* ================================================================== *)

(** Python strings, as lists of characters. *)
Definition str : Type := list ascii.

(** A string literal of the source. *)
Definition lit (s : string) : str := list_ascii_of_string s.

Fixpoint str_eqb (a b : str) : bool :=
  match a, b with
  | [], [] => true
  | x :: a', y :: b' => Ascii.eqb x y && str_eqb a' b'
  | _, _ => false
  end.

Definition code (c : ascii) : nat := nat_of_ascii c.

Definition between (lo hi : nat) (c : ascii) : bool :=
  (Nat.leb lo (code c) && Nat.leb (code c) hi)%bool.

(** [\d] on ASCII text: the decimal digits. *)
Definition is_digit (c : ascii) : bool := between 48 57 c.

(** [\w] on ASCII text: letters, digits and the underscore. *)
Definition is_word (c : ascii) : bool :=
  (between 97 122 c || between 65 90 c || between 48 57 c
   || Nat.eqb (code c) 95)%bool.

(** [\s] on ASCII text, for a [str] pattern: tab, line feed, vertical tab,
    form feed, carriage return, the four separators 28..31 and the space. *)
Definition is_space (c : ascii) : bool :=
  (between 9 13 c || between 28 32 c)%bool.

(** [.] under [re.DOTALL]: every character. *)
Definition any_char (c : ascii) : bool := true.

(** [[^']]: every character but the single quote. *)
Definition not_quote (c : ascii) : bool := negb (Nat.eqb (code c) 39).

(** [str.upper] on ASCII text. *)
Definition upper_char (c : ascii) : ascii :=
  if between 97 122 c then ascii_of_nat (code c - 32) else c.

Definition upper (s : str) : str := map upper_char s.

(** [int(s)] for a string of decimal digits. *)
Definition digit_val (c : ascii) : Z := Z.of_nat (code c - 48).

Definition int (s : str) : Z :=
  fold_left (fun acc c => 10 * acc + digit_val c) s 0.

(** [str(n)] / [f"{n}"] for an integer. *)
Definition dec (n : Z) : str :=
  list_ascii_of_string (NilZero.string_of_int (Z.to_int n)).

(** [sep.join(parts)]. *)
Fixpoint join (sep : str) (parts : list str) : str :=
  match parts with
  | [] => []
  | [p] => p
  | p :: rest => p ++ sep ++ join sep rest
  end.

(* ================================================================== *)
(** * The regular expressions of the program *)
(* ================================================================== *)

Module Re.

(** The fragment of [re] syntax the program uses: literal characters,
    a character class under [*], [+] or [*?], numbered groups and
    concatenation. *)
Inductive regex : Type :=
| Chr (c : ascii)
| Star (cls : ascii -> bool)
| Plus (cls : ascii -> bool)
| LazyStar (cls : ascii -> bool)
| Group (i : nat) (r : regex)
| Seq (r1 r2 : regex).

(** Captured groups: the most recent binding of a group number wins. *)
Definition groups : Type := list (nat * str).

Fixpoint group (i : nat) (g : groups) : str :=
  match g with
  | [] => []
  | (j, s) :: g' => if Nat.eqb i j then s else group i g'
  end.

Section Matcher.

Context {A : Type}.

(** Greedy repetition: consume as long as the class allows, and give
    characters back one at a time while the rest of the pattern fails. *)
Fixpoint star (cls : ascii -> bool) (s : str) (k : str -> option A)
  : option A :=
  match s with
  | c :: t =>
      if cls c then
        match star cls t k with
        | Some a => Some a
        | None => k s
        end
      else k s
  | [] => k []
  end.

(** Lazy repetition: try the rest of the pattern first, and consume one
    more character only when it fails. *)
Fixpoint lazy_star (cls : ascii -> bool) (s : str) (k : str -> option A)
  : option A :=
  match k s with
  | Some a => Some a
  | None =>
      match s with
      | c :: t => if cls c then lazy_star cls t k else None
      | [] => None
      end
  end.

(** The matcher, in continuation-passing style: [k] is the rest of the
    pattern, applied to the unread text and the groups captured so far. *)
Fixpoint run (r : regex) (s : str) (g : groups)
  (k : str -> groups -> option A) : option A :=
  match r with
  | Chr c =>
      match s with
      | c' :: t => if Ascii.eqb c c' then k t g else None
      | [] => None
      end
  | Star cls => star cls s (fun s' => k s' g)
  | Plus cls =>
      match s with
      | c :: t => if cls c then star cls t (fun s' => k s' g) else None
      | [] => None
      end
  | LazyStar cls => lazy_star cls s (fun s' => k s' g)
  | Group i r' =>
      run r' s g
        (fun s' g' => k s' ((i, firstn (length s - length s') s) :: g'))
  | Seq r1 r2 => run r1 s g (fun s' g' => run r2 s' g' k)
  end.

End Matcher.

(** [pattern.match(s)]: a match anchored at the start of [s]; the result
    is the captured groups and the unread text. *)
Definition match_ (r : regex) (s : str) : option (groups * str) :=
  run r s [] (fun s' g => Some (g, s')).

(** [pattern.finditer(s)], for a pattern that matches no empty string (each
    pattern of the program starts with a literal [#]): scan left to right;
    after a match the scan resumes where the match ended, which the counter
    [skip] of characters still covered by the last match records. *)
Fixpoint finditer_from (r : regex) (skip : nat) (s : str) : list groups :=
  match s with
  | [] => []
  | _ :: t =>
      match skip with
      | S n => finditer_from r n t
      | O =>
          match match_ r s with
          | Some (g, rest) =>
              g :: finditer_from r (length s - length rest - 1) t
          | None => finditer_from r 0 t
          end
      end
  end.

Definition finditer (r : regex) (s : str) : list groups :=
  finditer_from r 0 s.

(** [re.findall] for a pattern with exactly one group. *)
Definition findall (r : regex) (s : str) : list str :=
  map (group 1) (finditer r s).

End Re.

Import Re.

Definition chr (s : string) : ascii :=
  match s with
  | String c _ => c
  | EmptyString => Ascii.zero
  end.

(** The pattern of [scan_ifc_and_extract_lines], written here with a space
    between its parts:  # ( \d+ ) \s* = \s* ( \w+ ) \s* \( ( .*? ) \) ;
    compiled with [re.IGNORECASE | re.DOTALL].  The pattern has no letter,
    so [IGNORECASE] changes nothing; [DOTALL] makes the dot match the line
    feed too. *)
Definition record_pattern : regex :=
  Seq (Chr (chr "#"))
 (Seq (Group 1 (Plus is_digit))
 (Seq (Star is_space)
 (Seq (Chr (chr "="))
 (Seq (Star is_space)
 (Seq (Group 2 (Plus is_word))
 (Seq (Star is_space)
 (Seq (Chr (chr "("))
 (Seq (Group 3 (LazyStar any_char))
 (Seq (Chr (chr ")"))
      (Chr (chr ";"))))))))))).

(** The pattern of the entity branch of [parse_selected_ifc_lines], with a
    space between its parts:  ' ( [^']* ) ' \s* , \s* ' ( [^']* ) '  *)
Definition entity_args_pattern : regex :=
  Seq (Chr (chr "'"))
 (Seq (Group 1 (Star not_quote))
 (Seq (Chr (chr "'"))
 (Seq (Star is_space)
 (Seq (Chr (chr ","))
 (Seq (Star is_space)
 (Seq (Chr (chr "'"))
 (Seq (Group 2 (Star not_quote))
      (Chr (chr "'"))))))))).

(** The pattern of the relationship branch:  # ( \d+ )  *)
Definition ref_pattern : regex :=
  Seq (Chr (chr "#")) (Group 1 (Plus is_digit)).

(* ================================================================== *)
(** * Dictionaries and sets *)
(* ================================================================== *)

Section Dict.

Context {K V : Type}.
Variable keq : K -> K -> bool.

(** A [dict]: keys paired with values, in insertion order. *)
Definition dict : Type := list (K * V).

(** [d.get(k)]. *)
Fixpoint dict_get (k : K) (d : dict) : option V :=
  match d with
  | [] => None
  | (k', v) :: d' => if keq k k' then Some v else dict_get k d'
  end.

(** [k in d]. *)
Definition dict_mem (k : K) (d : dict) : bool :=
  match dict_get k d with
  | Some _ => true
  | None => false
  end.

(** [d[k] = v]: a present key keeps its place and takes the new value, a
    new key goes to the end. *)
Fixpoint dict_set (k : K) (v : V) (d : dict) : dict :=
  match d with
  | [] => [(k, v)]
  | (k', v') :: d' =>
      if keq k k' then (k', v) :: d' else (k', v') :: dict_set k v d'
  end.

Definition keys (d : dict) : list K := map fst d.

End Dict.

Arguments dict : clear implicits.

(** [x in s] for a set of strings, whatever the order its elements are
    enumerated in. *)
Definition set_mem (x : str) (s : list str) : bool := existsb (str_eqb x) s.

(* ================================================================== *)
(** * Step 1: the type registry *)
(* ================================================================== *)

Definition IFC_TO_BOT_ZONE : dict str str :=
  [ (lit "IFCSITE",           lit "bot:Site");
    (lit "IFCBUILDING",       lit "bot:Building");
    (lit "IFCBUILDINGSTOREY", lit "bot:Storey");
    (lit "IFCSPACE",          lit "bot:Space") ].

Definition IFC_TO_BOT_ELEMENT : dict str str :=
  [ (lit "IFCWALL",              lit "bot:Element");
    (lit "IFCWALLSTANDARDCASE",  lit "bot:Element");
    (lit "IFCSLAB",              lit "bot:Element");
    (lit "IFCBEAM",              lit "bot:Element");
    (lit "IFCCOLUMN",            lit "bot:Element");
    (lit "IFCDOOR",              lit "bot:Element");
    (lit "IFCWINDOW",            lit "bot:Element");
    (lit "IFCPLATE",             lit "bot:Element");
    (lit "IFCFURNISHINGELEMENT", lit "bot:Element");
    (lit "IFCSTAIR",             lit "bot:Element");
    (lit "IFCSTAIRFLIGHT",       lit "bot:Element");
    (lit "IFCFLOWTERMINAL",      lit "bot:Element") ].

Definition IFC_REL_TO_BOT_PROP : dict str str :=
  [ (lit "IFCRELAGGREGATES", lit "bot:containsZone_or_hasSubElement");
    (lit "IFCRELCONTAINEDINSPATIALSTRUCTURE", lit "bot:containsElement");
    (lit "IFCRELCONNECTSELEMENTS", lit "bot:adjacentElement");
    (lit "IFCRELINTERFERESELEMENTS", lit "bot:intersectingElement") ].

(** The union of the three key sets and the root type.  Only membership is
    ever asked of this set; the list fixes one enumeration of it. *)
Definition IFC_TYPES_OF_INTEREST : list str :=
  keys IFC_TO_BOT_ZONE ++ keys IFC_TO_BOT_ELEMENT
  ++ keys IFC_REL_TO_BOT_PROP ++ [lit "IFCPROJECT"].

(* ================================================================== *)
(** * Step 2: the record selector *)
(* ================================================================== *)

(** A selected line: (id, type, unparsed arguments). *)
Definition RawRecord : Type := (Z * str * str)%type.

(** The body of the loop over the matches: one match, appended to
    [results] when its type is of interest. *)
Definition scan_step (types_of_interest : list str)
  (results : list RawRecord) (m : groups) : list RawRecord :=
  let ent_id_str := group 1 m in
  let ent_type_raw := group 2 m in
  let args_str := group 3 m in
  let ent_id := int ent_id_str in
  let ent_type := upper ent_type_raw in
  if set_mem ent_type types_of_interest
  then results ++ [(ent_id, ent_type, args_str)]
  else results.

(** [scan_ifc_and_extract_lines], over a given enumeration of the set of
    types of interest. *)
Definition scan_with (types_of_interest : list str) (ifc_text : str)
  : list RawRecord :=
  fold_left (scan_step types_of_interest)
    (finditer record_pattern ifc_text) [].

Definition scan_ifc_and_extract_lines (ifc_text : str) : list RawRecord :=
  scan_with IFC_TYPES_OF_INTEREST ifc_text.

(* ================================================================== *)
(** * Step 3: the record parser *)
(* ================================================================== *)

Record IfcEntity : Type := mkEntity {
  id : Z;
  type : str;
  name : str;
  global_id : str
}.

(** [IfcEntity.__init__]: the type is stored in upper case. *)
Definition IfcEntity_init (ent_id : Z) (ent_type name global_id : str)
  : IfcEntity :=
  mkEntity ent_id (upper ent_type) name global_id.

Record IfcRelationship : Type := mkRelationship {
  rel_id : Z;
  rel_type : str;
  parent_id : Z;
  child_ids : list Z
}.

(** [IfcRelationship.__init__]. *)
Definition IfcRelationship_init (rel_id : Z) (rel_type : str)
  (parent_id : Z) (child_ids : list Z) : IfcRelationship :=
  mkRelationship rel_id (upper rel_type) parent_id child_ids.

Definition IFCPROJECT : str := lit "IFCPROJECT".

(** The test of case A: a zone, element or root type. *)
Definition is_entity_type (ent_type : str) : bool :=
  (dict_mem str_eqb ent_type IFC_TO_BOT_ZONE
   || dict_mem str_eqb ent_type IFC_TO_BOT_ELEMENT
   || str_eqb ent_type IFCPROJECT)%bool.

(** The test of case B: a relation type. *)
Definition is_relation_type (ent_type : str) : bool :=
  dict_mem str_eqb ent_type IFC_REL_TO_BOT_PROP.

(** The state of the parser's loop. *)
Definition parsed : Type := (dict Z IfcEntity * list IfcRelationship)%type.

(** The body of the loop of [parse_selected_ifc_lines]. *)
Definition parse_step (st : parsed) (line : RawRecord) : parsed :=
  let '(entities, relationships) := st in
  let '(ent_id, ent_type, args_str) := line in
  if is_entity_type ent_type then
    let m_args := match_ entity_args_pattern args_str in
    let global_id :=
      match m_args with Some (g, _) => group 1 g | None => [] end in
    let name :=
      match m_args with Some (g, _) => group 2 g | None => [] end in
    (dict_set Z.eqb ent_id (IfcEntity_init ent_id ent_type name global_id)
       entities,
     relationships)
  else if is_relation_type ent_type then
    let nums := findall ref_pattern args_str in
    if Nat.leb 2 (length nums) then
      match nums with
      | n0 :: rest =>
          let parent_id := int n0 in
          let child_ids := map int rest in
          (entities,
           relationships
           ++ [IfcRelationship_init ent_id ent_type parent_id child_ids])
      | [] => st
      end
    else st
  else st.

Definition parse_selected_ifc_lines (lines : list RawRecord) : parsed :=
  fold_left parse_step lines ([], []).

(* ================================================================== *)
(** * Step 4: the mapping engine *)
(* ================================================================== *)

Definition classify_ifc_entity (ent : IfcEntity) : option str :=
  if dict_mem str_eqb (type ent) IFC_TO_BOT_ZONE
  then dict_get str_eqb (type ent) IFC_TO_BOT_ZONE
  else if dict_mem str_eqb (type ent) IFC_TO_BOT_ELEMENT
  then dict_get str_eqb (type ent) IFC_TO_BOT_ELEMENT
  else None.

(** A triple (subject, predicate, object) of CURIEs or quoted literals. *)
Definition Triple : Type := (str * str * str)%type.

Definition subject (t : Triple) : str := fst (fst t).
Definition predicate (t : Triple) : str := snd (fst t).
Definition object (t : Triple) : str := snd t.

Definition dquote : ascii := ascii_of_nat 34.
Definition backslash : ascii := ascii_of_nat 92.

(** [f"ex:inst_{n}"]. *)
Definition inst (n : Z) : str := lit "ex:inst_" ++ dec n.

(** [name.replace('"', '\\"')]: a backslash before every double quote. *)
Definition escape_quotes (s : str) : str :=
  flat_map (fun c => if Ascii.eqb c dquote then [backslash; dquote] else [c])
    s.

(** The quoted literal of the label triple. *)
Definition quoted (safe_name : str) : str :=
  [dquote] ++ safe_name ++ [dquote].

Definition is_zone_id (entities : dict Z IfcEntity) (ifc_id : Z) : bool :=
  match dict_get Z.eqb ifc_id entities with
  | Some e => dict_mem str_eqb (type e) IFC_TO_BOT_ZONE
  | None => false
  end.

Definition is_element_id (entities : dict Z IfcEntity) (ifc_id : Z) : bool :=
  match dict_get Z.eqb ifc_id entities with
  | Some e => dict_mem str_eqb (type e) IFC_TO_BOT_ELEMENT
  | None => false
  end.

Definition rdf_type : str := lit "rdf:type".
Definition rdfs_label : str := lit "rdfs:label".
Definition bot_containsZone : str := lit "bot:containsZone".
Definition bot_hasSubElement : str := lit "bot:hasSubElement".
Definition bot_containsElement : str := lit "bot:containsElement".
Definition bot_adjacentElement : str := lit "bot:adjacentElement".
Definition bot_intersectingElement : str := lit "bot:intersectingElement".

Definition IFCRELAGGREGATES : str := lit "IFCRELAGGREGATES".
Definition IFCRELCONTAINEDINSPATIALSTRUCTURE : str :=
  lit "IFCRELCONTAINEDINSPATIALSTRUCTURE".
Definition IFCRELCONNECTSELEMENTS : str := lit "IFCRELCONNECTSELEMENTS".
Definition IFCRELINTERFERESELEMENTS : str := lit "IFCRELINTERFERESELEMENTS".

(** 4.1, the body of the loop over [entities.items()]. *)
Definition entity_step (triples : list Triple) (item : Z * IfcEntity)
  : list Triple :=
  let '(ent_id, ent) := item in
  match classify_ifc_entity ent with
  | None => triples
  | Some bot_class =>
      let subj := inst ent_id in
      let triples := triples ++ [(subj, rdf_type, bot_class)] in
      match name ent with
      | [] => triples
      | _ :: _ =>
          let safe_name := escape_quotes (name ent) in
          triples ++ [(subj, rdfs_label, quoted safe_name)]
      end
  end.

(** The body of the loop of the aggregation branch. *)
Definition aggregates_step (entities : dict Z IfcEntity)
  (parent_id : Z) (parent_curie : str)
  (triples : list Triple) (pair : Z * str) : list Triple :=
  let '(cid, child_curie) := pair in
  if (is_zone_id entities parent_id && is_zone_id entities cid)%bool then
    triples ++ [(parent_curie, bot_containsZone, child_curie)]
  else if (is_element_id entities parent_id
           && is_element_id entities cid)%bool then
    triples ++ [(parent_curie, bot_hasSubElement, child_curie)]
  else triples.

(** The body of the loop of the spatial containment branch. *)
Definition contained_step (entities : dict Z IfcEntity)
  (parent_id : Z) (parent_curie : str)
  (triples : list Triple) (pair : Z * str) : list Triple :=
  let '(cid, child_curie) := pair in
  if (is_zone_id entities parent_id && is_element_id entities cid)%bool then
    triples ++ [(parent_curie, bot_containsElement, child_curie)]
  else triples.

(** The connection and interference branches, which differ by the
    predicate only.  The two unpackings [a_id, b_id = child_ids] and
    [a, b = children_curie] are guarded by the length test. *)
Definition symmetric_step (entities : dict Z IfcEntity) (prop : str)
  (child_ids : list Z) (children_curie : list str)
  (triples : list Triple) : list Triple :=
  if Nat.eqb (length child_ids) 2 then
    match child_ids, children_curie with
    | [a_id; b_id], [a; b] =>
        if (is_element_id entities a_id
            && is_element_id entities b_id)%bool then
          (triples ++ [(a, prop, b)]) ++ [(b, prop, a)]
        else triples
    | _, _ => triples
    end
  else triples.

(** 4.2, the body of the loop over [relationships]. *)
Definition relationship_step (entities : dict Z IfcEntity)
  (triples : list Triple) (rel : IfcRelationship) : list Triple :=
  let parent_id := parent_id rel in
  let child_ids := child_ids rel in
  let parent_curie := inst parent_id in
  let children_curie := map inst child_ids in
  if str_eqb (rel_type rel) IFCRELAGGREGATES then
    fold_left (aggregates_step entities parent_id parent_curie)
      (combine child_ids children_curie) triples
  else if str_eqb (rel_type rel) IFCRELCONTAINEDINSPATIALSTRUCTURE then
    fold_left (contained_step entities parent_id parent_curie)
      (combine child_ids children_curie) triples
  else if str_eqb (rel_type rel) IFCRELCONNECTSELEMENTS then
    symmetric_step entities bot_adjacentElement child_ids children_curie
      triples
  else if str_eqb (rel_type rel) IFCRELINTERFERESELEMENTS then
    symmetric_step entities bot_intersectingElement child_ids children_curie
      triples
  else triples.

Definition ifc_to_bot_triples (entities : dict Z IfcEntity)
  (relationships : list IfcRelationship) : list Triple :=
  let triples := [] in
  let triples := fold_left entity_step entities triples in
  fold_left (relationship_step entities) relationships triples.

(* ================================================================== *)
(** * The serializer *)
(* ================================================================== *)

Definition nl : str := [ascii_of_nat 10].

Definition prefix_lines : list str :=
  [ lit "@prefix rdf:  <http://www.w3.org/1999/02/22-rdf-syntax-ns#> .";
    lit "@prefix rdfs: <http://www.w3.org/2000/01/rdf-schema#> .";
    lit "@prefix bot:  <https://w3id.org/bot#> .";
    lit "@prefix ex:   <http://example.com/instances#> .";
    lit "" ].

(** [by_subject[s].append((p, o))] on a [defaultdict(list)]: a subject
    seen for the first time enters the dictionary, at the end, with an
    empty list; the pair is then appended to the subject's list. *)
Definition by_subject_step (by_subject : dict str (list (str * str)))
  (t : Triple) : dict str (list (str * str)) :=
  let '(s, p, o) := t in
  let props :=
    match dict_get str_eqb s by_subject with
    | Some l => l
    | None => []
    end in
  dict_set str_eqb s (props ++ [(p, o)]) by_subject.

(** [enumerate(l)]. *)
Definition enumerate {A : Type} (l : list A) : list (nat * A) :=
  combine (seq 0 (length l)) l.

(** The body of the inner loop: one property line. *)
Definition prop_step (props : list (str * str)) (lines : list str)
  (item : nat * (str * str)) : list str :=
  let '(i, (p, o)) := item in
  let sep :=
    if Z.of_nat i <? Z.of_nat (length props) - 1
    then lit " ;" else lit " ." in
  lines ++ [lit "    " ++ p ++ lit " " ++ o ++ sep].

(** The body of the loop over [by_subject.items()]: one stanza. *)
Definition stanza_step (lines : list str)
  (item : str * list (str * str)) : list str :=
  let '(subj, props) := item in
  let lines := lines ++ [subj] in
  let lines := fold_left (prop_step props) (enumerate props) lines in
  lines ++ [lit ""].

Definition triples_to_ttl (triples : list Triple) : str :=
  let lines := prefix_lines in
  let by_subject := fold_left by_subject_step triples [] in
  let lines := fold_left stanza_step by_subject lines in
  join nl lines.

(* ================================================================== *)
(** * The whole pipeline *)
(* ================================================================== *)

(** The computation of [convert_ifc_file_to_ttl] between reading the input
    text and writing the output text, over a given enumeration of the set
    of types of interest. *)
Definition convert_with (types_of_interest : list str) (ifc_text : str)
  : str :=
  let selected := scan_with types_of_interest ifc_text in
  let '(entities, relationships) := parse_selected_ifc_lines selected in
  let triples := ifc_to_bot_triples entities relationships in
  triples_to_ttl triples.

Definition convert (ifc_text : str) : str :=
  convert_with IFC_TYPES_OF_INTEREST ifc_text.

(* ================================================================== *)
(** * Sample data *)
(* ================================================================== *)

(** A small model: a building (#10) with a storey (#20), two walls (#5,
    #6), a project (#8). *)
Definition sample_entities : dict Z IfcEntity :=
  [ (10, IfcEntity_init 10 (lit "IFCBUILDING") (lit "Main") (lit "G1"));
    (20, IfcEntity_init 20 (lit "IFCBUILDINGSTOREY") (lit "L1") (lit "G2"));
    (5, IfcEntity_init 5 (lit "IFCWALL") [] []);
    (6, IfcEntity_init 6 (lit "IFCWALL") (lit "W6") (lit "w"));
    (8, IfcEntity_init 8 (lit "IFCPROJECT") (lit "P") (lit "p")) ].

Definition sample_aggregation : IfcRelationship :=
  IfcRelationship_init 30 (lit "IFCRELAGGREGATES") 10 [20; 5; 99].

Definition sample_connection : IfcRelationship :=
  IfcRelationship_init 7 (lit "IFCRELCONNECTSELEMENTS") 0 [5; 6].

Definition sample_text : str :=
  lit "#10 = IFCBUILDING('G1','Main'); #20 = IFCBUILDINGSTOREY('G2','L1'); #30 = IFCRELAGGREGATES('X',$,$,$,#10,(#20));".

Definition sample_wall_line : RawRecord :=
  (5, lit "IFCWALL", lit "'w','Wall 5',$").

Definition sample_relation_line : RawRecord :=
  (30, lit "IFCRELAGGREGATES", lit "'X',$,$,$,#10,(#20,#21)").

Definition sample_containment : IfcRelationship :=
  IfcRelationship_init 40 (lit "IFCRELCONTAINEDINSPATIALSTRUCTURE") 20
    [5; 10; 6].

(* ================================================================== *)
(** * Specification-level notions *)
(* ================================================================== *)

(** The contribution of one dictionary item, and of one relationship, to
    the result of the mapping engine. *)
Definition entity_triples (item : Z * IfcEntity) : list Triple :=
  entity_step [] item.

Definition relationship_triples (entities : dict Z IfcEntity)
  (rel : IfcRelationship) : list Triple :=
  relationship_step entities [] rel.

(** Classification of an id, in the words of the specification: a zone, an
    element, or neither. *)
Inductive classification : Type := Zone | Element | Neither.

Definition classify_id (entities : dict Z IfcEntity) (i : Z)
  : classification :=
  if is_zone_id entities i then Zone
  else if is_element_id entities i then Element
  else Neither.

(** The aggregation rule of the specification, for one (parent, child)
    pair. *)
Definition aggregation_rule (entities : dict Z IfcEntity) (p c : Z)
  : list Triple :=
  match classify_id entities p, classify_id entities c with
  | Zone, Zone => [(inst p, bot_containsZone, inst c)]
  | Element, Element => [(inst p, bot_hasSubElement, inst c)]
  | _, _ => []
  end.

(** The rule of the connection and interference relation types, for the
    child sequence of one relationship. *)
Definition symmetric_rule (entities : dict Z IfcEntity) (prop : str)
  (children : list Z) : list Triple :=
  match children with
  | [a; b] =>
      if (is_element_id entities a && is_element_id entities b)%bool
      then [(inst a, prop, inst b); (inst b, prop, inst a)]
      else []
  | _ => []
  end.

(** The predicates of the relationship triples. *)
Definition relationship_predicates : list str :=
  [ bot_containsZone; bot_hasSubElement; bot_containsElement;
    bot_adjacentElement; bot_intersectingElement ].

(** An id resolves to a classified entity. *)
Definition classified (entities : dict Z IfcEntity) (i : Z) : bool :=
  (is_zone_id entities i || is_element_id entities i)%bool.

(** The triples of subject [inst k] and predicate [p]. *)
Definition about (k : Z) (p : str) (t : Triple) : bool :=
  (str_eqb (subject t) (inst k) && str_eqb (predicate t) p)%bool.

(** ** The serializer, in the words of the specification *)

(** The distinct elements of a list, in order of first appearance. *)
Fixpoint first_appearances (l : list str) : list str :=
  match l with
  | [] => []
  | x :: t => x :: filter (fun y => negb (str_eqb y x)) (first_appearances t)
  end.

(** The predicate-object pairs of the triples of subject [s], in the order
    of the triples, duplicates kept. *)
Definition pairs_of (s : str) (triples : list Triple) : list (str * str) :=
  map (fun t => (predicate t, object t))
    (filter (fun t => str_eqb (subject t) s) triples).

Definition property_line (p o sep : str) : str :=
  lit "    " ++ p ++ lit " " ++ o ++ sep.

(** The property lines of a stanza: a semicolon after every pair but the
    last, a full stop after the last. *)
Fixpoint property_lines (props : list (str * str)) : list str :=
  match props with
  | [] => []
  | [(p, o)] => [property_line p o (lit " .")]
  | (p, o) :: rest => property_line p o (lit " ;") :: property_lines rest
  end.

(** A stanza: the subject on a line of its own, its property lines, an
    empty line. *)
Definition stanza (s : str) (props : list (str * str)) : list str :=
  [s] ++ property_lines props ++ [lit ""].

(** The four namespace-prefix declarations. *)
Definition prefix_declarations : list str :=
  [ lit "@prefix rdf:  <http://www.w3.org/1999/02/22-rdf-syntax-ns#> .";
    lit "@prefix rdfs: <http://www.w3.org/2000/01/rdf-schema#> .";
    lit "@prefix bot:  <https://w3id.org/bot#> .";
    lit "@prefix ex:   <http://example.com/instances#> ." ].

Definition str_dec : forall a b : str, {a = b} + {a <> b} :=
  list_eq_dec ascii_dec.

Definition pair_dec : forall a b : str * str, {a = b} + {a <> b}.
Proof. decide equality; apply str_dec. Defined.

Definition triple_dec : forall a b : Triple, {a = b} + {a <> b}.
Proof. decide equality; [apply str_dec | apply pair_dec]. Defined.

(** The grouping of the specification, as a dictionary. *)
Definition grouped (triples : list Triple) : dict str (list (str * str)) :=
  map (fun s => (s, pairs_of s triples))
    (first_appearances (map subject triples)).

(** ** Text shapes *)

(** Every character of [s] is in the class. *)
Definition all (cls : ascii -> bool) (s : str) : Prop :=
  forallb cls s = true.

(** [s] does not go on with a character of the class. *)
Definition stops (cls : ascii -> bool) (s : str) : Prop :=
  match s with
  | [] => True
  | c :: _ => cls c = false
  end.

(** The records of a text, read from left to right: at each position, a
    record that starts there is taken and reading resumes after it;
    a position where no record starts is passed over.  [M s a rest] says
    that a record [a] starts at the head of [s] and is followed by
    [rest]. *)
Inductive scan_spec {A : Type} (M : str -> A -> str -> Prop)
  : str -> list A -> Prop :=
| scan_end : scan_spec M [] []
| scan_skip (c : ascii) (s : str) (l : list A) :
    (forall a rest, ~ M (c :: s) a rest) ->
    scan_spec M s l ->
    scan_spec M (c :: s) l
| scan_hit (s : str) (a : A) (rest : str) (l : list A) :
    M s a rest ->
    scan_spec M rest l ->
    scan_spec M s (a :: l).

(** A record of the shape  #<digits> = <IDENTIFIER>(<args>);  at the head
    of [s]: the digits, the identifier and the arguments, the latter being
    the text up to the first closing parenthesis followed by a semicolon;
    white space is allowed around the equals sign and before the opening
    parenthesis. *)
Definition record_shape (s : str) (m : str * str * str) (rest : str)
  : Prop :=
  let '(ds, ident, args) := m in
  exists w1 w2 w3,
    s = "#"%char :: ds ++ w1 ++ "="%char :: w2 ++ ident ++ w3
          ++ "("%char :: args ++ ")"%char :: ";"%char :: rest
    /\ ds <> [] /\ all is_digit ds
    /\ all is_space w1 /\ all is_space w2
    /\ ident <> [] /\ all is_word ident
    /\ all is_space w3
    /\ (forall a b, args <> a ++ ")"%char :: ";"%char :: b).

(** The raw record read off a record shape: the number the digits denote,
    the identifier in upper case, the arguments as they are. *)
Definition record_at (s : str) (rec : RawRecord) (rest : str) : Prop :=
  exists ds ident args,
    record_shape s (ds, ident, args) rest
    /\ rec = (int ds, upper ident, args).

(** A reference  #<digits>  at the head of [s], with all the digits that
    follow the hash sign. *)
Definition ref_at (s : str) (n : Z) (rest : str) : Prop :=
  exists ds,
    s = "#"%char :: ds ++ rest
    /\ ds <> [] /\ all is_digit ds /\ stops is_digit rest
    /\ n = int ds.

(** The head of an argument text of the shape  '<gid>' , '<name>'  : two
    single-quoted literals separated by a comma, with optional white space
    around the comma. *)
Definition two_literals_at (s : str) (m : str * str) (rest : str) : Prop :=
  let '(gid, nm) := m in
  exists w1 w2,
    s = "'"%char :: gid ++ "'"%char :: w1 ++ ","%char :: w2
          ++ "'"%char :: nm ++ "'"%char :: rest
    /\ all not_quote gid /\ all is_space w1 /\ all is_space w2
    /\ all not_quote nm.

(** ** The selector and the parser, in the words of the specification *)

(** What [finditer] yields for the record pattern, as a raw record. *)
Definition decode_record (m : groups) : RawRecord :=
  (int (group 1 m), upper (group 2 m), group 3 m).

(** The test of interest on a raw record. *)
Definition of_interest (types_of_interest : list str) (rec : RawRecord)
  : bool :=
  set_mem (snd (fst rec)) types_of_interest.

(** The entity the parser builds from an entity line. *)
Definition entity_of (line : RawRecord) : IfcEntity :=
  let '(ent_id, ent_type, args_str) := line in
  match match_ entity_args_pattern args_str with
  | Some (g, _) => IfcEntity_init ent_id ent_type (group 2 g) (group 1 g)
  | None => IfcEntity_init ent_id ent_type [] []
  end.

(** ** Further notions, for the properties beyond the claims *)

(** The spatial containment rule, for one (parent, child) pair. *)
Definition containment_rule (entities : dict Z IfcEntity) (p c : Z)
  : list Triple :=
  if (is_zone_id entities p && is_element_id entities c)%bool
  then [(inst p, bot_containsElement, inst c)]
  else [].

(** The classification a relationship predicate asks of the subject and of
    the object of its triples. *)
Definition domain_of (p : str) : classification :=
  if (str_eqb p bot_containsZone || str_eqb p bot_containsElement)%bool
  then Zone else Element.

Definition range_of (p : str) : classification :=
  if str_eqb p bot_containsZone then Zone else Element.

(** The triples the pipeline computes from a text. *)
Definition triples_of_text (ifc_text : str) : list Triple :=
  let '(entities, relationships) :=
    parse_selected_ifc_lines (scan_ifc_and_extract_lines ifc_text) in
  ifc_to_bot_triples entities relationships.

(** The text every output starts with: the four declarations, each
    followed by a line feed. *)
Definition header : str :=
  flat_map (fun d => d ++ nl) prefix_declarations.

(** The triples a grouping by subject stands for. *)
Definition ungroup (d : dict str (list (str * str))) : list Triple :=
  flat_map (fun item => map (fun po => (fst item, fst po, snd po)) (snd item))
    d.

(** The relationship a line contributes to the parser's result, if any. *)
Definition relationships_of (line : RawRecord) : list IfcRelationship :=
  snd (parse_step ([], []) line).

(** The characters of an unsigned decimal numeral. *)
Definition digits (d : Decimal.uint) : str :=
  list_ascii_of_string (NilEmpty.string_of_uint d).

(** ** The text of the serializer, written out *)

Definition line_feed : ascii := "010"%char.

(** A line of the output: its characters and a line feed. *)
Definition line (l : str) : str := l ++ [line_feed].

(** The text of a stanza: an empty line, the subject on a line of its
    own, the property lines. *)
Definition stanza_text (s : str) (props : list (str * str)) : str :=
  line [] ++ line s ++ flat_map line (property_lines props).

(** The output text: the four declarations, one per line, then the
    stanzas of the subjects in order of first appearance. *)
Definition document (triples : list Triple) : str :=
  flat_map line prefix_declarations
  ++ flat_map (fun s => stanza_text s (pairs_of s triples))
       (first_appearances (map subject triples)).

(* ================================================================== *)
(** * The program as CPython runs it: Unicode text and the limit on the
      decimal digits of an integer *)
(* ================================================================== *)

(** The first part of the development computes with ASCII text and with
    conversions between integers and numerals that never fail.  Two
    features of the interpreter go beyond it:

    - a [str] holds Unicode code points, and the classes [\s], [\d], [\w]
      of [re], the method [str.upper] and the function [int] follow the
      Unicode character database;
    - [int(s)] and the formatting of an integer in an f-string raise
      [ValueError] when the numeral has more digits than
      [sys.get_int_max_str_digits()] (4300 by default), this limit being
      looked at for numerals of more than 640 digits only, and 0 meaning
      no limit.

    Neither the character database nor the limit is in the repository:
    they are taken as a parameter, the class [Runtime], with the facts
    about them that the proofs use.  The selector and the parser are
    embedded again over code points, with results that may be
    [ValueError] (module [Unicode]); so is the mapping engine, over the
    records of the first part, since it looks at no character class
    (module [Checked]). *)

(** The result of a call that may raise [ValueError]. *)
Inductive result (A : Type) : Type :=
| Ok (a : A)
| ValueError.

Arguments Ok {A} a.
Arguments ValueError {A}.

Definition bind {A B : Type} (r : result A) (f : A -> result B)
  : result B :=
  match r with
  | Ok a => f a
  | ValueError => ValueError
  end.

(** A loop [for x in l] whose body updates [acc] and may raise. *)
Fixpoint for_each {A B : Type} (step : B -> A -> result B) (l : list A)
  (acc : B) : result B :=
  match l with
  | [] => Ok acc
  | x :: l' => bind (step acc x) (for_each step l')
  end.

(** A list comprehension [[f(x) for x in l]] whose element may raise. *)
Fixpoint comprehension {A B : Type} (f : A -> result B) (l : list A)
  : result (list B) :=
  match l with
  | [] => Ok []
  | x :: l' =>
      bind (f x) (fun y => bind (comprehension f l') (fun ys => Ok (y :: ys)))
  end.

(** A character of a Python [str]: a Unicode code point. *)
Definition codepoint : Type := N.

Definition ustr : Type := list codepoint.

Definition of_ascii (c : ascii) : codepoint := N_of_ascii c.

(** A string of the first part, as a string of code points. *)
Definition embed (s : str) : ustr := map of_ascii s.

(** A string literal of the source. *)
Definition ulit (s : string) : ustr := embed (lit s).

Fixpoint ustr_eqb (a b : ustr) : bool :=
  match a, b with
  | [], [] => true
  | x :: a', y :: b' => N.eqb x y && ustr_eqb a' b'
  | _, _ => false
  end.

Definition in_range (lo hi : N) (c : codepoint) : bool :=
  (N.leb lo c && N.leb c hi)%bool.

(** The classes and the upper-case mapping on the ASCII code points. *)
Definition ascii_space (c : codepoint) : bool :=
  (in_range 9%N 13%N c || in_range 28%N 32%N c)%bool.

Definition ascii_digit (c : codepoint) : bool := in_range 48%N 57%N c.

Definition ascii_word (c : codepoint) : bool :=
  (in_range 97%N 122%N c || in_range 65%N 90%N c || in_range 48%N 57%N c
   || N.eqb c 95%N)%bool.

Definition ascii_upper (c : codepoint) : codepoint :=
  if in_range 97%N 122%N c then (c - 32)%N else c.

(** What the program uses of the interpreter: the character database and
    the limit on the digits of a numeral.  The laws are facts of CPython:
    on ASCII code points the classes and the upper-case mapping are the
    ASCII ones, a white space character is no word character, a decimal
    digit is a word character and has a value from 0 to 9. *)
Class Runtime : Type := {
  uni_space : codepoint -> bool;
  uni_digit : codepoint -> bool;
  uni_word : codepoint -> bool;
  uni_decimal : codepoint -> Z;
  uni_upper : codepoint -> ustr;
  int_max_str_digits : nat;
  uni_space_ascii :
    forall c, (c < 128)%N -> uni_space c = ascii_space c;
  uni_digit_ascii :
    forall c, (c < 128)%N -> uni_digit c = ascii_digit c;
  uni_word_ascii :
    forall c, (c < 128)%N -> uni_word c = ascii_word c;
  uni_decimal_ascii :
    forall c, ascii_digit c = true -> uni_decimal c = Z.of_N c - 48;
  uni_decimal_range :
    forall c, uni_digit c = true -> 0 <= uni_decimal c <= 9;
  uni_upper_ascii :
    forall c, (c < 128)%N -> uni_upper c = [ascii_upper c];
  uni_space_not_word :
    forall c, uni_space c = true -> uni_word c = false;
  uni_digit_word :
    forall c, uni_digit c = true -> uni_word c = true
}.

(** The test of both conversions: a numeral of [n] digits is refused. *)
Definition exceeds {rt : Runtime} (n : nat) : bool :=
  (Nat.ltb 640 n && Nat.ltb 0 int_max_str_digits
   && Nat.ltb int_max_str_digits n)%bool.

(* ------------------------------------------------------------------ *)
(** ** The mapping engine, with the formatting of ids that may raise *)
(* ------------------------------------------------------------------ *)

Module Checked.

Section WithRuntime.

Context {rt : Runtime}.

(** The number of decimal digits of an integer, the sign not counted. *)
Definition decimal_digits (n : Z) : nat := length (dec (Z.abs n)).

(** An integer within the limit of the conversion to a numeral. *)
Definition fits (n : Z) : bool := negb (exceeds (decimal_digits n)).

(** [f"{n}"] for an integer. *)
Definition str_of_int (n : Z) : result str :=
  if fits n then Ok (dec n) else ValueError.

(** [f"ex:inst_{n}"]. *)
Definition inst (n : Z) : result str :=
  bind (str_of_int n) (fun d => Ok (lit "ex:inst_" ++ d)).

(** 4.1, the body of the loop over [entities.items()]. *)
Definition entity_step (triples : list Triple) (item : Z * IfcEntity)
  : result (list Triple) :=
  let '(ent_id, ent) := item in
  match classify_ifc_entity ent with
  | None => Ok triples
  | Some bot_class =>
      bind (inst ent_id) (fun subj =>
        let triples := triples ++ [(subj, rdf_type, bot_class)] in
        match name ent with
        | [] => Ok triples
        | _ :: _ =>
            let safe_name := escape_quotes (name ent) in
            Ok (triples ++ [(subj, rdfs_label, quoted safe_name)])
        end)
  end.

(** 4.2, the body of the loop over [relationships]: the two conversions
    of lines 311 and 312 come first, for every relationship. *)
Definition relationship_step (entities : dict Z IfcEntity)
  (triples : list Triple) (rel : IfcRelationship) : result (list Triple) :=
  let parent_id := parent_id rel in
  let child_ids := child_ids rel in
  bind (inst parent_id) (fun parent_curie =>
  bind (comprehension inst child_ids) (fun children_curie =>
    if str_eqb (rel_type rel) IFCRELAGGREGATES then
      Ok (fold_left (aggregates_step entities parent_id parent_curie)
            (combine child_ids children_curie) triples)
    else if str_eqb (rel_type rel) IFCRELCONTAINEDINSPATIALSTRUCTURE then
      Ok (fold_left (contained_step entities parent_id parent_curie)
            (combine child_ids children_curie) triples)
    else if str_eqb (rel_type rel) IFCRELCONNECTSELEMENTS then
      Ok (symmetric_step entities bot_adjacentElement child_ids
            children_curie triples)
    else if str_eqb (rel_type rel) IFCRELINTERFERESELEMENTS then
      Ok (symmetric_step entities bot_intersectingElement child_ids
            children_curie triples)
    else Ok triples)).

Definition ifc_to_bot_triples (entities : dict Z IfcEntity)
  (relationships : list IfcRelationship) : result (list Triple) :=
  bind (for_each entity_step entities [])
    (fun triples => for_each (relationship_step entities) relationships
                      triples).


End WithRuntime.

End Checked.

(* ------------------------------------------------------------------ *)
(** ** The selector and the parser over Unicode text *)
(* ------------------------------------------------------------------ *)

Module Unicode.

(** The fragment of [re] syntax the program uses, over code points. *)
Inductive regex : Type :=
| Chr (c : codepoint)
| Star (cls : codepoint -> bool)
| Plus (cls : codepoint -> bool)
| LazyStar (cls : codepoint -> bool)
| Group (i : nat) (r : regex)
| Seq (r1 r2 : regex).

Definition groups : Type := list (nat * ustr).

Fixpoint group (i : nat) (g : groups) : ustr :=
  match g with
  | [] => []
  | (j, s) :: g' => if Nat.eqb i j then s else group i g'
  end.

Section Matcher.

Context {A : Type}.

(** Greedy repetition. *)
Fixpoint star (cls : codepoint -> bool) (s : ustr) (k : ustr -> option A)
  : option A :=
  match s with
  | c :: t =>
      if cls c then
        match star cls t k with
        | Some a => Some a
        | None => k s
        end
      else k s
  | [] => k []
  end.

(** Lazy repetition. *)
Fixpoint lazy_star (cls : codepoint -> bool) (s : ustr)
  (k : ustr -> option A) : option A :=
  match k s with
  | Some a => Some a
  | None =>
      match s with
      | c :: t => if cls c then lazy_star cls t k else None
      | [] => None
      end
  end.

(** The backtracking matcher, in continuation-passing style. *)
Fixpoint run (r : regex) (s : ustr) (g : groups)
  (k : ustr -> groups -> option A) : option A :=
  match r with
  | Chr c =>
      match s with
      | c' :: t => if N.eqb c c' then k t g else None
      | [] => None
      end
  | Star cls => star cls s (fun s' => k s' g)
  | Plus cls =>
      match s with
      | c :: t => if cls c then star cls t (fun s' => k s' g) else None
      | [] => None
      end
  | LazyStar cls => lazy_star cls s (fun s' => k s' g)
  | Group i r' =>
      run r' s g
        (fun s' g' => k s' ((i, firstn (length s - length s') s) :: g'))
  | Seq r1 r2 => run r1 s g (fun s' g' => run r2 s' g' k)
  end.

End Matcher.

(** [pattern.match(s)]. *)
Definition match_ (r : regex) (s : ustr) : option (groups * ustr) :=
  run r s [] (fun s' g => Some (g, s')).

(** [pattern.finditer(s)], for a pattern that matches no empty string. *)
Fixpoint finditer_from (r : regex) (skip : nat) (s : ustr) : list groups :=
  match s with
  | [] => []
  | _ :: t =>
      match skip with
      | S n => finditer_from r n t
      | O =>
          match match_ r s with
          | Some (g, rest) =>
              g :: finditer_from r (length s - length rest - 1) t
          | None => finditer_from r 0 t
          end
      end
  end.

Definition finditer (r : regex) (s : ustr) : list groups :=
  finditer_from r 0 s.

(** [re.findall] for a pattern with exactly one group. *)
Definition findall (r : regex) (s : ustr) : list ustr :=
  map (group 1) (finditer r s).

Definition any_char (c : codepoint) : bool := true.

(** [[^']]. *)
Definition not_quote (c : codepoint) : bool := negb (N.eqb c 39%N).

Definition hash : codepoint := 35%N.
Definition equals : codepoint := 61%N.
Definition lparen : codepoint := 40%N.
Definition rparen : codepoint := 41%N.
Definition semicolon : codepoint := 59%N.
Definition quote : codepoint := 39%N.
Definition comma : codepoint := 44%N.

(** The registry, over code points. *)
Definition IFC_TO_BOT_ZONE : dict ustr ustr :=
  [ (ulit "IFCSITE",           ulit "bot:Site");
    (ulit "IFCBUILDING",       ulit "bot:Building");
    (ulit "IFCBUILDINGSTOREY", ulit "bot:Storey");
    (ulit "IFCSPACE",          ulit "bot:Space") ].

Definition IFC_TO_BOT_ELEMENT : dict ustr ustr :=
  [ (ulit "IFCWALL",              ulit "bot:Element");
    (ulit "IFCWALLSTANDARDCASE",  ulit "bot:Element");
    (ulit "IFCSLAB",              ulit "bot:Element");
    (ulit "IFCBEAM",              ulit "bot:Element");
    (ulit "IFCCOLUMN",            ulit "bot:Element");
    (ulit "IFCDOOR",              ulit "bot:Element");
    (ulit "IFCWINDOW",            ulit "bot:Element");
    (ulit "IFCPLATE",             ulit "bot:Element");
    (ulit "IFCFURNISHINGELEMENT", ulit "bot:Element");
    (ulit "IFCSTAIR",             ulit "bot:Element");
    (ulit "IFCSTAIRFLIGHT",       ulit "bot:Element");
    (ulit "IFCFLOWTERMINAL",      ulit "bot:Element") ].

Definition IFC_REL_TO_BOT_PROP : dict ustr ustr :=
  [ (ulit "IFCRELAGGREGATES", ulit "bot:containsZone_or_hasSubElement");
    (ulit "IFCRELCONTAINEDINSPATIALSTRUCTURE", ulit "bot:containsElement");
    (ulit "IFCRELCONNECTSELEMENTS", ulit "bot:adjacentElement");
    (ulit "IFCRELINTERFERESELEMENTS", ulit "bot:intersectingElement") ].

Definition IFC_TYPES_OF_INTEREST : list ustr :=
  keys IFC_TO_BOT_ZONE ++ keys IFC_TO_BOT_ELEMENT
  ++ keys IFC_REL_TO_BOT_PROP ++ [ulit "IFCPROJECT"].

Definition set_mem (x : ustr) (s : list ustr) : bool :=
  existsb (ustr_eqb x) s.

Definition RawRecord : Type := (Z * ustr * ustr)%type.

Record IfcEntity : Type := mkEntity {
  id : Z;
  type : ustr;
  name : ustr;
  global_id : ustr
}.

Record IfcRelationship : Type := mkRelationship {
  rel_id : Z;
  rel_type : ustr;
  parent_id : Z;
  child_ids : list Z
}.

Definition parsed : Type := (dict Z IfcEntity * list IfcRelationship)%type.

(** The test of case A: a zone, element or root type. *)
Definition is_entity_type (ent_type : ustr) : bool :=
  (dict_mem ustr_eqb ent_type IFC_TO_BOT_ZONE
   || dict_mem ustr_eqb ent_type IFC_TO_BOT_ELEMENT
   || ustr_eqb ent_type (ulit "IFCPROJECT"))%bool.

(** The test of case B: a relation type. *)
Definition is_relation_type (ent_type : ustr) : bool :=
  dict_mem ustr_eqb ent_type IFC_REL_TO_BOT_PROP.

Section WithRuntime.

Context {rt : Runtime}.

(** The pattern of [scan_ifc_and_extract_lines]:
    # ( \d+ ) \s* = \s* ( \w+ ) \s* \( ( .*? ) \) ;  *)
Definition record_pattern : regex :=
  Seq (Chr hash)
 (Seq (Group 1 (Plus uni_digit))
 (Seq (Star uni_space)
 (Seq (Chr equals)
 (Seq (Star uni_space)
 (Seq (Group 2 (Plus uni_word))
 (Seq (Star uni_space)
 (Seq (Chr lparen)
 (Seq (Group 3 (LazyStar any_char))
 (Seq (Chr rparen)
      (Chr semicolon)))))))))).

(** The pattern of the entity branch:
    ' ( [^']* ) ' \s* , \s* ' ( [^']* ) '  *)
Definition entity_args_pattern : regex :=
  Seq (Chr quote)
 (Seq (Group 1 (Star not_quote))
 (Seq (Chr quote)
 (Seq (Star uni_space)
 (Seq (Chr comma)
 (Seq (Star uni_space)
 (Seq (Chr quote)
 (Seq (Group 2 (Star not_quote))
      (Chr quote)))))))).

(** The pattern of the relationship branch:  # ( \d+ )  *)
Definition ref_pattern : regex :=
  Seq (Chr hash) (Group 1 (Plus uni_digit)).

(** [str.upper]: the upper-case mapping of each character. *)
Definition upper (s : ustr) : ustr := flat_map uni_upper s.

(** The number a string of decimal digits denotes. *)
Definition decimal_value (s : ustr) : Z :=
  fold_left (fun acc c => 10 * acc + uni_decimal c) s 0.

(** [int(s)] for [s] a match of [\d+], the only strings the program
    passes to it. *)
Definition int (s : ustr) : result Z :=
  if exceeds (length s) then ValueError else Ok (decimal_value s).

(** The body of the loop over the matches. *)
Definition scan_step (types_of_interest : list ustr)
  (results : list RawRecord) (m : groups) : result (list RawRecord) :=
  let ent_id_str := group 1 m in
  let ent_type_raw := group 2 m in
  let args_str := group 3 m in
  bind (int ent_id_str) (fun ent_id =>
    let ent_type := upper ent_type_raw in
    if set_mem ent_type types_of_interest
    then Ok (results ++ [(ent_id, ent_type, args_str)])
    else Ok results).

Definition scan_ifc_and_extract_lines (ifc_text : ustr)
  : result (list RawRecord) :=
  for_each (scan_step IFC_TYPES_OF_INTEREST)
    (finditer record_pattern ifc_text) [].

(** [IfcEntity.__init__]. *)
Definition IfcEntity_init (ent_id : Z) (ent_type name global_id : ustr)
  : IfcEntity :=
  mkEntity ent_id (upper ent_type) name global_id.

(** [IfcRelationship.__init__]. *)
Definition IfcRelationship_init (rel_id : Z) (rel_type : ustr)
  (parent_id : Z) (child_ids : list Z) : IfcRelationship :=
  mkRelationship rel_id (upper rel_type) parent_id child_ids.

(** The body of the loop of [parse_selected_ifc_lines]. *)
Definition parse_step (st : parsed) (line : RawRecord) : result parsed :=
  let '(entities, relationships) := st in
  let '(ent_id, ent_type, args_str) := line in
  if is_entity_type ent_type then
    let m_args := match_ entity_args_pattern args_str in
    let global_id :=
      match m_args with Some (g, _) => group 1 g | None => [] end in
    let name :=
      match m_args with Some (g, _) => group 2 g | None => [] end in
    Ok (dict_set Z.eqb ent_id
          (IfcEntity_init ent_id ent_type name global_id) entities,
        relationships)
  else if is_relation_type ent_type then
    let nums := findall ref_pattern args_str in
    if Nat.leb 2 (length nums) then
      match nums with
      | n0 :: rest =>
          bind (int n0) (fun parent_id =>
          bind (comprehension int rest) (fun child_ids =>
            Ok (entities,
                relationships
                ++ [IfcRelationship_init ent_id ent_type parent_id
                      child_ids])))
      | [] => Ok st
      end
    else Ok st
  else Ok st.

Definition parse_selected_ifc_lines (lines : list RawRecord)
  : result parsed :=
  for_each parse_step lines ([], []).

(** *** Text shapes, over code points *)

Definition all (cls : codepoint -> bool) (s : ustr) : Prop :=
  forallb cls s = true.

Definition stops (cls : codepoint -> bool) (s : ustr) : Prop :=
  match s with
  | [] => True
  | c :: _ => cls c = false
  end.

(** A record  #<digits> = <IDENTIFIER>(<args>);  at the head of [s]: the
    digits, the identifier and the arguments, which end at the first
    closing parenthesis followed by a semicolon. *)
Definition record_shape (s : ustr) (m : ustr * ustr * ustr) (rest : ustr)
  : Prop :=
  let '(ds, ident, args) := m in
  exists w1 w2 w3,
    s = hash :: ds ++ w1 ++ equals :: w2 ++ ident ++ w3
          ++ lparen :: args ++ rparen :: semicolon :: rest
    /\ ds <> [] /\ all uni_digit ds
    /\ all uni_space w1 /\ all uni_space w2
    /\ ident <> [] /\ all uni_word ident
    /\ all uni_space w3
    /\ (forall a b, args <> a ++ rparen :: semicolon :: b).

(** A reference  #<digits>  at the head of [s], with all the digits that
    follow the hash sign. *)
Definition ref_shape (s : ustr) (ds : ustr) (rest : ustr) : Prop :=
  s = hash :: ds ++ rest
  /\ ds <> [] /\ all uni_digit ds /\ stops uni_digit rest.

(** The head of an argument text of the shape  '<gid>' , '<name>'  . *)
Definition two_literals_at (s : ustr) (m : ustr * ustr) (rest : ustr)
  : Prop :=
  let '(gid, nm) := m in
  exists w1 w2,
    s = quote :: gid ++ quote :: w1 ++ comma :: w2
          ++ quote :: nm ++ quote :: rest
    /\ all not_quote gid /\ all uni_space w1 /\ all uni_space w2
    /\ all not_quote nm.

(** The three groups of a match of the record pattern. *)
Definition shape_of (g : groups) : ustr * ustr * ustr :=
  (group 1 g, group 2 g, group 3 g).

(** The raw record the selector makes of a record shape. *)
Definition record_of (m : ustr * ustr * ustr) : RawRecord :=
  let '(ds, ident, args) := m in (decimal_value ds, upper ident, args).

(** The digits of a record shape are within the limit of [int]. *)
Definition id_fits (m : ustr * ustr * ustr) : bool :=
  negb (exceeds (length (fst (fst m)))).

Definition of_interest (rec : RawRecord) : bool :=
  set_mem (snd (fst rec)) IFC_TYPES_OF_INTEREST.

(** A numeral within the limit of [int]. *)
Definition fits (ds : ustr) : bool := negb (exceeds (length ds)).

(** The two literals the entity branch reads at the head of an argument
    text: (global identifier, name), both empty when the pattern does not
    match. *)
Definition leading_literals (args_str : ustr) : ustr * ustr :=
  match match_ entity_args_pattern args_str with
  | Some (g, _) => (group 1 g, group 2 g)
  | None => ([], [])
  end.

(** The lines the parser processes without raising: [int] is called on
    the references of a relation line that has two of them or more. *)
Definition line_fits (line : RawRecord) : bool :=
  let '(ent_id, ent_type, args_str) := line in
  if is_entity_type ent_type then true
  else if is_relation_type ent_type then
    let nums := findall ref_pattern args_str in
    if Nat.leb 2 (length nums) then forallb fits nums else true
  else true.

(** What a line that raises nothing does to the state of the parser. *)
Definition value_step (st : parsed) (line : RawRecord) : parsed :=
  let '(ent_id, ent_type, args_str) := line in
  if is_entity_type ent_type then
    (dict_set Z.eqb ent_id
       (mkEntity ent_id ent_type (snd (leading_literals args_str))
          (fst (leading_literals args_str)))
       (fst st),
     snd st)
  else if is_relation_type ent_type then
    match findall ref_pattern args_str with
    | n0 :: n1 :: rest =>
        (fst st,
         snd st
         ++ [mkRelationship ent_id ent_type (decimal_value n0)
               (map decimal_value (n1 :: rest))])
    | _ => st
    end
  else st.

(** The single-quoted string literals of a text, in order of appearance:
    [inside] holds the characters read since an opening quote, if any. *)
Fixpoint literals_from (inside : option ustr) (s : ustr) : list ustr :=
  match s with
  | [] => []
  | c :: t =>
      match inside with
      | None =>
          if N.eqb c quote then literals_from (Some []) t
          else literals_from None t
      | Some acc =>
          if N.eqb c quote then acc :: literals_from None t
          else literals_from (Some (acc ++ [c])) t
      end
  end.

Definition quoted_literals (s : ustr) : list ustr := literals_from None s.

(** The entity extraction rule as the specification words it: the first
    two single-quoted literals found anywhere in the argument text are the
    global identifier and the name of the entity the parser stores. *)
Definition takes_first_two_literals (ent_id : Z) (ent_type args_str : ustr)
  : Prop :=
  forall gid nm more,
    quoted_literals args_str = gid :: nm :: more ->
    exists st,
      parse_selected_ifc_lines [(ent_id, ent_type, args_str)] = Ok st
      /\ dict_get Z.eqb ent_id (fst st)
         = Some (mkEntity ent_id ent_type nm gid).

End WithRuntime.

(** The left-to-right reading of a text, as in the first part. *)
Inductive scan_spec {A : Type} (M : ustr -> A -> ustr -> Prop)
  : ustr -> list A -> Prop :=
| scan_end : scan_spec M [] []
| scan_skip (c : codepoint) (s : ustr) (l : list A) :
    (forall a rest, ~ M (c :: s) a rest) ->
    scan_spec M s l ->
    scan_spec M (c :: s) l
| scan_hit (s : ustr) (a : A) (rest : ustr) (l : list A) :
    M s a rest ->
    scan_spec M rest l ->
    scan_spec M s (a :: l).

End Unicode.

(* ------------------------------------------------------------------ *)
(** ** Two runtimes *)
(* ------------------------------------------------------------------ *)

(** Turns a goal on the boolean tests of code points into arithmetic. *)
Ltac by_ranges :=
  unfold ascii_space, ascii_digit, ascii_word, ascii_upper, in_range in *;
  repeat match goal with
         | |- _ = false => apply Bool.not_true_is_false; intro
         | H : _ = false |- _ => apply Bool.not_true_iff_false in H
         end;
  rewrite ?Bool.orb_true_iff, ?Bool.andb_true_iff, ?N.leb_le, ?N.eqb_eq
    in *;
  lia.

(** The interpreter restricted to ASCII text, with the default limit of
    CPython on the digits of a numeral. *)
Definition ascii_runtime : Runtime := {|
  uni_space := ascii_space;
  uni_digit := ascii_digit;
  uni_word := ascii_word;
  uni_decimal := fun c => Z.of_N c - 48;
  uni_upper := fun c => [ascii_upper c];
  int_max_str_digits := 4300;
  uni_space_ascii := fun c _ => eq_refl;
  uni_digit_ascii := fun c _ => eq_refl;
  uni_word_ascii := fun c _ => eq_refl;
  uni_decimal_ascii := fun c _ => eq_refl;
  uni_decimal_range := ltac:(intros c H; by_ranges);
  uni_upper_ascii := fun c _ => eq_refl;
  uni_space_not_word := ltac:(intros c H; by_ranges);
  uni_digit_word := ltac:(intros c H; by_ranges)
|}.

(** Some characters beyond ASCII, as the Unicode character database has
    them: the no-break space U+00A0 is white space;  the fullwidth digits
    U+FF10 to U+FF19 are decimal digits;  the dotless i U+0131, the long
    s U+017F and the sharp s U+00DF are word characters, whose upper-case
    mappings are I, S and SS. *)
Definition fullwidth_digit (c : codepoint) : bool :=
  in_range 65296%N 65305%N c.

Definition sample_letter (c : codepoint) : bool :=
  (N.eqb c 305 || N.eqb c 383 || N.eqb c 223)%N%bool.

Definition sample_upper (c : codepoint) : ustr :=
  if N.eqb c 305%N then [73%N]
  else if N.eqb c 383%N then [83%N]
  else if N.eqb c 223%N then [83%N; 83%N]
  else [ascii_upper c].

Definition sample_runtime : Runtime := {|
  uni_space := fun c => (ascii_space c || N.eqb c 160%N)%bool;
  uni_digit := fun c => (ascii_digit c || fullwidth_digit c)%bool;
  uni_word :=
    fun c => (ascii_word c || fullwidth_digit c || sample_letter c)%bool;
  uni_decimal :=
    fun c => if fullwidth_digit c then Z.of_N c - 65296 else Z.of_N c - 48;
  uni_upper := sample_upper;
  int_max_str_digits := 4300;
  uni_space_ascii :=
    ltac:(intros c H; cbv beta;
          replace (N.eqb c 160%N) with false
            by (symmetry; apply N.eqb_neq; lia);
          apply Bool.orb_false_r);
  uni_digit_ascii :=
    ltac:(intros c H; cbv beta;
          replace (fullwidth_digit c) with false
            by (symmetry; unfold fullwidth_digit; by_ranges);
          apply Bool.orb_false_r);
  uni_word_ascii :=
    ltac:(intros c H; cbv beta;
          replace (fullwidth_digit c) with false
            by (symmetry; unfold fullwidth_digit; by_ranges);
          replace (sample_letter c) with false
            by (symmetry; unfold sample_letter; by_ranges);
          rewrite !Bool.orb_false_r; reflexivity);
  uni_decimal_ascii :=
    ltac:(intros c H; cbv beta;
          replace (fullwidth_digit c) with false
            by (symmetry; unfold fullwidth_digit; by_ranges);
          reflexivity);
  uni_decimal_range :=
    ltac:(intros c H; cbv beta in *;
          destruct (fullwidth_digit c) eqn:E;
          unfold fullwidth_digit in *;
          [| rewrite Bool.orb_false_r in H]; by_ranges);
  uni_upper_ascii :=
    ltac:(intros c H; unfold sample_upper;
          repeat match goal with
                 | |- context [N.eqb c ?n] =>
                     replace (N.eqb c n) with false
                       by (symmetry; apply N.eqb_neq; lia)
                 end;
          reflexivity);
  uni_space_not_word :=
    ltac:(intros c H; cbv beta in *;
          unfold fullwidth_digit, sample_letter; by_ranges);
  uni_digit_word :=
    ltac:(intros c H; cbv beta in *;
          unfold fullwidth_digit, sample_letter in *; by_ranges)
|}.

(** ** Sample texts *)

(** A numeral of 4301 digits, one more than the default limit. *)
Definition long_numeral : ustr := repeat 49%N 4301.

(** The record  #11...1=IFCWALL();  with that numeral as its id. *)
Definition long_id_text : ustr :=
  Unicode.hash :: long_numeral ++ ulit "=IFCWALL();".

(** A relation line whose second reference is that numeral. *)
Definition long_reference_line : Unicode.RawRecord :=
  (30, ulit "IFCRELAGGREGATES",
   ulit "#10,#" ++ long_numeral).




(** The argument text  'G1' , 'Main'  with a no-break space before the
    comma, and the text  #1,#2  with fullwidth digits. *)
Definition nbsp_args : ustr :=
  ulit "'G1'" ++ [160%N] ++ ulit ",'Main'".

Definition fullwidth_refs : ustr :=
  [Unicode.hash; 65297%N; Unicode.comma; Unicode.hash; 65298%N].

(** The sample lines of the first part, over code points. *)
Definition u_sample_wall_line : Unicode.RawRecord :=
  (5, ulit "IFCWALL", ulit "'w','Wall 5',$").


Definition u_sample_relation_line : Unicode.RawRecord :=
  (30, ulit "IFCRELAGGREGATES", ulit "'X',$,$,$,#10,(#20,#21)").

(** The record  #7 = <dotless i>fcwall('G1'<no-break space>,'Main');
    with a fullwidth 7 as its id. *)
Definition sample_unicode_text : ustr :=
  [Unicode.hash; 65303%N] ++ ulit " = " ++ [305%N] ++ ulit "fcwall("
  ++ nbsp_args ++ ulit ");".

(* ------------------------------------------------------------------ *)
(** ** The first part, as the second part on ASCII text *)
(* ------------------------------------------------------------------ *)

Definition is_ascii (c : ascii) : bool := N.ltb (of_ascii c) 128.

Definition ascii_text (s : str) : Prop := forallb is_ascii s = true.

Definition embed_groups (g : Re.groups) : Unicode.groups :=
  map (fun p => (fst p, embed (snd p))) g.

Definition embed_record (rec : RawRecord) : Unicode.RawRecord :=
  let '(ent_id, ent_type, args_str) := rec in
  (ent_id, embed ent_type, embed args_str).

(** A class of the first part and a class of the second that agree on
    the ASCII characters. *)
Definition agree (cls : ascii -> bool) (cls' : codepoint -> bool) : Prop :=
  forall c, is_ascii c = true -> cls' (of_ascii c) = cls c.

(** A pattern of the first part and the same pattern in the second. *)
Inductive same_regex : Re.regex -> Unicode.regex -> Prop :=
| same_chr (c : ascii) :
    same_regex (Re.Chr c) (Unicode.Chr (of_ascii c))
| same_star (cls : ascii -> bool) (cls' : codepoint -> bool) :
    agree cls cls' -> same_regex (Re.Star cls) (Unicode.Star cls')
| same_plus (cls : ascii -> bool) (cls' : codepoint -> bool) :
    agree cls cls' -> same_regex (Re.Plus cls) (Unicode.Plus cls')
| same_lazy_star (cls : ascii -> bool) (cls' : codepoint -> bool) :
    agree cls cls' -> same_regex (Re.LazyStar cls) (Unicode.LazyStar cls')
| same_group (i : nat) (r : Re.regex) (r' : Unicode.regex) :
    same_regex r r' -> same_regex (Re.Group i r) (Unicode.Group i r')
| same_seq (r1 r2 : Re.regex) (r1' r2' : Unicode.regex) :
    same_regex r1 r1' -> same_regex r2 r2' ->
    same_regex (Re.Seq r1 r2) (Unicode.Seq r1' r2').

Definition embed_entity (e : IfcEntity) : Unicode.IfcEntity :=
  Unicode.mkEntity (id e) (embed (type e)) (embed (name e))
    (embed (global_id e)).

Definition embed_relationship (r : IfcRelationship)
  : Unicode.IfcRelationship :=
  Unicode.mkRelationship (rel_id r) (embed (rel_type r)) (parent_id r)
    (child_ids r).

Definition embed_parsed (st : parsed) : Unicode.parsed :=
  (map (fun item => (fst item, embed_entity (snd item))) (fst st),
   map embed_relationship (snd st)).

(* ================================================================== *)
(** * Basic facts: strings, decimal numerals, loops that append *)
(* ================================================================== *)

Lemma str_eqb_refl (a : str) : str_eqb a a = true.
Proof.
  induction a as [|x a IH]; simpl; [reflexivity|].
  now rewrite Ascii.eqb_refl.
Qed.

Lemma str_eqb_eq (a b : str) : str_eqb a b = true <-> a = b.
Proof.
  split.
  - revert b; induction a as [|x a IH]; intros [|y b]; simpl;
      try discriminate; [reflexivity|].
    intros H; apply andb_true_iff in H as [Hx Hr].
    apply Ascii.eqb_eq in Hx; subst; f_equal; auto.
  - intros ->; apply str_eqb_refl.
Qed.

Lemma str_eqb_neq (a b : str) : str_eqb a b = false <-> a <> b.
Proof.
  rewrite <- str_eqb_eq. destruct (str_eqb a b); split; congruence.
Qed.

Lemma to_int_not_nil (n : Z) :
  Z.to_int n <> Decimal.Pos Decimal.Nil /\
  Z.to_int n <> Decimal.Neg Decimal.Nil.
Proof.
  destruct n as [|p|p]; simpl; split; try discriminate;
    intros [= H]; now apply (DecimalPos.Unsigned.to_uint_nonnil p).
Qed.

(** Two integers with the same decimal numeral are equal. *)
Lemma dec_inj (a b : Z) : dec a = dec b -> a = b.
Proof.
  unfold dec; intros H.
  apply (f_equal string_of_list_ascii) in H.
  rewrite !string_of_list_ascii_of_string in H.
  apply (f_equal NilZero.int_of_string) in H.
  destruct (to_int_not_nil a) as [Ha1 Ha2].
  destruct (to_int_not_nil b) as [Hb1 Hb2].
  rewrite !NilZero.isi in H by assumption.
  injection H as H. now apply DecimalZ.to_int_inj.
Qed.

Lemma inst_inj (a b : Z) : inst a = inst b -> a = b.
Proof.
  unfold inst; intros H. apply app_inv_head in H. now apply dec_inj.
Qed.

(** A loop whose body appends to its accumulator computes a [flat_map]. *)
Lemma fold_left_appends {A B : Type} (step : list B -> A -> list B)
  (f : A -> list B) :
  (forall acc x, step acc x = acc ++ f x) ->
  forall l acc, fold_left step l acc = acc ++ flat_map f l.
Proof.
  intros Hstep l; induction l as [|x l IH]; intros acc; simpl.
  - now rewrite app_nil_r.
  - now rewrite IH, Hstep, <- app_assoc.
Qed.

(* ================================================================== *)
(** * The mapping engine *)
(* ================================================================== *)

Section DictFacts.

Context {K V : Type}.
Variable keq : K -> K -> bool.
Hypothesis keq_eq : forall a b, keq a b = true <-> a = b.

Lemma keq_refl (a : K) : keq a a = true.
Proof. now apply keq_eq. Qed.

Lemma dict_get_In (k : K) (d : dict K V) (v : V) :
  dict_get keq k d = Some v -> In (k, v) d.
Proof.
  induction d as [|[k' v'] d IH]; simpl; [discriminate|].
  destruct (keq k k') eqn:E.
  - apply keq_eq in E; subst. intros [= ->]. now left.
  - intros H; right; auto.
Qed.

Lemma dict_get_None (k : K) (d : dict K V) :
  dict_get keq k d = None <-> ~ In k (keys d).
Proof.
  induction d as [|[k' v'] d IH]; simpl.
  - tauto.
  - destruct (keq k k') eqn:E.
    + apply keq_eq in E; subst. split; [discriminate | tauto].
    + rewrite IH. split; [|tauto].
      intros Hn [Hk | Hin]; [|tauto].
      subst. rewrite keq_refl in E. discriminate.
Qed.

Lemma dict_mem_keys (k : K) (d : dict K V) :
  dict_mem keq k d = true <-> In k (keys d).
Proof.
  unfold dict_mem. destruct (dict_get keq k d) eqn:E.
  - split; [intros _ | reflexivity].
    apply dict_get_In in E. now apply (in_map fst) in E.
  - split; [discriminate|]. intros H. now apply dict_get_None in E.
Qed.

Lemma dict_get_NoDup (k : K) (v : V) (d : dict K V) :
  NoDup (keys d) -> In (k, v) d -> dict_get keq k d = Some v.
Proof.
  induction d as [|[k' v'] d IH]; simpl; [tauto|].
  intros Hnd [Heq | Hin].
  - injection Heq as -> ->. now rewrite keq_refl.
  - inversion Hnd as [|? ? Hnotin Hnd']; subst.
    destruct (keq k k') eqn:E; [|auto].
    apply keq_eq in E; subst. exfalso; apply Hnotin.
    now apply (in_map fst) in Hin.
Qed.

End DictFacts.

Lemma Z_eqb_eq (a b : Z) : Z.eqb a b = true <-> a = b.
Proof. apply Z.eqb_eq. Qed.

(** Zone types and element types are disjoint: the two lookups of
    [classify_ifc_entity] never both succeed. *)
Lemma zone_not_element (t : str) :
  dict_mem str_eqb t IFC_TO_BOT_ZONE = true ->
  dict_mem str_eqb t IFC_TO_BOT_ELEMENT = false.
Proof.
  intros H. apply (dict_mem_keys str_eqb str_eqb_eq) in H.
  simpl in H.
  repeat (destruct H as [<- | H]; [reflexivity|]). destruct H.
Qed.

Lemma zone_element_exclusive (entities : dict Z IfcEntity) (i : Z) :
  (is_zone_id entities i && is_element_id entities i)%bool = false.
Proof.
  unfold is_zone_id, is_element_id.
  destruct (dict_get Z.eqb i entities) as [e|]; [|reflexivity].
  destruct (dict_mem str_eqb (type e) IFC_TO_BOT_ZONE) eqn:E;
    [|reflexivity].
  now rewrite (zone_not_element _ E).
Qed.

Lemma classify_id_Zone (entities : dict Z IfcEntity) (i : Z) :
  classify_id entities i = Zone <-> is_zone_id entities i = true.
Proof.
  unfold classify_id.
  destruct (is_zone_id entities i); [tauto|].
  destruct (is_element_id entities i); split; discriminate.
Qed.

Lemma classify_id_Element (entities : dict Z IfcEntity) (i : Z) :
  classify_id entities i = Element <-> is_element_id entities i = true.
Proof.
  unfold classify_id.
  pose proof (zone_element_exclusive entities i) as X.
  destruct (is_zone_id entities i), (is_element_id entities i);
    simpl in X; split; congruence.
Qed.

Lemma entity_step_appends (acc : list Triple) (item : Z * IfcEntity) :
  entity_step acc item = acc ++ entity_triples item.
Proof.
  unfold entity_triples, entity_step. destruct item as [k e].
  destruct (classify_ifc_entity e); [|now rewrite app_nil_r].
  destruct (name e); simpl; [reflexivity|].
  now rewrite <- app_assoc.
Qed.

Lemma aggregates_step_appends entities p pc acc pair :
  aggregates_step entities p pc acc pair =
  acc ++ aggregates_step entities p pc [] pair.
Proof.
  unfold aggregates_step. destruct pair as [c cc].
  repeat (match goal with |- context [if ?b then _ else _] =>
            destruct b end; simpl; try reflexivity).
  now rewrite app_nil_r.
Qed.

Lemma contained_step_appends entities p pc acc pair :
  contained_step entities p pc acc pair =
  acc ++ contained_step entities p pc [] pair.
Proof.
  unfold contained_step. destruct pair as [c cc].
  destruct (_ && _)%bool; simpl; [reflexivity | now rewrite app_nil_r].
Qed.

Lemma symmetric_step_appends entities prop cs ccs acc :
  symmetric_step entities prop cs ccs acc =
  acc ++ symmetric_step entities prop cs ccs [].
Proof.
  unfold symmetric_step.
  destruct (Nat.eqb (length cs) 2); [|now rewrite app_nil_r].
  destruct cs as [|a [|b [|? ?]]]; try now rewrite app_nil_r.
  destruct ccs as [|ac [|bc [|? ?]]]; try now rewrite app_nil_r.
  destruct (_ && _)%bool; simpl; [|now rewrite app_nil_r].
  now rewrite <- app_assoc.
Qed.

Lemma relationship_step_appends entities acc rel :
  relationship_step entities acc rel =
  acc ++ relationship_triples entities rel.
Proof.
  unfold relationship_triples, relationship_step.
  repeat (match goal with |- context [if str_eqb ?a ?b then _ else _] =>
            destruct (str_eqb a b) end).
  - rewrite !(fold_left_appends _ _ (aggregates_step_appends _ _ _)).
    reflexivity.
  - rewrite !(fold_left_appends _ _ (contained_step_appends _ _ _)).
    reflexivity.
  - apply symmetric_step_appends.
  - apply symmetric_step_appends.
  - now rewrite app_nil_r.
Qed.

(** The result of the engine: the contributions of the dictionary items,
    in dictionary order, then those of the relationships, in order. *)
Lemma ifc_to_bot_triples_eq entities relationships :
  ifc_to_bot_triples entities relationships =
  flat_map entity_triples entities
  ++ flat_map (relationship_triples entities) relationships.
Proof.
  unfold ifc_to_bot_triples.
  rewrite (fold_left_appends _ _ (relationship_step_appends entities)).
  now rewrite (fold_left_appends _ _ entity_step_appends).
Qed.

Lemma ifc_to_bot_triples_split entities rels1 rel rels2 :
  ifc_to_bot_triples entities (rels1 ++ rel :: rels2) =
  ifc_to_bot_triples entities rels1
  ++ relationship_triples entities rel
  ++ flat_map (relationship_triples entities) rels2.
Proof.
  rewrite !ifc_to_bot_triples_eq, flat_map_app. simpl.
  now rewrite <- !app_assoc.
Qed.

Lemma flat_map_combine_inst {B : Type} (F : Z * str -> list B)
  (cs : list Z) :
  flat_map F (combine cs (map inst cs)) =
  flat_map (fun c => F (c, inst c)) cs.
Proof.
  induction cs as [|c cs IH]; simpl; [reflexivity|]. now rewrite IH.
Qed.

Lemma aggregates_pair_rule entities p c :
  aggregates_step entities p (inst p) [] (c, inst c) =
  aggregation_rule entities p c.
Proof.
  unfold aggregates_step, aggregation_rule, classify_id.
  pose proof (zone_element_exclusive entities p) as Xp.
  pose proof (zone_element_exclusive entities c) as Xc.
  destruct (is_zone_id entities p), (is_element_id entities p),
    (is_zone_id entities c), (is_element_id entities c);
    simpl in *; try discriminate; reflexivity.
Qed.

Lemma aggregates_triples entities rel :
  rel_type rel = IFCRELAGGREGATES ->
  relationship_triples entities rel =
  flat_map (aggregation_rule entities (parent_id rel)) (child_ids rel).
Proof.
  intros Ht. unfold relationship_triples, relationship_step.
  rewrite Ht, str_eqb_refl.
  rewrite (fold_left_appends _ _ (aggregates_step_appends _ _ _)).
  simpl. rewrite flat_map_combine_inst.
  apply flat_map_ext. intros c. apply aggregates_pair_rule.
Qed.

Lemma symmetric_triples entities rel prop :
  (rel_type rel = IFCRELCONNECTSELEMENTS /\ prop = bot_adjacentElement) \/
  (rel_type rel = IFCRELINTERFERESELEMENTS /\
   prop = bot_intersectingElement) ->
  relationship_triples entities rel =
  symmetric_rule entities prop (child_ids rel).
Proof.
  intros [[Ht ->] | [Ht ->]];
    unfold relationship_triples, relationship_step; rewrite Ht;
    cbn [str_eqb]; vm_compute str_eqb;
    unfold symmetric_step, symmetric_rule;
    destruct (child_ids rel) as [|a [|b [|? ?]]]; simpl; try reflexivity;
    destruct (_ && _)%bool; reflexivity.
Qed.

(** C1.  Processing a relationship of type IFCRELAGGREGATES adds to the
    result, for each child reference in order, what the aggregation rule
    gives for the pair (parent, child): one contains-zone triple from
    parent to child when both classify as zones, one has-sub-element triple
    when both classify as elements, and nothing in every other combination.
    Classifying as a zone (an element) is the engine's test [is_zone_id]
    ([is_element_id]), and no id passes both. *)
Theorem C1_aggregation_rule :
  forall (entities : dict Z IfcEntity) (rels1 : list IfcRelationship)
         (rel : IfcRelationship) (rels2 : list IfcRelationship),
    rel_type rel = IFCRELAGGREGATES ->
    ifc_to_bot_triples entities (rels1 ++ rel :: rels2) =
      ifc_to_bot_triples entities rels1
      ++ flat_map (aggregation_rule entities (parent_id rel)) (child_ids rel)
      ++ flat_map (relationship_triples entities) rels2
    /\ (forall i, classify_id entities i = Zone <->
                  is_zone_id entities i = true)
    /\ (forall i, classify_id entities i = Element <->
                  is_element_id entities i = true).
Proof.
  intros entities rels1 rel rels2 Ht. split; [|split].
  - rewrite ifc_to_bot_triples_split. now rewrite (aggregates_triples _ _ Ht).
  - apply classify_id_Zone.
  - apply classify_id_Element.
Qed.

Lemma C1_aggregation_rule_witness :
  rel_type sample_aggregation = IFCRELAGGREGATES /\
  ifc_to_bot_triples sample_entities ([] ++ sample_aggregation :: []) =
    ifc_to_bot_triples sample_entities []
    ++ flat_map (aggregation_rule sample_entities
                   (parent_id sample_aggregation))
         (child_ids sample_aggregation)
    ++ flat_map (relationship_triples sample_entities) [].
Proof.
  split; [reflexivity|].
  apply (C1_aggregation_rule sample_entities [] sample_aggregation []).
  reflexivity.
Defined.

(** C2.  Processing a relationship of type IFCRELCONNECTSELEMENTS
    (IFCRELINTERFERESELEMENTS) adds exactly the two triples a adjacent b
    and b adjacent a (a intersecting b and b intersecting a) when its
    children are exactly two ids a, b that both classify as elements, and
    adds nothing when the number of children is not 2 or some child is not
    an element. *)
Theorem C2_symmetric_relations :
  forall (entities : dict Z IfcEntity) (rels1 : list IfcRelationship)
         (rel : IfcRelationship) (rels2 : list IfcRelationship)
         (prop : str),
    (rel_type rel = IFCRELCONNECTSELEMENTS /\ prop = bot_adjacentElement) \/
    (rel_type rel = IFCRELINTERFERESELEMENTS /\
     prop = bot_intersectingElement) ->
    ifc_to_bot_triples entities (rels1 ++ rel :: rels2) =
      ifc_to_bot_triples entities rels1
      ++ relationship_triples entities rel
      ++ flat_map (relationship_triples entities) rels2
    /\ (forall a b,
          child_ids rel = [a; b] ->
          is_element_id entities a = true ->
          is_element_id entities b = true ->
          relationship_triples entities rel =
            [(inst a, prop, inst b); (inst b, prop, inst a)])
    /\ (length (child_ids rel) <> 2%nat ->
        relationship_triples entities rel = [])
    /\ (forall c,
          In c (child_ids rel) ->
          is_element_id entities c = false ->
          relationship_triples entities rel = []).
Proof.
  intros entities rels1 rel rels2 prop Ht.
  split; [apply ifc_to_bot_triples_split|].
  rewrite (symmetric_triples entities rel prop Ht).
  unfold symmetric_rule. repeat split.
  - intros a b -> Ha Hb. now rewrite Ha, Hb.
  - intros Hlen.
    destruct (child_ids rel) as [|a [|b [|? ?]]]; simpl in *;
      try reflexivity. congruence.
  - intros c Hin Hc.
    destruct (child_ids rel) as [|a [|b [|? ?]]]; simpl in *;
      try reflexivity.
    destruct Hin as [<- | [<- | []]]; rewrite Hc;
      [reflexivity | now rewrite andb_false_r].
Qed.

Lemma C2_symmetric_relations_witness :
  relationship_triples sample_entities sample_connection =
    [(inst 5, bot_adjacentElement, inst 6);
     (inst 6, bot_adjacentElement, inst 5)].
Proof.
  refine (proj1 (proj2 (C2_symmetric_relations sample_entities []
            sample_connection [] bot_adjacentElement _)) 5 6 _ _ _).
  - left. split; reflexivity.
  - reflexivity.
  - reflexivity.
  - reflexivity.
Defined.

(** Every triple a relationship contributes links two classified ids by
    one of the five relationship predicates. *)
Lemma relationship_triples_shape entities rel t :
  In t (relationship_triples entities rel) ->
  exists a b p,
    t = (inst a, p, inst b) /\ In p relationship_predicates /\
    classified entities a = true /\ classified entities b = true.
Proof.
  unfold relationship_triples, relationship_step, classified.
  repeat (match goal with |- context [if str_eqb ?a ?b then _ else _] =>
            destruct (str_eqb a b) end).
  - rewrite (fold_left_appends _ _ (aggregates_step_appends _ _ _)).
    simpl. rewrite flat_map_combine_inst. intros H.
    apply in_flat_map in H as (c & _ & H). unfold aggregates_step in H.
    destruct (is_zone_id entities (parent_id rel) && is_zone_id entities c)%bool
      eqn:Ez.
    + apply andb_true_iff in Ez as [Ep Ec].
      destruct H as [<- | []]. exists (parent_id rel), c, bot_containsZone.
      rewrite Ep, Ec. simpl. tauto.
    + destruct (is_element_id entities (parent_id rel)
                && is_element_id entities c)%bool eqn:Ee; [|destruct H].
      apply andb_true_iff in Ee as [Ep Ec].
      destruct H as [<- | []]. exists (parent_id rel), c, bot_hasSubElement.
      rewrite Ep, Ec, !orb_true_r. simpl. tauto.
  - rewrite (fold_left_appends _ _ (contained_step_appends _ _ _)).
    simpl. rewrite flat_map_combine_inst. intros H.
    apply in_flat_map in H as (c & _ & H). unfold contained_step in H.
    destruct (is_zone_id entities (parent_id rel)
              && is_element_id entities c)%bool eqn:Ez; [|destruct H].
    apply andb_true_iff in Ez as [Ep Ec].
    destruct H as [<- | []]. exists (parent_id rel), c, bot_containsElement.
    rewrite Ep, Ec, !orb_true_r. simpl. tauto.
  - unfold symmetric_step.
    destruct (child_ids rel) as [|a [|b [|? ?]]]; simpl; try tauto.
    destruct (is_element_id entities a && is_element_id entities b)%bool
      eqn:Ee; [|simpl; tauto].
    apply andb_true_iff in Ee as [Ea Eb].
    intros [<- | [<- | []]];
      [exists a, b, bot_adjacentElement | exists b, a, bot_adjacentElement];
      rewrite Ea, Eb, !orb_true_r; simpl; tauto.
  - unfold symmetric_step.
    destruct (child_ids rel) as [|a [|b [|? ?]]]; simpl; try tauto.
    destruct (is_element_id entities a && is_element_id entities b)%bool
      eqn:Ee; [|simpl; tauto].
    apply andb_true_iff in Ee as [Ea Eb].
    intros [<- | [<- | []]];
      [exists a, b, bot_intersectingElement
      | exists b, a, bot_intersectingElement];
      rewrite Ea, Eb, !orb_true_r; simpl; tauto.
  - intros [].
Qed.

Lemma classified_present entities i :
  classified entities i = true -> dict_get Z.eqb i entities <> None.
Proof.
  unfold classified, is_zone_id, is_element_id.
  destruct (dict_get Z.eqb i entities); [discriminate|]. discriminate.
Qed.


(** What one dictionary item contributes. *)
Lemma entity_triples_cases k e :
  entity_triples (k, e) =
  match classify_ifc_entity e with
  | None => []
  | Some cls =>
      (inst k, rdf_type, cls)
      :: match name e with
         | [] => []
         | _ :: _ => [(inst k, rdfs_label, quoted (escape_quotes (name e)))]
         end
  end.
Proof.
  unfold entity_triples, entity_step.
  destruct (classify_ifc_entity e); [|reflexivity].
  destruct (name e); reflexivity.
Qed.

Lemma about_relationships k p entities rels :
  ~ In p relationship_predicates ->
  filter (about k p) (flat_map (relationship_triples entities) rels) = [].
Proof.
  intros Hp.
  induction rels as [|rel rels IH]; simpl; [reflexivity|].
  rewrite filter_app, IH, app_nil_r.
  assert (H : forall t, In t (relationship_triples entities rel) ->
                        about k p t = false).
  { intros t Ht. apply relationship_triples_shape in Ht
      as (a & b & q & -> & Hq & _).
    unfold about; simpl. apply andb_false_iff; right.
    apply str_eqb_neq. intros <-. contradiction. }
  induction (relationship_triples entities rel) as [|t l IHl];
    simpl; [reflexivity|].
  rewrite (H t (or_introl eq_refl)). apply IHl.
  intros t' Ht'. apply H. now right.
Qed.

Lemma about_other_entity k p k' e :
  k' <> k -> filter (about k p) (entity_triples (k', e)) = [].
Proof.
  intros Hk. rewrite entity_triples_cases.
  assert (E : str_eqb (inst k') (inst k) = false).
  { apply str_eqb_neq. intros H. now apply inst_inj in H. }
  assert (A : forall q o, about k p (inst k', q, o) = false).
  { intros q o. unfold about, subject. cbn [fst]. now rewrite E. }
  destruct (classify_ifc_entity e); [|reflexivity].
  destruct (name e); cbn [filter]; now rewrite !A.
Qed.

Lemma about_absent k p entities :
  ~ In k (keys entities) ->
  filter (about k p) (flat_map entity_triples entities) = [].
Proof.
  unfold keys.
  induction entities as [|[k' e'] d IH]; cbn [flat_map map fst In];
    [reflexivity|].
  intros Hn. rewrite filter_app, IH by tauto.
  rewrite about_other_entity; [reflexivity|]. intros ->. tauto.
Qed.

Lemma about_entities k p e entities :
  NoDup (keys entities) -> In (k, e) entities ->
  filter (about k p) (flat_map entity_triples entities) =
  filter (about k p) (entity_triples (k, e)).
Proof.
  unfold keys.
  induction entities as [|[k' e'] d IH]; cbn [flat_map map fst In];
    [tauto|].
  intros Hnd Hin. inversion Hnd as [|? ? Hnotin Hnd']; subst.
  rewrite filter_app. destruct Hin as [[= -> ->] | Hin].
  - now rewrite about_absent, app_nil_r.
  - rewrite about_other_entity.
    + now apply IH.
    + intros ->. apply Hnotin. now apply (in_map fst) in Hin.
Qed.


Lemma rdf_type_not_relationship : ~ In rdf_type relationship_predicates.
Proof. simpl. intros H. repeat (destruct H as [H | H]; [discriminate|]). exact H. Qed.

Lemma rdfs_label_not_relationship : ~ In rdfs_label relationship_predicates.
Proof. simpl. intros H. repeat (destruct H as [H | H]; [discriminate|]). exact H. Qed.

Lemma about_self k p o : about k p (inst k, p, o) = true.
Proof. unfold about, subject, predicate. cbn [fst snd]. now rewrite !str_eqb_refl. Qed.

Lemma about_other_predicate k p q o :
  q <> p -> about k p (inst k, q, o) = false.
Proof.
  intros H. unfold about, subject, predicate. cbn [fst snd].
  apply andb_false_iff; right. now apply str_eqb_neq.
Qed.




(* ================================================================== *)
(** * The serializer *)
(* ================================================================== *)

Lemma first_appearances_In (l : list str) (x : str) :
  In x (first_appearances l) <-> In x l.
Proof.
  induction l as [|a l IH]; simpl; [tauto|].
  rewrite filter_In, IH, negb_true_iff, str_eqb_neq.
  destruct (str_dec a x) as [-> | Hne]; [tauto|].
  split; [tauto|]. intros [H | H]; [tauto|]. right. split; congruence.
Qed.

Lemma first_appearances_NoDup (l : list str) : NoDup (first_appearances l).
Proof.
  induction l as [|a l IH]; simpl; constructor.
  - rewrite filter_In, negb_true_iff, str_eqb_neq. tauto.
  - now apply NoDup_filter.
Qed.

Lemma existsb_str_In (x : str) (l : list str) :
  existsb (str_eqb x) l = true <-> In x l.
Proof.
  rewrite existsb_exists. split.
  - intros (y & Hy & E). apply str_eqb_eq in E. now subst.
  - intros H. exists x. split; [assumption | apply str_eqb_refl].
Qed.

Lemma existsb_first_appearances (x : str) (l : list str) :
  existsb (str_eqb x) (first_appearances l) = existsb (str_eqb x) l.
Proof.
  apply eq_true_iff_eq. rewrite !existsb_str_In.
  apply first_appearances_In.
Qed.

Lemma first_appearances_snoc (l : list str) (x : str) :
  first_appearances (l ++ [x]) =
  if existsb (str_eqb x) l then first_appearances l
  else first_appearances l ++ [x].
Proof.
  induction l as [|a l IH]; simpl; [reflexivity|].
  rewrite IH. destruct (str_eqb x a) eqn:E; simpl.
  - apply str_eqb_eq in E; subst.
    destruct (existsb (str_eqb a) l); [reflexivity|].
    rewrite filter_app. simpl. rewrite str_eqb_refl. simpl.
    now rewrite app_nil_r.
  - destruct (existsb (str_eqb x) l); [reflexivity|].
    rewrite filter_app. simpl. rewrite E. reflexivity.
Qed.

Lemma pairs_of_snoc (s : str) (l : list Triple) (t : Triple) :
  pairs_of s (l ++ [t]) =
  pairs_of s l
  ++ (if str_eqb (subject t) s then [(predicate t, object t)] else []).
Proof.
  unfold pairs_of. rewrite filter_app, map_app. simpl.
  now destruct (str_eqb (subject t) s).
Qed.

Lemma pairs_of_absent (s : str) (l : list Triple) :
  ~ In s (map subject l) -> pairs_of s l = [].
Proof.
  unfold pairs_of. induction l as [|t l IH]; simpl; [reflexivity|].
  intros H. destruct (str_eqb (subject t) s) eqn:E.
  - apply str_eqb_eq in E. tauto.
  - apply IH. tauto.
Qed.

Lemma dict_get_tabulate {V : Type} (f : str -> V) (ks : list str)
  (s : str) :
  dict_get str_eqb s (map (fun k => (k, f k)) ks) =
  if existsb (str_eqb s) ks then Some (f s) else None.
Proof.
  induction ks as [|k ks IH]; simpl; [reflexivity|].
  destruct (str_eqb s k) eqn:E; simpl; [|assumption].
  apply str_eqb_eq in E. now subst.
Qed.

Lemma dict_set_tabulate_absent {V : Type} (f g : str -> V)
  (ks : list str) (s : str) (v : V) :
  ~ In s ks ->
  (forall k, k <> s -> g k = f k) ->
  g s = v ->
  dict_set str_eqb s v (map (fun k => (k, f k)) ks) =
  map (fun k => (k, g k)) (ks ++ [s]).
Proof.
  intros Hs Hg Hv. induction ks as [|k ks IH]; simpl.
  - now rewrite Hv.
  - destruct (str_eqb s k) eqn:E.
    + apply str_eqb_eq in E. subst. simpl in Hs. tauto.
    + rewrite IH by (simpl in Hs; tauto). rewrite Hg; [reflexivity|].
      apply str_eqb_neq in E. congruence.
Qed.

Lemma dict_set_tabulate_present {V : Type} (f g : str -> V)
  (ks : list str) (s : str) (v : V) :
  NoDup ks -> In s ks ->
  (forall k, k <> s -> g k = f k) ->
  g s = v ->
  dict_set str_eqb s v (map (fun k => (k, f k)) ks) =
  map (fun k => (k, g k)) ks.
Proof.
  intros Hnd Hs Hg Hv. induction ks as [|k ks IH]; simpl; [destruct Hs|].
  inversion Hnd as [|? ? Hnotin Hnd']; subst.
  destruct (str_eqb s k) eqn:E.
  - apply str_eqb_eq in E. subst k. f_equal.
    apply map_ext_in. intros k Hk. rewrite Hg; [reflexivity|].
    intros ->. contradiction.
  - apply str_eqb_neq in E. destruct Hs as [-> | Hs]; [congruence|].
    rewrite IH by assumption. rewrite Hg; [reflexivity | congruence].
Qed.

Lemma grouped_snoc (l : list Triple) (t : Triple) :
  grouped (l ++ [t]) = by_subject_step (grouped l) t.
Proof.
  destruct t as [[s p] o]. unfold by_subject_step, grouped.
  rewrite map_app. cbn [map subject fst].
  rewrite first_appearances_snoc, dict_get_tabulate.
  rewrite existsb_first_appearances.
  destruct (existsb (str_eqb s) (map subject l)) eqn:E.
  - symmetry. apply dict_set_tabulate_present.
    + apply first_appearances_NoDup.
    + apply first_appearances_In. now apply existsb_str_In.
    + intros k Hk. rewrite pairs_of_snoc. unfold subject; cbn [fst].
      destruct (str_eqb s k) eqn:Ek; [|now rewrite app_nil_r].
      apply str_eqb_eq in Ek. congruence.
    + rewrite pairs_of_snoc. unfold subject, predicate, object; cbn [fst snd].
      now rewrite str_eqb_refl.
  - assert (Hs : ~ In s (map subject l)).
    { intros H. apply existsb_str_In in H. congruence. }
    symmetry. apply dict_set_tabulate_absent.
    + now rewrite first_appearances_In.
    + intros k Hk. rewrite pairs_of_snoc. unfold subject; cbn [fst].
      destruct (str_eqb s k) eqn:Ek; [|now rewrite app_nil_r].
      apply str_eqb_eq in Ek. congruence.
    + rewrite pairs_of_snoc. unfold subject, predicate, object; cbn [fst snd].
      now rewrite str_eqb_refl, (pairs_of_absent _ _ Hs).
Qed.

(** The first loop of [triples_to_ttl] computes the grouping. *)
Lemma by_subject_grouped (triples : list Triple) :
  fold_left by_subject_step triples [] = grouped triples.
Proof.
  induction triples as [|t l IH] using rev_ind; [reflexivity|].
  now rewrite fold_left_app, grouped_snoc, IH.
Qed.

Lemma prop_loop (props rest : list (str * str)) (i : nat)
  (acc : list str) :
  (i + length rest = length props)%nat ->
  fold_left (prop_step props) (combine (seq i (length rest)) rest) acc =
  acc ++ property_lines rest.
Proof.
  revert i acc. induction rest as [|[p o] rest IH]; intros i acc Hlen.
  - simpl. now rewrite app_nil_r.
  - cbn [length seq combine fold_left].
    rewrite IH by (simpl in Hlen; lia).
    unfold prop_step. simpl in Hlen.
    destruct rest as [|q rest].
    + simpl in Hlen. assert (E : (Z.of_nat i <? Z.of_nat (length props) - 1) = false)
        by (apply Z.ltb_ge; lia).
      rewrite E. simpl. now rewrite <- app_assoc.
    + simpl in Hlen. assert (E : (Z.of_nat i <? Z.of_nat (length props) - 1) = true)
        by (apply Z.ltb_lt; lia).
      rewrite E. cbn [property_lines]. destruct q. now rewrite <- app_assoc.
Qed.

Lemma stanza_step_appends (lines : list str)
  (item : str * list (str * str)) :
  stanza_step lines item = lines ++ stanza (fst item) (snd item).
Proof.
  destruct item as [s props]. unfold stanza_step, enumerate, stanza.
  rewrite (prop_loop props props 0) by reflexivity.
  cbn [fst snd]. now rewrite <- !app_assoc.
Qed.

Lemma triples_to_ttl_eq (triples : list Triple) :
  triples_to_ttl triples =
  join nl
    (prefix_declarations ++ [lit ""]
     ++ flat_map (fun s => stanza s (pairs_of s triples))
          (first_appearances (map subject triples))).
Proof.
  unfold triples_to_ttl. rewrite by_subject_grouped.
  rewrite (fold_left_appends _ _ stanza_step_appends).
  unfold grouped. f_equal. change prefix_lines with (prefix_declarations ++ [lit ""]).
  rewrite <- app_assoc. f_equal. f_equal.
  induction (first_appearances (map subject triples)) as [|s l IH];
    [reflexivity|].
  cbn [map flat_map fst snd]. now rewrite IH.
Qed.

Lemma pairs_of_count (triples : list Triple) (s p o : str) :
  count_occ pair_dec (pairs_of s triples) (p, o) =
  count_occ triple_dec triples (s, p, o).
Proof.
  unfold pairs_of. induction triples as [|[[s' p'] o'] l IH];
    [reflexivity|].
  cbn [filter subject fst]. destruct (str_eqb s' s) eqn:E.
  - apply str_eqb_eq in E. subst s'. cbn [map predicate object fst snd].
    destruct (pair_dec (p', o') (p, o)) as [[= -> ->] | Hne].
    + rewrite !count_occ_cons_eq by reflexivity. now rewrite IH.
    + rewrite !count_occ_cons_neq by congruence. apply IH.
  - apply str_eqb_neq in E.
    rewrite (count_occ_cons_neq triple_dec) by congruence. apply IH.
Qed.

Lemma property_lines_length (props : list (str * str)) :
  length (property_lines props) = length props.
Proof.
  induction props as [|[p o] [|q rest] IH]; [reflexivity | reflexivity |].
  change (S (length (property_lines (q :: rest))) = S (length (q :: rest))).
  now rewrite IH.
Qed.

Lemma join_lines (ls : list str) :
  join nl (ls ++ [[]]) = flat_map line ls.
Proof.
  induction ls as [|l ls IH]; [reflexivity|].
  cbn [app flat_map]. rewrite <- IH.
  destruct (ls ++ [[]]) as [|x rest] eqn:E.
  - destruct ls; discriminate E.
  - unfold line. cbn [join]. now rewrite <- app_assoc.
Qed.

Lemma stanzas_shift (P : str -> list str) (l : list str) :
  [[]] ++ flat_map (fun s => [s] ++ P s ++ [[]]) l =
  flat_map (fun s => [] :: s :: P s) l ++ [[]].
Proof.
  induction l as [|x l IH]; [reflexivity|].
  cbn [flat_map]. rewrite <- !app_assoc, <- IH. reflexivity.
Qed.

(** The text of the serializer, line by line: every line but the last,
    which is empty, is followed by a line feed. *)
Lemma triples_to_ttl_document (triples : list Triple) :
  triples_to_ttl triples = document triples.
Proof.
  rewrite triples_to_ttl_eq. unfold document, stanza.
  change (lit "") with ([] : str).
  rewrite (stanzas_shift
             (fun s => property_lines (pairs_of s triples))).
  rewrite app_assoc, join_lines, flat_map_app. f_equal.
  induction (first_appearances (map subject triples)) as [|s l IH];
    [reflexivity|].
  cbn [flat_map]. rewrite flat_map_app, IH. reflexivity.
Qed.

(** C9.  The serializer's text is the four namespace-prefix declarations,
    one per line, followed by one stanza per distinct subject, the
    subjects in order of first appearance among the triples; every line
    ends with a line feed.  A stanza is an empty line, the subject on a
    line of its own, and one line per predicate-object pair of the
    subject's triples, in the order of the triples: four spaces, the
    predicate, a space, the object, then a space and a semicolon after
    every pair but the last, a space and a full stop after the last.
    (This is the text of the lines joined by line feeds, the last line
    being empty.)  Nothing is deduplicated: a pair occurs in the stanza
    of its subject as many times as the triple occurs in the input. *)
Theorem C9_serializer_layout :
  forall triples : list Triple,
    triples_to_ttl triples =
      flat_map (fun l => l ++ ["010"%char]) prefix_declarations
      ++ flat_map
           (fun s =>
              ["010"%char] ++ (s ++ ["010"%char])
              ++ flat_map (fun l => l ++ ["010"%char])
                   (property_lines (pairs_of s triples)))
           (first_appearances (map subject triples))
    /\ triples_to_ttl triples = document triples
    /\ triples_to_ttl triples =
         join nl
           (prefix_declarations ++ [lit ""]
            ++ flat_map (fun s => stanza s (pairs_of s triples))
                 (first_appearances (map subject triples)))
    /\ (forall p o,
          property_lines [(p, o)]
          = [lit "    " ++ p ++ lit " " ++ o ++ lit " ."]
          /\ forall q rest,
               property_lines ((p, o) :: q :: rest)
               = (lit "    " ++ p ++ lit " " ++ o ++ lit " ;")
                 :: property_lines (q :: rest))
    /\ length prefix_declarations = 4%nat
    /\ NoDup (first_appearances (map subject triples))
    /\ (forall s, In s (first_appearances (map subject triples)) <->
                  exists t, In t triples /\ subject t = s)
    /\ (forall s p o,
          count_occ pair_dec (pairs_of s triples) (p, o) =
          count_occ triple_dec triples (s, p, o))
    /\ (forall s, length (property_lines (pairs_of s triples)) =
                  length (filter (fun t => str_eqb (subject t) s) triples)).
Proof.
  intros triples.
  split; [exact (triples_to_ttl_document triples)|].
  split; [apply triples_to_ttl_document|].
  split; [apply triples_to_ttl_eq|].
  split; [intros p o; split; [reflexivity | intros [q1 q2] rest; reflexivity]|].
  split; [reflexivity|]. split; [apply first_appearances_NoDup|].
  split; [|split].
  - intros s. rewrite first_appearances_In, in_map_iff.
    split; intros (t & H1 & H2); exists t; tauto.
  - apply pairs_of_count.
  - intros s. rewrite property_lines_length. unfold pairs_of.
    apply length_map.
Qed.

(* ================================================================== *)
(** * The matcher *)
(* ================================================================== *)

Section MatcherFacts.

Context {A : Type}.
Implicit Types (cls : ascii -> bool) (k : str -> option A).

Lemma star_none cls s k :
  star cls s k = None <->
  (forall q rest, s = q ++ rest -> all cls q -> k rest = None).
Proof.
  induction s as [|c t IH]; simpl.
  - split.
    + intros H q rest E _. symmetry in E.
      apply app_eq_nil in E as [-> ->]. exact H.
    + intros H. now apply (H [] []).
  - destruct (cls c) eqn:Ec.
    + destruct (star cls t k) as [a|] eqn:Es.
      * split; [discriminate|]. intros H.
        apply IH. intros q rest E Hq. apply (H (c :: q) rest).
        -- now rewrite E.
        -- unfold all. simpl. now rewrite Ec.
      * split.
        -- intros Hk [|c' q] rest E Hq; simpl in E.
           ++ now subst.
           ++ injection E as <- E. apply (proj1 IH eq_refl q rest E).
              unfold all in *. simpl in Hq.
              now apply andb_true_iff in Hq as [_ Hq].
        -- intros H. now apply (H [] (c :: t)).
    + split.
      * intros Hk [|c' q] rest E Hq; simpl in E.
        -- now subst.
        -- injection E as <- E. unfold all in Hq. simpl in Hq.
           rewrite Ec in Hq. discriminate.
      * intros H. now apply (H [] (c :: t)).
Qed.

(** Greedy repetition succeeds with the longest prefix in the class after
    which the rest of the pattern succeeds. *)
Lemma star_some cls s k a :
  star cls s k = Some a <->
  exists pre rest,
    s = pre ++ rest /\ all cls pre /\ k rest = Some a /\
    (forall q rest', rest = q ++ rest' -> q <> [] -> all cls q ->
                     k rest' = None).
Proof.
  induction s as [|c t IH]; simpl.
  - split.
    + intros H. exists [], []. repeat split; try assumption.
      intros q rest' E Hq. symmetry in E.
      apply app_eq_nil in E as [-> _]. congruence.
    + intros (pre & rest & E & _ & Hk & _). symmetry in E.
      apply app_eq_nil in E as [-> ->]. exact Hk.
  - destruct (cls c) eqn:Ec.
    + destruct (star cls t k) as [a'|] eqn:Es.
      * split.
        -- intros [= ->].
           destruct (proj1 IH eq_refl) as (pre & rest & -> & Hp & Hk & Hmax).
           exists (c :: pre), rest. repeat split; try assumption.
           unfold all in *. simpl. now rewrite Ec.
        -- intros (pre & rest & E & Hp & Hk & Hmax).
           destruct pre as [|c' pre]; simpl in E.
           ++ subst rest.
              assert (X : star cls t k = None).
              { apply star_none. intros q rest' E Hq.
                apply (Hmax (c :: q) rest').
                - now rewrite E.
                - discriminate.
                - unfold all in *. simpl. now rewrite Ec. }
              congruence.
           ++ injection E as <- E.
              apply IH. exists pre, rest. repeat split; try assumption.
              unfold all in *. simpl in Hp.
              now apply andb_true_iff in Hp as [_ Hp].
      * split.
        -- intros Hk. exists [], (c :: t). repeat split; try assumption.
           intros [|c' q] rest' E Hne Hq; [congruence|].
           simpl in E. injection E as <- E.
           apply (proj1 (star_none cls t k) Es q rest' E).
           unfold all in *. simpl in Hq.
           now apply andb_true_iff in Hq as [_ Hq].
        -- intros (pre & rest & E & Hp & Hk & Hmax).
           destruct pre as [|c' pre]; simpl in E; [now subst|].
           injection E as <- E.
           rewrite (proj1 (star_none cls t k) Es pre rest E) in Hk;
             [discriminate|].
           unfold all in *. simpl in Hp.
           now apply andb_true_iff in Hp as [_ Hp].
    + split.
      * intros Hk. exists [], (c :: t). repeat split; try assumption.
        intros [|c' q] rest' E Hne Hq; [congruence|].
        simpl in E. injection E as <- E. unfold all in Hq. simpl in Hq.
        rewrite Ec in Hq. discriminate.
      * intros (pre & rest & E & Hp & Hk & Hmax).
        destruct pre as [|c' pre]; simpl in E; [now subst|].
        injection E as <- E. unfold all in Hp. simpl in Hp.
        rewrite Ec in Hp. discriminate.
Qed.

(** When the text after the prefix does not go on in the class, the prefix
    is the longest one. *)
Lemma star_hit cls pre rest k a :
  all cls pre -> stops cls rest -> k rest = Some a ->
  star cls (pre ++ rest) k = Some a.
Proof.
  intros Hp Hs Hk. apply star_some. exists pre, rest.
  repeat split; try assumption.
  intros [|c q] rest' -> Hne Hq; [congruence|].
  simpl in Hs. unfold all in Hq. simpl in Hq. rewrite Hs in Hq.
  discriminate.
Qed.

(** Lazy repetition succeeds with the shortest prefix in the class after
    which the rest of the pattern succeeds. *)
Lemma lazy_star_some cls s k a :
  lazy_star cls s k = Some a <->
  exists pre rest,
    s = pre ++ rest /\ all cls pre /\ k rest = Some a /\
    (forall p1 p2, pre = p1 ++ p2 -> p2 <> [] -> k (p2 ++ rest) = None).
Proof.
  induction s as [|c t IH].
  - simpl. destruct (k []) as [a'|] eqn:Ek.
    + split.
      * intros [= ->]. exists [], []. repeat split; try assumption.
        intros p1 p2 E. symmetry in E.
        apply app_eq_nil in E as [_ ->]. congruence.
      * intros (pre & rest & E & _ & Hk & _). symmetry in E.
        apply app_eq_nil in E as [-> ->]. congruence.
    + split; [discriminate|].
      intros (pre & rest & E & _ & Hk & _). symmetry in E.
      apply app_eq_nil in E as [-> ->]. congruence.
  - cbn [lazy_star]. destruct (k (c :: t)) as [a'|] eqn:Ek.
    + split.
      * intros [= ->]. exists [], (c :: t). repeat split; try assumption.
        intros p1 p2 E. symmetry in E.
        apply app_eq_nil in E as [_ ->]. congruence.
      * intros (pre & rest & E & _ & Hk & Hmin).
        destruct pre as [|c' pre]; simpl in E; [subst; congruence|].
        pose proof (Hmin [] (c' :: pre) eq_refl ltac:(discriminate)) as X.
        simpl in X. rewrite <- E in X. congruence.
    + destruct (cls c) eqn:Ec.
      * rewrite IH. split.
        -- intros (pre & rest & -> & Hp & Hk & Hmin).
           exists (c :: pre), rest. repeat split; try assumption.
           ++ unfold all in *. simpl. now rewrite Ec.
           ++ intros [|c1 p1] p2 E Hne; simpl in E.
              ** now subst p2.
              ** injection E as <- E. now apply (Hmin p1 p2).
        -- intros (pre & rest & E & Hp & Hk & Hmin).
           destruct pre as [|c' pre]; simpl in E; [subst; congruence|].
           injection E as <- E. exists pre, rest.
           repeat split; try assumption.
           ++ unfold all in *. simpl in Hp.
              now apply andb_true_iff in Hp as [_ Hp].
           ++ intros p1 p2 -> Hne. now apply (Hmin (c :: p1) p2).
      * split; [discriminate|].
        intros (pre & rest & E & Hp & Hk & Hmin).
        destruct pre as [|c' pre]; simpl in E; [subst; congruence|].
        injection E as <- E. unfold all in Hp. simpl in Hp.
        rewrite Ec in Hp. discriminate.
Qed.

End MatcherFacts.

Lemma firstn_consumed {B : Type} (pre rest : list B) :
  firstn (length (pre ++ rest) - length rest) (pre ++ rest) = pre.
Proof.
  rewrite length_app, Nat.add_sub. rewrite firstn_app, Nat.sub_diag.
  simpl. now rewrite firstn_all, app_nil_r.
Qed.

Lemma firstn_consumed_cons {B : Type} (c : B) (pre rest : list B) :
  firstn (length (c :: pre ++ rest) - length rest) (c :: pre ++ rest) =
  c :: pre.
Proof. exact (firstn_consumed (c :: pre) rest). Qed.

Lemma all_nil cls : all cls [].
Proof. reflexivity. Qed.

Lemma all_cons cls c s : all cls (c :: s) <-> cls c = true /\ all cls s.
Proof. unfold all. simpl. apply andb_true_iff. Qed.

(* ================================================================== *)
(** * Scanning a text for the matches of a pattern *)
(* ================================================================== *)

Section FinditerFacts.

Context {A : Type}.
Variable r : regex.
Variable decode : groups -> A.
Variable M : str -> A -> str -> Prop.

Hypothesis match_sound :
  forall s g rest, match_ r s = Some (g, rest) -> M s (decode g) rest.
Hypothesis match_complete :
  forall s a rest,
    M s a rest -> exists g, match_ r s = Some (g, rest) /\ decode g = a.
Hypothesis match_consumes :
  forall s a rest, M s a rest -> exists c pre, s = c :: pre ++ rest.

Lemma finditer_from_skip (pre rest : str) :
  finditer_from r (length pre) (pre ++ rest) = finditer_from r 0 rest.
Proof.
  induction pre as [|c pre IH]; simpl; [|exact IH].
  destruct rest; reflexivity.
Qed.

Lemma finditer_hit (c : ascii) (pre rest : str) (g : groups) :
  match_ r (c :: pre ++ rest) = Some (g, rest) ->
  finditer r (c :: pre ++ rest) = g :: finditer r rest.
Proof.
  intros H. unfold finditer. cbn [finditer_from]. rewrite H.
  f_equal.
  replace (length (c :: pre ++ rest) - length rest - 1)%nat
    with (length pre) by (cbn [length]; rewrite length_app; lia).
  apply finditer_from_skip.
Qed.

Lemma finditer_miss (c : ascii) (s : str) :
  match_ r (c :: s) = None -> finditer r (c :: s) = finditer r s.
Proof.
  intros H. unfold finditer. cbn [finditer_from]. now rewrite H.
Qed.

(** Every left-to-right reading of the text is the one [finditer]
    computes. *)
Lemma scan_spec_unique (s : str) (l : list A) :
  scan_spec M s l -> l = map decode (finditer r s).
Proof.
  induction 1 as [|c s l Hno _ IH|s a rest l Hm _ IH].
  - reflexivity.
  - rewrite finditer_miss; [exact IH|].
    destruct (match_ r (c :: s)) as [[g rest]|] eqn:E; [|reflexivity].
    apply match_sound in E. now apply Hno in E.
  - destruct (match_consumes _ _ _ Hm) as (c & pre & ->).
    destruct (match_complete _ _ _ Hm) as (g & Hg & <-).
    rewrite (finditer_hit _ _ _ _ Hg). simpl. now rewrite IH.
Qed.

Lemma finditer_scan_spec_len (n : nat) :
  forall s, (length s <= n)%nat -> scan_spec M s (map decode (finditer r s)).
Proof.
  induction n as [|n IH]; intros s Hlen.
  - destruct s; [constructor | simpl in Hlen; lia].
  - destruct s as [|c s]; [constructor|].
    destruct (match_ r (c :: s)) as [[g rest]|] eqn:E.
    + pose proof (match_sound _ _ _ E) as Hm.
      destruct (match_consumes _ _ _ Hm) as (c' & pre & Hs).
      injection Hs as <- ->.
      rewrite (finditer_hit _ _ _ _ E). simpl.
      apply scan_hit with rest; [exact Hm|].
      apply IH. simpl in Hlen. rewrite length_app in Hlen. lia.
    + rewrite (finditer_miss _ _ E). apply scan_skip.
      * intros a rest Hm.
        destruct (match_complete _ _ _ Hm) as (g & Hg & _). congruence.
      * apply IH. simpl in Hlen. lia.
Qed.

(** [finditer] computes a left-to-right reading of the text. *)
Lemma finditer_scan_spec (s : str) :
  scan_spec M s (map decode (finditer r s)).
Proof. apply (finditer_scan_spec_len (length s)). lia. Qed.

End FinditerFacts.

(* ================================================================== *)
(** * Character classes *)
(* ================================================================== *)

Ltac by_char c :=
  destruct c as [[|] [|] [|] [|] [|] [|] [|] [|]];
  try reflexivity; try discriminate.

Lemma space_not_digit c : is_space c = true -> is_digit c = false.
Proof. by_char c. Qed.

Lemma space_not_word c : is_space c = true -> is_word c = false.
Proof. by_char c. Qed.

Lemma word_not_space c : is_word c = true -> is_space c = false.
Proof. by_char c. Qed.

Lemma stops_after_spaces cls (w : str) (c : ascii) (x : str) :
  (forall d, is_space d = true -> cls d = false) ->
  cls c = false -> all is_space w -> stops cls (w ++ c :: x).
Proof.
  intros Hd Hc Hw. destruct w as [|d w]; simpl; [exact Hc|].
  apply all_cons in Hw as [Hd' _]. now apply Hd.
Qed.

(* ================================================================== *)
(** * The three patterns *)
(* ================================================================== *)

Lemma chr_eqb_true (a c : ascii) : Ascii.eqb a c = true -> c = a.
Proof. intros H. apply Ascii.eqb_eq in H. now subst. Qed.

(** ** The reference pattern *)

Lemma ref_match_sound (s : str) (g : groups) (rest : str) :
  match_ ref_pattern s = Some (g, rest) ->
  ref_at s (int (group 1 g)) rest.
Proof.
  unfold match_, ref_pattern. cbn [run].
  destruct s as [|c t]; [discriminate|].
  destruct (Ascii.eqb (chr "#") c) eqn:Ec; [|discriminate].
  apply chr_eqb_true in Ec. subst c.
  destruct t as [|d t]; [discriminate|].
  destruct (is_digit d) eqn:Ed; [|discriminate].
  intros H. apply star_some in H as (pre & rest' & -> & Hp & Hk & Hmax).
  rewrite firstn_consumed_cons in Hk.
  injection Hk as <- <-. cbn [group Nat.eqb].
  exists (d :: pre). repeat split.
  - discriminate.
  - now apply all_cons.
  - destruct rest' as [|c x]; simpl; [trivial|].
    destruct (is_digit c) eqn:E; [|reflexivity].
    specialize (Hmax [c] x eq_refl).
    discriminate Hmax; [discriminate|]. apply all_cons. now split.
Qed.

Lemma ref_match_complete (s : str) (n : Z) (rest : str) :
  ref_at s n rest ->
  exists g, match_ ref_pattern s = Some (g, rest) /\ int (group 1 g) = n.
Proof.
  intros (ds & -> & Hne & Hd & Hs & ->).
  destruct ds as [|d ds]; [congruence|].
  apply all_cons in Hd as [Hd Hds].
  exists [(1%nat, d :: ds)]. split; [|reflexivity].
  unfold match_, ref_pattern. cbn [run app chr].
  rewrite Ascii.eqb_refl, Hd.
  apply star_hit; try assumption.
  now rewrite firstn_consumed_cons.
Qed.

Lemma ref_at_consumes (s : str) (n : Z) (rest : str) :
  ref_at s n rest -> exists c pre, s = c :: pre ++ rest.
Proof. intros (ds & -> & _). now exists "#"%char, ds. Qed.

(** ** The pattern of the two leading literals *)

Lemma two_literals_sound (s : str) (g : groups) (rest : str) :
  match_ entity_args_pattern s = Some (g, rest) ->
  two_literals_at s (group 1 g, group 2 g) rest.
Proof.
  unfold match_, entity_args_pattern. cbn [run].
  destruct s as [|c t]; [discriminate|].
  destruct (Ascii.eqb (chr "'") c) eqn:Ec; [|discriminate].
  apply chr_eqb_true in Ec. subst c.
  intros H. apply star_some in H as (gid & t1 & -> & Hgid & H & _).
  cbv beta in H. rewrite firstn_consumed in H.
  destruct t1 as [|c t1]; [discriminate|].
  destruct (Ascii.eqb (chr "'") c) eqn:Ec; [|discriminate].
  apply chr_eqb_true in Ec. subst c.
  apply star_some in H as (w1 & t2 & -> & Hw1 & H & _).
  destruct t2 as [|c t2]; [discriminate|].
  destruct (Ascii.eqb (chr ",") c) eqn:Ec; [|discriminate].
  apply chr_eqb_true in Ec. subst c.
  apply star_some in H as (w2 & t3 & -> & Hw2 & H & _).
  destruct t3 as [|c t3]; [discriminate|].
  destruct (Ascii.eqb (chr "'") c) eqn:Ec; [|discriminate].
  apply chr_eqb_true in Ec. subst c.
  apply star_some in H as (nm & t4 & -> & Hnm & H & _).
  cbv beta in H. rewrite firstn_consumed in H.
  destruct t4 as [|c t4]; [discriminate|].
  destruct (Ascii.eqb (chr "'") c) eqn:Ec; [|discriminate].
  apply chr_eqb_true in Ec. subst c.
  injection H as <- <-. cbn [group Nat.eqb].
  exists w1, w2. repeat split; assumption.
Qed.

Lemma two_literals_complete (s : str) (gid nm rest : str) :
  two_literals_at s (gid, nm) rest ->
  match_ entity_args_pattern s = Some ([(2%nat, nm); (1%nat, gid)], rest).
Proof.
  intros (w1 & w2 & -> & Hgid & Hw1 & Hw2 & Hnm).
  unfold match_, entity_args_pattern. cbn [run].
  cbn [chr]. rewrite Ascii.eqb_refl.
  apply star_hit; [assumption | reflexivity |].
  rewrite Ascii.eqb_refl.
  apply star_hit; [assumption | reflexivity |].
  rewrite Ascii.eqb_refl.
  apply star_hit; [assumption | reflexivity |].
  rewrite Ascii.eqb_refl.
  apply star_hit; [assumption | reflexivity |].
  rewrite Ascii.eqb_refl.
  now rewrite !firstn_consumed.
Qed.

Lemma two_literals_consumes (s : str) (m : str * str) (rest : str) :
  two_literals_at s m rest -> exists c pre, s = c :: pre ++ rest.
Proof.
  destruct m as [gid nm]. intros (w1 & w2 & -> & _).
  exists "'"%char,
    (gid ++ "'"%char :: w1 ++ ","%char :: w2 ++ "'"%char :: nm ++ ["'"%char]).
  repeat (rewrite <- ?app_assoc; cbn [app]). reflexivity.
Qed.

(** ** The record pattern *)

Lemma record_match_sound (s : str) (g : groups) (rest : str) :
  match_ record_pattern s = Some (g, rest) ->
  record_shape s (group 1 g, group 2 g, group 3 g) rest.
Proof.
  unfold match_, record_pattern. cbn [run].
  destruct s as [|c t]; [discriminate|].
  destruct (Ascii.eqb (chr "#") c) eqn:Ec; [|discriminate].
  apply chr_eqb_true in Ec. subst c.
  destruct t as [|d t]; [discriminate|].
  destruct (is_digit d) eqn:Ed; [|discriminate].
  intros H. apply star_some in H as (ds & t1 & -> & Hds & H & _).
  cbv beta in H. rewrite firstn_consumed_cons in H.
  apply star_some in H as (w1 & t2 & -> & Hw1 & H & _).
  destruct t2 as [|c t2]; [discriminate|].
  destruct (Ascii.eqb (chr "=") c) eqn:Ec; [|discriminate].
  apply chr_eqb_true in Ec. subst c.
  apply star_some in H as (w2 & t3 & -> & Hw2 & H & _).
  destruct t3 as [|i t3]; [discriminate|].
  destruct (is_word i) eqn:Ei; [|discriminate].
  apply star_some in H as (ident & t4 & -> & Hident & H & _).
  cbv beta in H. rewrite firstn_consumed_cons in H.
  apply star_some in H as (w3 & t5 & -> & Hw3 & H & _).
  destruct t5 as [|c t5]; [discriminate|].
  destruct (Ascii.eqb (chr "(") c) eqn:Ec; [|discriminate].
  apply chr_eqb_true in Ec. subst c.
  apply lazy_star_some in H as (args & t6 & -> & _ & H & Hmin).
  assert (Hfirst : forall a b, args <> a ++ ")"%char :: ";"%char :: b).
  { intros a b E.
    specialize (Hmin a (")"%char :: ";"%char :: b) E ltac:(discriminate)).
    cbn [app chr] in Hmin. rewrite !Ascii.eqb_refl in Hmin.
    discriminate Hmin. }
  clear Hmin. cbv beta in H. rewrite firstn_consumed in H.
  destruct t6 as [|c t6]; [discriminate|].
  destruct (Ascii.eqb (chr ")") c) eqn:Ec; [|discriminate].
  apply chr_eqb_true in Ec. subst c.
  destruct t6 as [|c t6]; [discriminate|].
  destruct (Ascii.eqb (chr ";") c) eqn:Ec; [|discriminate].
  apply chr_eqb_true in Ec. subst c.
  injection H as <- <-. cbn [group Nat.eqb].
  exists w1, w2, w3. repeat split; try assumption; try discriminate.
  - now apply all_cons.
  - now apply all_cons.
Qed.

Lemma record_match_complete (s : str) (ds ident args rest : str) :
  record_shape s (ds, ident, args) rest ->
  match_ record_pattern s =
  Some ([(3%nat, args); (2%nat, ident); (1%nat, ds)], rest).
Proof.
  intros (w1 & w2 & w3 & -> & Hne & Hds & Hw1 & Hw2 & Hni & Hident & Hw3
          & Hfirst).
  destruct ds as [|d ds]; [congruence|].
  destruct ident as [|i ident]; [congruence|].
  apply all_cons in Hds as [Hd Hds].
  apply all_cons in Hident as [Hi Hident].
  unfold match_, record_pattern. cbn [run app chr].
  rewrite Ascii.eqb_refl, Hd.
  apply star_hit; [assumption | |].
  { apply stops_after_spaces;
      [apply space_not_digit | reflexivity | assumption]. }
  rewrite firstn_consumed_cons.
  apply star_hit; [assumption | reflexivity |].
  rewrite Ascii.eqb_refl.
  apply star_hit; [assumption | simpl; now apply word_not_space |].
  rewrite Hi.
  apply star_hit; [assumption | |].
  { apply stops_after_spaces;
      [apply space_not_word | reflexivity | assumption]. }
  rewrite firstn_consumed_cons.
  apply star_hit; [assumption | reflexivity |].
  rewrite Ascii.eqb_refl.
  apply lazy_star_some. exists args, (")"%char :: ";"%char :: rest).
  repeat split.
  - unfold all, any_char. now apply forallb_forall.
  - rewrite firstn_consumed, !Ascii.eqb_refl. reflexivity.
  - intros p1 [|c p2] E Hp2; [congruence|]. cbn [app].
    destruct (Ascii.eqb ")" c) eqn:Ec; [|reflexivity].
    apply chr_eqb_true in Ec. subst c.
    destruct p2 as [|c p2]; cbn [app]; [reflexivity|].
    destruct (Ascii.eqb ";" c) eqn:Ec; [|reflexivity].
    apply chr_eqb_true in Ec. subst c.
    now apply Hfirst in E.
Qed.

Lemma record_shape_consumes (s : str) (m : str * str * str) (rest : str) :
  record_shape s m rest -> exists c pre, s = c :: pre ++ rest.
Proof.
  destruct m as [[ds ident] args]. intros (w1 & w2 & w3 & -> & _).
  exists "#"%char,
    (ds ++ w1 ++ "="%char :: w2 ++ ident ++ w3
     ++ "("%char :: args ++ [")"%char; ";"%char]).
  repeat (rewrite <- ?app_assoc; cbn [app]). reflexivity.
Qed.

(* ================================================================== *)
(** * The selector and the parser *)
(* ================================================================== *)

Lemma flat_map_filter_map {X Y : Type} (d : X -> Y) (P : Y -> bool)
  (l : list X) :
  flat_map (fun m => if P (d m) then [d m] else []) l = filter P (map d l).
Proof.
  induction l as [|x l IH]; simpl; [reflexivity|].
  rewrite IH. now destruct (P (d x)).
Qed.

Lemma scan_with_eq (types_of_interest : list str) (text : str) :
  scan_with types_of_interest text =
  filter (of_interest types_of_interest)
    (map decode_record (finditer record_pattern text)).
Proof.
  unfold scan_with.
  rewrite (fold_left_appends _
             (fun m => if of_interest types_of_interest (decode_record m)
                       then [decode_record m] else [])).
  - apply flat_map_filter_map.
  - intros acc m. unfold scan_step, of_interest, decode_record. cbn [fst snd].
    destruct (set_mem _ _); [reflexivity | now rewrite app_nil_r].
Qed.

Lemma record_at_sound (s : str) (g : groups) (rest : str) :
  match_ record_pattern s = Some (g, rest) ->
  record_at s (decode_record g) rest.
Proof.
  intros H. apply record_match_sound in H.
  exists (group 1 g), (group 2 g), (group 3 g). now split.
Qed.

Lemma record_at_complete (s : str) (rec : RawRecord) (rest : str) :
  record_at s rec rest ->
  exists g, match_ record_pattern s = Some (g, rest) /\ decode_record g = rec.
Proof.
  intros (ds & ident & args & H & ->).
  apply record_match_complete in H.
  eexists. split; [exact H | reflexivity].
Qed.

Lemma record_at_consumes (s : str) (rec : RawRecord) (rest : str) :
  record_at s rec rest -> exists c pre, s = c :: pre ++ rest.
Proof.
  intros (ds & ident & args & H & _). now apply record_shape_consumes in H.
Qed.

Lemma parse_snoc (lines : list RawRecord) (line : RawRecord) :
  parse_selected_ifc_lines (lines ++ [line]) =
  parse_step (parse_selected_ifc_lines lines) line.
Proof. unfold parse_selected_ifc_lines. now rewrite fold_left_app. Qed.

Lemma parse_step_entity (st : parsed) (ent_id : Z)
  (ent_type args_str : str) :
  is_entity_type ent_type = true ->
  parse_step st (ent_id, ent_type, args_str) =
  (dict_set Z.eqb ent_id (entity_of (ent_id, ent_type, args_str)) (fst st),
   snd st).
Proof.
  intros Ht. destruct st as [entities relationships].
  unfold parse_step, entity_of. rewrite Ht. cbn [fst snd].
  destruct (match_ entity_args_pattern args_str) as [[g rest]|];
    reflexivity.
Qed.

Lemma relation_not_entity (ty : str) :
  is_relation_type ty = true -> is_entity_type ty = false.
Proof.
  intros H. apply (dict_mem_keys str_eqb str_eqb_eq) in H. simpl in H.
  repeat (destruct H as [<- | H]; [reflexivity|]). destruct H.
Qed.

Lemma parse_step_relation (st : parsed) (ent_id : Z)
  (ent_type args_str : str) :
  is_relation_type ent_type = true ->
  parse_step st (ent_id, ent_type, args_str) =
  match map int (findall ref_pattern args_str) with
  | p :: c :: cs =>
      (fst st,
       snd st ++ [IfcRelationship_init ent_id ent_type p (c :: cs)])
  | _ => st
  end.
Proof.
  intros Ht. destruct st as [entities relationships].
  unfold parse_step. rewrite (relation_not_entity _ Ht), Ht.
  destruct (findall ref_pattern args_str) as [|a [|b l]]; reflexivity.
Qed.

Lemma parse_step_other (st : parsed) (ent_id : Z)
  (ent_type args_str : str) :
  is_entity_type ent_type = false ->
  fst (parse_step st (ent_id, ent_type, args_str)) = fst st.
Proof.
  intros Ht. destruct st as [entities relationships].
  unfold parse_step. rewrite Ht.
  destruct (is_relation_type ent_type); [|reflexivity].
  destruct (Nat.leb 2 (length (findall ref_pattern args_str)));
    [|reflexivity].
  destruct (findall ref_pattern args_str); reflexivity.
Qed.

Section DictSetFacts.

Context {V : Type}.
Implicit Types (d : dict Z V) (k : Z) (v : V).

Lemma dict_get_set_same k v d :
  dict_get Z.eqb k (dict_set Z.eqb k v d) = Some v.
Proof.
  induction d as [|[k' v'] d IH]; simpl.
  - now rewrite Z.eqb_refl.
  - destruct (Z.eqb k k') eqn:E; simpl; now rewrite E.
Qed.

Lemma dict_get_set_other k k' v d :
  k <> k' ->
  dict_get Z.eqb k (dict_set Z.eqb k' v d) = dict_get Z.eqb k d.
Proof.
  intros Hne. induction d as [|[k2 v2] d IH]; simpl.
  - apply Z.eqb_neq in Hne. now rewrite Hne.
  - destruct (Z.eqb k' k2) eqn:E; simpl.
    + apply Z.eqb_eq in E. subst k2.
      apply Z.eqb_neq in Hne. now rewrite Hne.
    + now rewrite IH.
Qed.

Lemma keys_dict_set k v d :
  keys (dict_set Z.eqb k v d) =
  if existsb (Z.eqb k) (keys d) then keys d else keys d ++ [k].
Proof.
  unfold keys. induction d as [|[k' v'] d IH]; simpl; [reflexivity|].
  destruct (Z.eqb k k') eqn:E; simpl; [reflexivity|].
  rewrite IH. now destruct (existsb (Z.eqb k) (map fst d)).
Qed.

Lemma NoDup_dict_set k v d :
  NoDup (keys d) -> NoDup (keys (dict_set Z.eqb k v d)).
Proof.
  intros H. rewrite keys_dict_set.
  destruct (existsb (Z.eqb k) (keys d)) eqn:E; [assumption|].
  apply NoDup_app; [assumption | repeat constructor; simpl; tauto |].
  intros x Hx [Ex | []]. subst x.
  assert (X : existsb (Z.eqb k) (keys d) = true).
  { apply existsb_exists. exists k. split; [assumption | apply Z.eqb_refl]. }
  congruence.
Qed.

End DictSetFacts.

Lemma parse_step_NoDup (st : parsed) (line : RawRecord) :
  NoDup (keys (fst st)) -> NoDup (keys (fst (parse_step st line))).
Proof.
  destruct line as [[ent_id ent_type] args_str]. intros H.
  destruct (is_entity_type ent_type) eqn:Ht.
  - rewrite parse_step_entity by assumption. cbn [fst].
    now apply NoDup_dict_set.
  - now rewrite parse_step_other.
Qed.

Lemma parse_fold_NoDup (lines : list RawRecord) (st : parsed) :
  NoDup (keys (fst st)) ->
  NoDup (keys (fst (fold_left parse_step lines st))).
Proof.
  revert st. induction lines as [|line lines IH]; intros st H; simpl.
  - assumption.
  - apply IH. now apply parse_step_NoDup.
Qed.

(** Lines that are not entity lines of id [k] leave the entity of [k]
    alone. *)
Lemma parse_fold_untouched (k : Z) (lines : list RawRecord) (st : parsed) :
  (forall ty args, In (k, ty, args) lines -> is_entity_type ty = false) ->
  dict_get Z.eqb k (fst (fold_left parse_step lines st)) =
  dict_get Z.eqb k (fst st).
Proof.
  revert st. induction lines as [|[[i ty] args] lines IH]; intros st H;
    simpl; [reflexivity|].
  rewrite IH by (intros ty' args' Hin; apply (H ty' args'); now right).
  destruct (is_entity_type ty) eqn:Ht.
  - rewrite parse_step_entity by assumption. cbn [fst].
    apply dict_get_set_other. intros ->.
    rewrite (H ty args) in Ht by now left. discriminate.
  - now rewrite parse_step_other.
Qed.

Lemma dict_mem_existsb {V : Type} (x : str) (d : dict str V) :
  dict_mem str_eqb x d = existsb (str_eqb x) (keys d).
Proof.
  unfold dict_mem, keys. induction d as [|[k v] d IH]; simpl; [reflexivity|].
  destruct (str_eqb x k); [reflexivity | exact IH].
Qed.

Lemma types_of_interest_mem (ty : str) :
  set_mem ty IFC_TYPES_OF_INTEREST =
  (is_entity_type ty || is_relation_type ty)%bool.
Proof.
  unfold set_mem, IFC_TYPES_OF_INTEREST, is_entity_type, is_relation_type.
  rewrite !existsb_app, !dict_mem_existsb. cbn [existsb].
  unfold IFCPROJECT.
  destruct (existsb (str_eqb ty) (keys IFC_TO_BOT_ZONE)),
    (existsb (str_eqb ty) (keys IFC_TO_BOT_ELEMENT)),
    (existsb (str_eqb ty) (keys IFC_REL_TO_BOT_PROP)),
    (str_eqb ty (lit "IFCPROJECT")); reflexivity.
Qed.

(** The selector on a text with a lower-case type, a type out of interest
    and an unterminated record. *)
Example scan_example :
  scan_ifc_and_extract_lines
    (lit "x #1=ifcwall('a'); #2 = IFCFOO(1); #3 = IFCDOOR('d' #4=IFCSLAB();")
  = [ (1, lit "IFCWALL", lit "'a'");
      (3, lit "IFCDOOR", lit "'d' #4=IFCSLAB(") ].
Proof. vm_compute. reflexivity. Qed.

Example parse_relation_example :
  snd (parse_selected_ifc_lines
         [sample_relation_line;
          (31, lit "IFCRELAGGREGATES", lit "'Y',$,#10")])
  = [IfcRelationship_init 30 (lit "IFCRELAGGREGATES") 10 [20; 21]].
Proof. vm_compute. reflexivity. Qed.

Lemma entity_type_upper (ty : str) :
  is_entity_type ty = true -> upper ty = ty.
Proof.
  unfold is_entity_type. rewrite !orb_true_iff.
  intros [[H | H] | H].
  - apply (dict_mem_keys str_eqb str_eqb_eq) in H. simpl in H.
    repeat (destruct H as [<- | H]; [reflexivity|]). destruct H.
  - apply (dict_mem_keys str_eqb str_eqb_eq) in H. simpl in H.
    repeat (destruct H as [<- | H]; [reflexivity|]). destruct H.
  - apply str_eqb_eq in H. now subst.
Qed.

(** C8.  The pipeline is a function of the input text: the output for a
    text does not depend on the order in which the set of types of interest
    is enumerated, the only collection of the program without a fixed
    iteration order, so two runs on the same text give the same output
    text. *)
Theorem C8_pipeline_deterministic :
  forall (order1 order2 : list str) (text1 text2 : str),
    Permutation IFC_TYPES_OF_INTEREST order1 ->
    Permutation IFC_TYPES_OF_INTEREST order2 ->
    text1 = text2 ->
    convert_with order1 text1 = convert_with order2 text2
    /\ convert_with order1 text1 = convert text1.
Proof.
  assert (X : forall order text,
             Permutation IFC_TYPES_OF_INTEREST order ->
             convert_with order text = convert text).
  { intros order text Hp. unfold convert, convert_with.
    rewrite !scan_with_eq.
    assert (E : forall rec, of_interest order rec
                            = of_interest IFC_TYPES_OF_INTEREST rec).
    { intros rec. unfold of_interest, set_mem.
      apply eq_true_iff_eq. rewrite !existsb_exists.
      split; intros (y & Hy & Hxy); exists y; split; try assumption.
      - now apply (Permutation_in _ (Permutation_sym Hp)).
      - now apply (Permutation_in _ Hp). }
    now rewrite (filter_ext _ _ E). }
  intros order1 order2 text1 text2 H1 H2 <-.
  rewrite (X order1 text1 H1), (X order2 text1 H2). now split.
Qed.

Lemma C8_pipeline_deterministic_witness :
  convert_with (rev IFC_TYPES_OF_INTEREST) sample_text
  = convert_with IFC_TYPES_OF_INTEREST sample_text.
Proof.
  refine (proj1 (C8_pipeline_deterministic (rev IFC_TYPES_OF_INTEREST)
                   IFC_TYPES_OF_INTEREST sample_text sample_text _ _ _)).
  - apply Permutation_rev.
  - apply Permutation_refl.
  - reflexivity.
Defined.

(** The first scenario of the specification: a building, a storey and an
    aggregation between them. *)
Example scenario_building_storey :
  (let '(entities, relationships) :=
     parse_selected_ifc_lines (scan_ifc_and_extract_lines sample_text) in
   ifc_to_bot_triples entities relationships)
  = [ (inst 10, rdf_type, lit "bot:Building");
      (inst 10, rdfs_label, quoted (lit "Main"));
      (inst 20, rdf_type, lit "bot:Storey");
      (inst 20, rdfs_label, quoted (lit "L1"));
      (inst 10, bot_containsZone, inst 20) ].
Proof. vm_compute. reflexivity. Qed.

(** The second scenario: a connection with two element children gives both
    directions, the same relation with three children gives nothing. *)
Example scenario_connection :
  relationship_triples sample_entities sample_connection
  = [ (inst 5, bot_adjacentElement, inst 6);
      (inst 6, bot_adjacentElement, inst 5) ]
  /\ relationship_triples sample_entities
       (IfcRelationship_init 7 (lit "IFCRELCONNECTSELEMENTS") 0 [5; 6; 5])
     = [].
Proof. split; vm_compute; reflexivity. Qed.

(* ================================================================== *)
(** * Further properties of the mapping engine *)
(* ================================================================== *)

Lemma contained_triples entities rel :
  rel_type rel = IFCRELCONTAINEDINSPATIALSTRUCTURE ->
  relationship_triples entities rel =
  flat_map (containment_rule entities (parent_id rel)) (child_ids rel).
Proof.
  intros Ht. unfold relationship_triples, relationship_step.
  rewrite Ht.
  replace (str_eqb IFCRELCONTAINEDINSPATIALSTRUCTURE IFCRELAGGREGATES)
    with false by reflexivity.
  rewrite str_eqb_refl.
  rewrite (fold_left_appends _ _ (contained_step_appends _ _ _)).
  simpl. rewrite flat_map_combine_inst. reflexivity.
Qed.

(** X1.  Processing a relationship of type
    IFCRELCONTAINEDINSPATIALSTRUCTURE adds, for each child in order, one
    contains-element triple from parent to child when the parent is a
    zone and the child an element, and nothing for any other pair; when
    the parent is not a zone the relationship adds nothing at all. *)
Theorem X1_spatial_containment_rule :
  forall (entities : dict Z IfcEntity) (rels1 : list IfcRelationship)
         (rel : IfcRelationship) (rels2 : list IfcRelationship),
    rel_type rel = IFCRELCONTAINEDINSPATIALSTRUCTURE ->
    ifc_to_bot_triples entities (rels1 ++ rel :: rels2) =
      ifc_to_bot_triples entities rels1
      ++ flat_map (containment_rule entities (parent_id rel)) (child_ids rel)
      ++ flat_map (relationship_triples entities) rels2
    /\ (is_zone_id entities (parent_id rel) = false ->
        relationship_triples entities rel = []).
Proof.
  intros entities rels1 rel rels2 Ht. split.
  - rewrite ifc_to_bot_triples_split. now rewrite (contained_triples _ _ Ht).
  - intros Hz. rewrite (contained_triples _ _ Ht).
    induction (child_ids rel) as [|c cs IH]; [reflexivity|].
    cbn [flat_map]. rewrite IH. unfold containment_rule. now rewrite Hz.
Qed.

Lemma X1_spatial_containment_rule_witness :
  ifc_to_bot_triples sample_entities ([] ++ sample_containment :: []) =
    ifc_to_bot_triples sample_entities []
    ++ flat_map (containment_rule sample_entities 20) [5; 10; 6]
    ++ flat_map (relationship_triples sample_entities) [].
Proof.
  refine (proj1 (X1_spatial_containment_rule sample_entities []
                   sample_containment [] _)).
  reflexivity.
Defined.

(** Every triple a relationship contributes, with the classification of
    its two ends. *)
Lemma relationship_triples_typed entities rel t :
  In t (relationship_triples entities rel) ->
  exists a b p,
    t = (inst a, p, inst b) /\ In p relationship_predicates /\
    classify_id entities a = domain_of p /\
    classify_id entities b = range_of p.
Proof.
  intros Ht.
  assert (Z2 : forall a b q,
             is_zone_id entities a = true -> is_zone_id entities b = true ->
             q = bot_containsZone ->
             exists a' b' p,
               (inst a, q, inst b) = (inst a', p, inst b') /\
               In p relationship_predicates /\
               classify_id entities a' = domain_of p /\
               classify_id entities b' = range_of p).
  { intros a b q Ha Hb ->. exists a, b, bot_containsZone.
    rewrite !(proj2 (classify_id_Zone _ _)) by assumption.
    repeat split. simpl; tauto. }
  assert (ZE : forall a b q,
             is_zone_id entities a = true ->
             is_element_id entities b = true ->
             q = bot_containsElement ->
             exists a' b' p,
               (inst a, q, inst b) = (inst a', p, inst b') /\
               In p relationship_predicates /\
               classify_id entities a' = domain_of p /\
               classify_id entities b' = range_of p).
  { intros a b q Ha Hb ->. exists a, b, bot_containsElement.
    rewrite (proj2 (classify_id_Zone _ _)) by assumption.
    rewrite (proj2 (classify_id_Element _ _)) by assumption.
    repeat split. simpl; tauto. }
  assert (E2 : forall a b q,
             is_element_id entities a = true ->
             is_element_id entities b = true ->
             In q [bot_hasSubElement; bot_adjacentElement;
                   bot_intersectingElement] ->
             exists a' b' p,
               (inst a, q, inst b) = (inst a', p, inst b') /\
               In p relationship_predicates /\
               classify_id entities a' = domain_of p /\
               classify_id entities b' = range_of p).
  { intros a b q Ha Hb Hq. exists a, b, q.
    rewrite !(proj2 (classify_id_Element _ _)) by assumption.
    simpl in Hq. destruct Hq as [<- | [<- | [<- | []]]];
      repeat split; simpl; tauto. }
  revert Ht. unfold relationship_triples, relationship_step.
  repeat (match goal with |- context [if str_eqb ?a ?b then _ else _] =>
            destruct (str_eqb a b) end).
  - rewrite (fold_left_appends _ _ (aggregates_step_appends _ _ _)).
    simpl. rewrite flat_map_combine_inst. intros H.
    apply in_flat_map in H as (c & _ & H). unfold aggregates_step in H.
    destruct (is_zone_id entities (parent_id rel)
              && is_zone_id entities c)%bool eqn:Ez.
    + apply andb_true_iff in Ez as [Ep Ec].
      destruct H as [<- | []]. now apply Z2.
    + destruct (is_element_id entities (parent_id rel)
                && is_element_id entities c)%bool eqn:Ee; [|destruct H].
      apply andb_true_iff in Ee as [Ep Ec].
      destruct H as [<- | []]. apply E2; simpl; tauto.
  - rewrite (fold_left_appends _ _ (contained_step_appends _ _ _)).
    simpl. rewrite flat_map_combine_inst. intros H.
    apply in_flat_map in H as (c & _ & H). unfold contained_step in H.
    destruct (is_zone_id entities (parent_id rel)
              && is_element_id entities c)%bool eqn:Ez; [|destruct H].
    apply andb_true_iff in Ez as [Ep Ec].
    destruct H as [<- | []]. now apply ZE.
  - unfold symmetric_step.
    destruct (child_ids rel) as [|a [|b [|? ?]]]; simpl; try tauto.
    destruct (is_element_id entities a && is_element_id entities b)%bool
      eqn:Ee; [|simpl; tauto].
    apply andb_true_iff in Ee as [Ea Eb].
    intros [<- | [<- | []]]; apply E2; simpl; tauto.
  - unfold symmetric_step.
    destruct (child_ids rel) as [|a [|b [|? ?]]]; simpl; try tauto.
    destruct (is_element_id entities a && is_element_id entities b)%bool
      eqn:Ee; [|simpl; tauto].
    apply andb_true_iff in Ee as [Ea Eb].
    intros [<- | [<- | []]]; apply E2; simpl; tauto.
  - intros [].
Qed.

(** The predicate of every triple an item of the dictionary contributes
    is rdf:type or rdfs:label. *)
Lemma entity_triples_predicate item t :
  In t (entity_triples item) ->
  predicate t = rdf_type \/ predicate t = rdfs_label.
Proof.
  destruct item as [k e]. rewrite entity_triples_cases.
  destruct (classify_ifc_entity e); [|intros []].
  intros [<- | H]; [now left|].
  destruct (name e); [destruct H|]. destruct H as [<- | []]. now right.
Qed.

Lemma relationship_part entities rels t :
  In t (ifc_to_bot_triples entities rels) ->
  In (predicate t) relationship_predicates ->
  exists rel, In rel rels /\ In t (relationship_triples entities rel).
Proof.
  rewrite ifc_to_bot_triples_eq. intros H Hp.
  apply in_app_or in H as [H | H].
  - apply in_flat_map in H as (item & _ & H).
    apply entity_triples_predicate in H as [H | H]; rewrite H in Hp;
      exfalso.
    + now apply rdf_type_not_relationship.
    + now apply rdfs_label_not_relationship.
  - now apply in_flat_map in H.
Qed.

(** X2.  Domain and range.  Every triple of the result whose predicate is
    a relationship predicate links two instance identifiers whose ids have
    the classification the predicate asks for: contains-zone a zone to a
    zone, contains-element a zone to an element, and has-sub-element,
    adjacent-element and intersecting-element an element to an element. *)
Theorem X2_domain_and_range :
  forall (entities : dict Z IfcEntity) (rels : list IfcRelationship)
         (t : Triple),
    In t (ifc_to_bot_triples entities rels) ->
    In (predicate t) relationship_predicates ->
    exists a b,
      subject t = inst a /\ object t = inst b
      /\ classify_id entities a = domain_of (predicate t)
      /\ classify_id entities b = range_of (predicate t).
Proof.
  intros entities rels t Ht Hp.
  destruct (relationship_part _ _ _ Ht Hp) as (rel & _ & H).
  apply relationship_triples_typed in H as (a & b & p & -> & _ & Ha & Hb).
  exists a, b. repeat split; assumption.
Qed.

Lemma X2_domain_and_range_witness :
  exists a b,
    inst 20 = inst a /\ inst 5 = inst b
    /\ classify_id sample_entities a = Zone
    /\ classify_id sample_entities b = Element.
Proof.
  refine (X2_domain_and_range sample_entities [sample_containment]
            (inst 20, bot_containsElement, inst 5) _ _).
  - vm_compute. do 7 right. left. reflexivity.
  - simpl. tauto.
Defined.

Lemma symmetric_in_relationship entities rel a b p :
  p = bot_adjacentElement \/ p = bot_intersectingElement ->
  In (a, p, b) (relationship_triples entities rel) ->
  In (b, p, a) (relationship_triples entities rel).
Proof.
  intros Hp. unfold relationship_triples, relationship_step.
  repeat (match goal with |- context [if str_eqb ?x ?y then _ else _] =>
            destruct (str_eqb x y) end).
  - rewrite (fold_left_appends _ _ (aggregates_step_appends _ _ _)).
    simpl. rewrite flat_map_combine_inst. intros H. exfalso.
    apply in_flat_map in H as (c & _ & H). unfold aggregates_step in H.
    destruct (_ && _)%bool.
    + destruct H as [[= _ <- _] | []]. destruct Hp; discriminate.
    + destruct (_ && _)%bool; [|destruct H].
      destruct H as [[= _ <- _] | []]. destruct Hp; discriminate.
  - rewrite (fold_left_appends _ _ (contained_step_appends _ _ _)).
    simpl. rewrite flat_map_combine_inst. intros H. exfalso.
    apply in_flat_map in H as (c & _ & H). unfold contained_step in H.
    destruct (_ && _)%bool; [|destruct H].
    destruct H as [[= _ <- _] | []]. destruct Hp; discriminate.
  - unfold symmetric_step.
    destruct (child_ids rel) as [|x [|y [|? ?]]]; simpl; try tauto.
    destruct (_ && _)%bool; [|simpl; tauto].
    intros [[= <- <- <-] | [[= <- <- <-] | []]]; simpl; tauto.
  - unfold symmetric_step.
    destruct (child_ids rel) as [|x [|y [|? ?]]]; simpl; try tauto.
    destruct (_ && _)%bool; [|simpl; tauto].
    intros [[= <- <- <-] | [[= <- <- <-] | []]]; simpl; tauto.
  - intros [].
Qed.

(** X3.  Adjacency and intersection are symmetric in the result: whenever
    the result has a triple  a adjacent-element b  (a intersecting-element
    b), it also has the triple  b adjacent-element a  (b
    intersecting-element a). *)
Theorem X3_symmetric_predicates :
  forall (entities : dict Z IfcEntity) (rels : list IfcRelationship)
         (a b p : str),
    p = bot_adjacentElement \/ p = bot_intersectingElement ->
    In (a, p, b) (ifc_to_bot_triples entities rels) ->
    In (b, p, a) (ifc_to_bot_triples entities rels).
Proof.
  intros entities rels a b p Hp Ht.
  assert (Hq : In (predicate (a, p, b)) relationship_predicates).
  { unfold predicate; cbn [fst snd]. destruct Hp as [-> | ->]; simpl; tauto. }
  destruct (relationship_part _ _ _ Ht Hq) as (rel & Hrel & H).
  apply (symmetric_in_relationship _ _ _ _ _ Hp) in H.
  rewrite ifc_to_bot_triples_eq. apply in_or_app. right.
  apply in_flat_map. now exists rel.
Qed.

Lemma X3_symmetric_predicates_witness :
  In (inst 6, bot_adjacentElement, inst 5)
    (ifc_to_bot_triples sample_entities [sample_connection]).
Proof.
  refine (X3_symmetric_predicates sample_entities [sample_connection]
            (inst 5) (inst 6) bot_adjacentElement _ _).
  - left. reflexivity.
  - vm_compute. do 7 right. left. reflexivity.
Defined.

Lemma dict_mem_get {V : Type} (k : str) (d : dict str V) :
  dict_mem str_eqb k d = true -> exists v, dict_get str_eqb k d = Some v.
Proof.
  unfold dict_mem. destruct (dict_get str_eqb k d) as [v|];
    [now exists v | discriminate].
Qed.

(** A classified id has a type triple in the result. *)
Lemma classified_has_type entities rels a :
  classify_id entities a <> Neither ->
  exists cls, In (inst a, rdf_type, cls) (ifc_to_bot_triples entities rels).
Proof.
  unfold classify_id, is_zone_id, is_element_id.
  destruct (dict_get Z.eqb a entities) as [e|] eqn:Eg; [|congruence].
  intros Hc.
  assert (Hcls : exists cls, classify_ifc_entity e = Some cls).
  { unfold classify_ifc_entity.
    destruct (dict_mem str_eqb (type e) IFC_TO_BOT_ZONE) eqn:Ez.
    - now apply dict_mem_get.
    - destruct (dict_mem str_eqb (type e) IFC_TO_BOT_ELEMENT) eqn:Ee.
      + now apply dict_mem_get.
      + congruence. }
  destruct Hcls as [cls Hcls]. exists cls.
  rewrite ifc_to_bot_triples_eq. apply in_or_app. left.
  apply in_flat_map. exists (a, e). split.
  - now apply (dict_get_In Z.eqb Z_eqb_eq).
  - rewrite entity_triples_cases, Hcls. now left.
Qed.

(** X4.  No dangling node: the subject and the object of every
    relationship triple of the result are instance identifiers that the
    result also gives an rdf:type triple. *)
Theorem X4_relationship_ends_are_typed :
  forall (entities : dict Z IfcEntity) (rels : list IfcRelationship)
         (t : Triple),
    In t (ifc_to_bot_triples entities rels) ->
    In (predicate t) relationship_predicates ->
    (exists cls,
       In (subject t, rdf_type, cls) (ifc_to_bot_triples entities rels))
    /\ (exists cls,
          In (object t, rdf_type, cls) (ifc_to_bot_triples entities rels)).
Proof.
  intros entities rels t Ht Hp.
  destruct (relationship_part _ _ _ Ht Hp) as (rel & _ & H).
  apply relationship_triples_typed in H as (a & b & p & -> & _ & Ha & Hb).
  unfold subject, object; cbn [fst snd]. split.
  - apply classified_has_type. rewrite Ha. unfold domain_of.
    now destruct (_ || _)%bool.
  - apply classified_has_type. rewrite Hb. unfold range_of.
    now destruct (str_eqb _ _).
Qed.

Lemma X4_relationship_ends_are_typed_witness :
  (exists cls,
     In (inst 5, rdf_type, cls)
       (ifc_to_bot_triples sample_entities [sample_connection]))
  /\ (exists cls,
        In (inst 6, rdf_type, cls)
          (ifc_to_bot_triples sample_entities [sample_connection])).
Proof.
  refine (X4_relationship_ends_are_typed sample_entities [sample_connection]
            (inst 5, bot_adjacentElement, inst 6) _ _).
  - vm_compute. do 7 right. left. reflexivity.
  - simpl. tauto.
Defined.

(** X5.  The vocabulary of the result.  The subject of every triple is the
    instance identifier of a key of the entity mapping, and its predicate
    is rdf:type, rdfs:label or one of the five relationship predicates;
    the placeholder the registry holds for IFCRELAGGREGATES is never a
    predicate. *)
Theorem X5_result_vocabulary :
  forall (entities : dict Z IfcEntity) (rels : list IfcRelationship)
         (t : Triple),
    In t (ifc_to_bot_triples entities rels) ->
    (exists k, subject t = inst k /\ In k (keys entities))
    /\ In (predicate t) (rdf_type :: rdfs_label :: relationship_predicates)
    /\ predicate t <> lit "bot:containsZone_or_hasSubElement".
Proof.
  intros entities rels t Ht.
  assert (Hv : In (predicate t)
                 (rdf_type :: rdfs_label :: relationship_predicates)
               /\ exists k, subject t = inst k /\ In k (keys entities)).
  { rewrite ifc_to_bot_triples_eq in Ht. apply in_app_or in Ht as [H | H].
    - apply in_flat_map in H as ([k e] & Hin & H). split.
      + apply entity_triples_predicate in H as [-> | ->]; simpl; tauto.
      + exists k. split; [|now apply (in_map fst) in Hin].
        rewrite entity_triples_cases in H.
        destruct (classify_ifc_entity e); [|destruct H].
        destruct H as [<- | H]; [reflexivity|].
        destruct (name e); [destruct H|]. now destruct H as [<- | []].
    - apply in_flat_map in H as (rel & _ & H).
      apply relationship_triples_shape in H
        as (a & b & p & -> & Hp & Ha & _). split.
      + unfold predicate; cbn [fst snd]. now do 2 right.
      + exists a. split; [reflexivity|].
        apply classified_present in Ha.
        destruct (in_dec Z.eq_dec a (keys entities)) as [Hin | Hout];
          [exact Hin|].
        now apply (dict_get_None Z.eqb Z_eqb_eq) in Hout. }
  destruct Hv as [Hp Hs]. split; [exact Hs|]. split; [exact Hp|].
  intros E. rewrite E in Hp. simpl in Hp.
  repeat (destruct Hp as [Hp | Hp]; [discriminate Hp|]). exact Hp.
Qed.

Lemma X5_result_vocabulary_witness :
  (exists k, inst 10 = inst k /\ In k (keys sample_entities))
  /\ In bot_containsZone
       (rdf_type :: rdfs_label :: relationship_predicates)
  /\ bot_containsZone <> lit "bot:containsZone_or_hasSubElement".
Proof.
  refine (X5_result_vocabulary sample_entities [sample_aggregation]
            (inst 10, bot_containsZone, inst 20) _).
  vm_compute. do 7 right. left. reflexivity.
Defined.

Lemma entity_triples_length item : (length (entity_triples item) <= 2)%nat.
Proof.
  destruct item as [k e]. rewrite entity_triples_cases.
  destruct (classify_ifc_entity e); [|simpl; lia].
  destruct (name e); simpl; lia.
Qed.

Lemma relationship_triples_length entities rel :
  (length (relationship_triples entities rel)
   <= Nat.max 2 (length (child_ids rel)))%nat.
Proof.
  assert (F : forall (G : Z -> list Triple) (cs : list Z),
             (forall c, (length (G c) <= 1)%nat) ->
             (length (flat_map G cs) <= length cs)%nat).
  { intros G cs HG. induction cs as [|c cs IH]; simpl; [lia|].
    rewrite length_app. specialize (HG c). lia. }
  unfold relationship_triples, relationship_step.
  repeat (match goal with |- context [if str_eqb ?x ?y then _ else _] =>
            destruct (str_eqb x y) end).
  - rewrite (fold_left_appends _ _ (aggregates_step_appends _ _ _)).
    cbn [app]. rewrite flat_map_combine_inst.
    etransitivity; [apply F | lia].
    intros c. unfold aggregates_step.
    repeat (destruct (_ && _)%bool; simpl; try lia).
  - rewrite (fold_left_appends _ _ (contained_step_appends _ _ _)).
    cbn [app]. rewrite flat_map_combine_inst.
    etransitivity; [apply F | lia].
    intros c. unfold contained_step.
    destruct (_ && _)%bool; simpl; lia.
  - unfold symmetric_step.
    destruct (child_ids rel) as [|x [|y [|? ?]]]; simpl; try lia.
    destruct (_ && _)%bool; simpl; lia.
  - unfold symmetric_step.
    destruct (child_ids rel) as [|x [|y [|? ?]]]; simpl; try lia.
    destruct (_ && _)%bool; simpl; lia.
  - simpl. lia.
Qed.

(** X6.  The order and the size of the result: first what the items of
    the entity mapping contribute, in the order of the mapping, then what
    the relationships contribute, in their order.  An item contributes at
    most two triples; a relationship at most as many as it has children,
    or two if it has fewer. *)
Theorem X6_result_order_and_size :
  forall (entities : dict Z IfcEntity) (rels : list IfcRelationship),
    ifc_to_bot_triples entities rels =
      flat_map entity_triples entities
      ++ flat_map (relationship_triples entities) rels
    /\ (forall item, (length (entity_triples item) <= 2)%nat)
    /\ (forall rel,
          (length (relationship_triples entities rel)
           <= Nat.max 2 (length (child_ids rel)))%nat).
Proof.
  intros entities rels. split; [apply ifc_to_bot_triples_eq|].
  split; [apply entity_triples_length|].
  apply relationship_triples_length.
Qed.

(** X7.  The class tells zones from elements: when an entity is given a
    class, the class is bot:Element exactly when the type of the entity
    is an element type, and the type is a zone type otherwise. *)
Theorem X7_class_of_elements :
  forall (e : IfcEntity) (cls : str),
    classify_ifc_entity e = Some cls ->
    (cls = lit "bot:Element" <->
     dict_mem str_eqb (type e) IFC_TO_BOT_ELEMENT = true)
    /\ (cls <> lit "bot:Element" <->
        dict_mem str_eqb (type e) IFC_TO_BOT_ZONE = true).
Proof.
  intros e cls. unfold classify_ifc_entity.
  remember (type e) as ty eqn:Ety. clear Ety.
  destruct (dict_mem str_eqb ty IFC_TO_BOT_ZONE) eqn:Ez.
  - rewrite (zone_not_element _ Ez).
    apply (dict_mem_keys str_eqb str_eqb_eq) in Ez. simpl in Ez.
    repeat (destruct Ez as [<- | Ez];
            [vm_compute; intros [= <-]; repeat split;
               solve [discriminate | reflexivity | intros _; discriminate]
            |]).
    destruct Ez.
  - destruct (dict_mem str_eqb ty IFC_TO_BOT_ELEMENT) eqn:Ee;
      [|discriminate].
    apply (dict_mem_keys str_eqb str_eqb_eq) in Ee. simpl in Ee.
    repeat (destruct Ee as [<- | Ee];
            [vm_compute; intros [= <-]; repeat split;
               solve [discriminate | reflexivity | congruence]
            |]).
    destruct Ee.
Qed.

Lemma X7_class_of_elements_witness :
  (lit "bot:Element" = lit "bot:Element" <->
   dict_mem str_eqb (lit "IFCDOOR") IFC_TO_BOT_ELEMENT = true)
  /\ (lit "bot:Element" <> lit "bot:Element" <->
      dict_mem str_eqb (lit "IFCDOOR") IFC_TO_BOT_ZONE = true).
Proof.
  refine (X7_class_of_elements
            (IfcEntity_init 3 (lit "IFCDOOR") [] []) (lit "bot:Element") _).
  reflexivity.
Defined.

(* ================================================================== *)
(** * Further properties of the serializer *)
(* ================================================================== *)

(** X8.  Every output starts with the four namespace-prefix declarations,
    each followed by a line feed, and the output is nothing more than this
    header exactly when there is no triple. *)
Theorem X8_output_header :
  forall triples : list Triple,
    exists rest : str,
      triples_to_ttl triples = header ++ rest
      /\ (rest = [] <-> triples = []).
Proof.
  intros triples. rewrite triples_to_ttl_eq.
  destruct triples as [|t l].
  - exists []. split; [reflexivity | tauto].
  - cbn [map first_appearances flat_map stanza app].
    match goal with
    | |- context [join nl (_ ++ _ :: ?x :: ?more)] =>
        exists (nl ++ join nl (x :: more))
    end.
    split; [reflexivity|]. split; [|discriminate].
    unfold nl. cbn [app]. discriminate.
Qed.

Lemma count_occ_tagged (k s p o : str) (props : list (str * str)) :
  count_occ triple_dec (map (fun po => (k, fst po, snd po)) props) (s, p, o)
  = if str_dec k s then count_occ pair_dec props (p, o) else 0%nat.
Proof.
  induction props as [|[p' o'] props IH]; cbn [map fst snd].
  - now destruct (str_dec k s).
  - revert IH. destruct (str_dec k s) as [-> | Hne]; intros IH.
    + destruct (pair_dec (p', o') (p, o)) as [E | Hpo].
      * injection E as Hp Ho. subst p' o'.
        rewrite (count_occ_cons_eq triple_dec _ (eq_refl (s, p, o))).
        rewrite (count_occ_cons_eq pair_dec _ (eq_refl (p, o))).
        now rewrite IH.
      * rewrite (count_occ_cons_neq triple_dec) by congruence.
        rewrite (count_occ_cons_neq pair_dec) by congruence. exact IH.
    + rewrite (count_occ_cons_neq triple_dec) by congruence. exact IH.
Qed.

Lemma count_occ_tagged_groups (l : list Triple) (s p o : str)
  (ks : list str) :
  NoDup ks ->
  count_occ triple_dec
    (flat_map (fun k => map (fun po => (k, fst po, snd po)) (pairs_of k l))
       ks) (s, p, o)
  = if in_dec str_dec s ks then count_occ pair_dec (pairs_of s l) (p, o)
    else 0%nat.
Proof.
  induction ks as [|k ks IH]; intros Hnd; [reflexivity|].
  inversion Hnd as [|? ? Hnotin Hnd']; subst.
  specialize (IH Hnd'). revert IH.
  set (F := fun k0 => map (fun po : str * str => (k0, fst po, snd po))
                        (pairs_of k0 l)).
  intros IH. change (flat_map F (k :: ks)) with (F k ++ flat_map F ks).
  rewrite count_occ_app.
  etransitivity;
    [apply (f_equal2 Nat.add); [apply count_occ_tagged | exact IH]|].
  clear IH F.
  destruct (str_dec k s) as [-> | Hne].
  - destruct (in_dec str_dec s ks) as [Hin | _]; [contradiction|].
    destruct (in_dec str_dec s (s :: ks)) as [_ | Hout];
      [lia | exfalso; apply Hout; now left].
  - destruct (in_dec str_dec s ks) as [Hin | Hout];
      destruct (in_dec str_dec s (k :: ks)) as [Hin' | Hout'];
      try reflexivity.
    + exfalso. apply Hout'. now right.
    + destruct Hin' as [-> | Hin']; [congruence | contradiction].
Qed.

Lemma ungroup_grouped (l : list Triple) :
  ungroup (grouped l) =
  flat_map (fun k => map (fun po => (k, fst po, snd po)) (pairs_of k l))
    (first_appearances (map subject l)).
Proof.
  unfold ungroup, grouped.
  induction (first_appearances (map subject l)) as [|k ks IH];
    [reflexivity|].
  cbn [map flat_map fst snd]. now rewrite IH.
Qed.

(** X9.  Grouping loses nothing and invents nothing: the dictionary the
    first loop of the serializer builds has pairwise distinct subjects, no
    subject with an empty list, and its pairs, each put back under its
    subject, are the input triples up to order. *)
Theorem X9_grouping_is_a_permutation :
  forall triples : list Triple,
    let by_subject := fold_left by_subject_step triples [] in
    NoDup (keys by_subject)
    /\ (forall s props, In (s, props) by_subject -> props <> [])
    /\ Permutation (ungroup by_subject) triples.
Proof.
  intros triples by_subject. unfold by_subject.
  rewrite by_subject_grouped. split; [|split].
  - unfold grouped, keys. rewrite map_map. cbn [fst]. rewrite map_id.
    apply first_appearances_NoDup.
  - intros s props Hin. unfold grouped in Hin.
    apply in_map_iff in Hin as (k & [= <- <-] & Hk).
    apply first_appearances_In, in_map_iff in Hk as (t & <- & Ht).
    unfold pairs_of. intros E. apply map_eq_nil in E.
    assert (X : In t (filter (fun t' => str_eqb (subject t') (subject t))
                        triples)).
    { apply filter_In. split; [assumption | apply str_eqb_refl]. }
    rewrite E in X. destruct X.
  - apply (Permutation_count_occ triple_dec). intros [[s p] o].
    rewrite ungroup_grouped.
    rewrite count_occ_tagged_groups by apply first_appearances_NoDup.
    destruct (in_dec str_dec s (first_appearances (map subject triples)))
      as [Hin | Hout].
    + apply pairs_of_count.
    + symmetry. apply count_occ_not_In. intros Hin. apply Hout.
      apply first_appearances_In, in_map_iff. now exists (s, p, o).
Qed.

(* ================================================================== *)
(** * Further properties of the selector *)
(* ================================================================== *)

Lemma scan_spec_In {A : Type} (M : str -> A -> str -> Prop)
  (s : str) (l : list A) (a : A) :
  scan_spec M s l -> In a l -> exists s' rest, M s' a rest.
Proof.
  induction 1 as [|c s l _ _ IH|s b rest l Hm _ IH]; intros Hin.
  - destruct Hin.
  - now apply IH.
  - destruct Hin as [<- | Hin]; [now exists s, rest | now apply IH].
Qed.

Lemma int_from_nonneg (s : str) (acc : Z) :
  0 <= acc -> 0 <= fold_left (fun a c => 10 * a + digit_val c) s acc.
Proof.
  revert acc. induction s as [|c s IH]; intros acc Hacc; cbn [fold_left];
    [assumption|].
  apply IH. unfold digit_val.
  pose proof (Zle_0_nat (code c - 48)). lia.
Qed.

Lemma int_nonneg (s : str) : 0 <= int s.
Proof. apply int_from_nonneg. lia. Qed.

Lemma upper_char_idempotent (c : ascii) :
  upper_char (upper_char c) = upper_char c.
Proof. by_char c. Qed.

Lemma upper_idempotent (s : str) : upper (upper s) = upper s.
Proof.
  unfold upper. rewrite map_map. apply map_ext.
  apply upper_char_idempotent.
Qed.

Lemma scan_records (text : str) :
  exists recs,
    scan_spec record_at text recs
    /\ scan_ifc_and_extract_lines text
       = filter (of_interest IFC_TYPES_OF_INTEREST) recs.
Proof.
  exists (map decode_record (finditer record_pattern text)). split.
  - apply finditer_scan_spec.
    + apply record_at_sound.
    + apply record_at_complete.
    + apply record_at_consumes.
  - apply scan_with_eq.
Qed.

(** X10.  What every selected record satisfies: its id is a natural
    number, its type is a non-empty string in the set of types of interest
    that upper-casing leaves as it is, and its argument text holds no
    closing parenthesis directly followed by a semicolon. *)
Theorem X10_selected_records :
  forall (text : str) (ent_id : Z) (ent_type args_str : str),
    In (ent_id, ent_type, args_str) (scan_ifc_and_extract_lines text) ->
    0 <= ent_id
    /\ set_mem ent_type IFC_TYPES_OF_INTEREST = true
    /\ ent_type <> []
    /\ upper ent_type = ent_type
    /\ (forall a b, args_str <> a ++ ")"%char :: ";"%char :: b).
Proof.
  intros text ent_id ent_type args_str Hin.
  destruct (scan_records text) as (recs & Hscan & E).
  rewrite E in Hin. apply filter_In in Hin as [Hin Hint].
  destruct (scan_spec_In _ _ _ _ Hscan Hin)
    as (s' & rest & ds & ident & args & Hshape & [= -> -> ->]).
  destruct Hshape as (w1 & w2 & w3 & _ & _ & _ & _ & _ & Hne & _ & _ & Hf).
  repeat split.
  - apply int_nonneg.
  - exact Hint.
  - destruct ident; [congruence | discriminate].
  - apply upper_idempotent.
  - exact Hf.
Qed.

Lemma X10_selected_records_witness :
  0 <= 10
  /\ set_mem (lit "IFCBUILDING") IFC_TYPES_OF_INTEREST = true
  /\ lit "IFCBUILDING" <> []
  /\ upper (lit "IFCBUILDING") = lit "IFCBUILDING"
  /\ (forall a b, lit "'G1','Main'" <> a ++ ")"%char :: ";"%char :: b).
Proof.
  refine (X10_selected_records sample_text 10 (lit "IFCBUILDING")
            (lit "'G1','Main'") _).
  vm_compute. left. reflexivity.
Defined.

Lemma record_match_needs_hash (c : ascii) (s : str) :
  c <> "#"%char -> match_ record_pattern (c :: s) = None.
Proof.
  intros Hc. unfold match_, record_pattern. cbn [run chr].
  destruct (Ascii.eqb "#" c) eqn:E; [|reflexivity].
  apply chr_eqb_true in E. contradiction.
Qed.

Lemma finditer_skips_prefix (pre s : str) :
  ~ In "#"%char pre ->
  finditer record_pattern (pre ++ s) = finditer record_pattern s.
Proof.
  induction pre as [|c pre IH]; intros Hno; [reflexivity|].
  cbn [app]. rewrite finditer_miss.
  - apply IH. intros H. apply Hno. now right.
  - apply record_match_needs_hash. intros ->. apply Hno. now left.
Qed.

(** X11.  Text without a hash sign starts no record: the selector returns
    for a text what it returns for the text without such a prefix, and
    nothing for a text without any hash sign. *)
Theorem X11_text_without_hash :
  forall pre s : str,
    ~ In "#"%char pre ->
    scan_ifc_and_extract_lines (pre ++ s) = scan_ifc_and_extract_lines s
    /\ scan_ifc_and_extract_lines pre = [].
Proof.
  intros pre s Hno. unfold scan_ifc_and_extract_lines.
  rewrite !scan_with_eq. split.
  - now rewrite finditer_skips_prefix.
  - rewrite <- (app_nil_r pre). now rewrite finditer_skips_prefix.
Qed.

Lemma X11_text_without_hash_witness :
  scan_ifc_and_extract_lines (lit "ISO-10303-21; DATA; " ++ sample_text)
  = scan_ifc_and_extract_lines sample_text.
Proof.
  refine (proj1 (X11_text_without_hash (lit "ISO-10303-21; DATA; ")
                   sample_text _)).
  intros H. simpl in H.
  repeat (destruct H as [H | H]; [discriminate H|]). exact H.
Defined.

(** X12.  A text that starts with a record: the selector returns that
    record, if its type is of interest, followed by what it returns for
    the text after the record. *)
Theorem X12_record_at_head :
  forall (s : str) (rec : RawRecord) (rest : str),
    record_at s rec rest ->
    scan_ifc_and_extract_lines s =
      (if of_interest IFC_TYPES_OF_INTEREST rec then [rec] else [])
      ++ scan_ifc_and_extract_lines rest.
Proof.
  intros s rec rest Hm. unfold scan_ifc_and_extract_lines.
  rewrite !scan_with_eq.
  destruct (record_at_consumes _ _ _ Hm) as (c & pre & ->).
  destruct (record_at_complete _ _ _ Hm) as (g & Hg & <-).
  rewrite (finditer_hit _ _ _ _ _ Hg). cbn [map filter].
  now destruct (of_interest IFC_TYPES_OF_INTEREST (decode_record g)).
Qed.

Lemma X12_record_at_head_witness :
  scan_ifc_and_extract_lines (lit "#7=IfcDoor('d','Door');#8=X();")
  = (if of_interest IFC_TYPES_OF_INTEREST
          (7, lit "IFCDOOR", lit "'d','Door'")
     then [(7, lit "IFCDOOR", lit "'d','Door'")] else [])
    ++ scan_ifc_and_extract_lines (lit "#8=X();").
Proof.
  refine (X12_record_at_head (lit "#7=IfcDoor('d','Door');#8=X();")
            (7, lit "IFCDOOR", lit "'d','Door'") (lit "#8=X();") _).
  exists (lit "7"), (lit "IfcDoor"), (lit "'d','Door'"). split.
  - exists [], [], []. repeat split; try reflexivity; try discriminate.
    intros a b E. apply (f_equal (existsb (Ascii.eqb ")"%char))) in E.
    rewrite existsb_app in E. cbn in E. rewrite orb_true_r in E.
    discriminate E.
  - reflexivity.
Defined.

(* ================================================================== *)
(** * Further properties of the parser *)
(* ================================================================== *)

Lemma in_dict_set {V : Type} (k k' : Z) (v v' : V) (d : dict Z V) :
  In (k, v) (dict_set Z.eqb k' v' d) ->
  (k = k' /\ v = v') \/ In (k, v) d.
Proof.
  induction d as [|[k2 v2] d IH]; simpl.
  - intros [[= <- <-] | []]. now left.
  - destruct (Z.eqb k' k2) eqn:E.
    + apply Z.eqb_eq in E. subst k2.
      intros [[= <- <-] | H]; [now left | right; now right].
    + intros [H | H]; [right; now left|].
      destruct (IH H) as [H' | H']; [now left | right; now right].
Qed.

Lemma entity_of_fields (ent_id : Z) (ent_type args_str : str) :
  id (entity_of (ent_id, ent_type, args_str)) = ent_id
  /\ type (entity_of (ent_id, ent_type, args_str)) = upper ent_type.
Proof.
  unfold entity_of.
  destruct (match_ entity_args_pattern args_str) as [[g rest]|];
    split; reflexivity.
Qed.

Lemma parse_entities_from_lines (lines : list RawRecord) :
  forall k e,
    In (k, e) (fst (parse_selected_ifc_lines lines)) ->
    exists ty args,
      In (k, ty, args) lines /\ is_entity_type ty = true
      /\ e = entity_of (k, ty, args).
Proof.
  induction lines as [|[[i ty] args] lines IH] using rev_ind;
    intros k e Hin.
  - destruct Hin.
  - rewrite parse_snoc in Hin.
    destruct (is_entity_type ty) eqn:Ht.
    + rewrite parse_step_entity in Hin by assumption. cbn [fst] in Hin.
      apply in_dict_set in Hin as [[-> ->] | Hin].
      * exists ty, args. split; [|now split].
        apply in_or_app. right. now left.
      * destruct (IH _ _ Hin) as (ty' & args' & H1 & H2 & H3).
        exists ty', args'. split; [|now split].
        apply in_or_app. now left.
    + rewrite parse_step_other in Hin by assumption.
      destruct (IH _ _ Hin) as (ty' & args' & H1 & H2 & H3).
      exists ty', args'. split; [|now split].
      apply in_or_app. now left.
Qed.

(** X13.  What every item of the parser's entity mapping satisfies: the
    entity is the one built from an entity line of that id, so the id the
    entity stores is its key and its type is a zone, element or root type;
    and the keys are pairwise distinct. *)
Theorem X13_parsed_entities :
  forall (lines : list RawRecord) (k : Z) (e : IfcEntity),
    In (k, e) (fst (parse_selected_ifc_lines lines)) ->
    NoDup (keys (fst (parse_selected_ifc_lines lines)))
    /\ id e = k
    /\ is_entity_type (type e) = true
    /\ exists args, In (k, type e, args) lines
                    /\ e = entity_of (k, type e, args).
Proof.
  intros lines k e Hin.
  split; [apply parse_fold_NoDup; constructor|].
  destruct (parse_entities_from_lines _ _ _ Hin) as (ty & args & H1 & H2 & ->).
  destruct (entity_of_fields k ty args) as [Hid Hty].
  rewrite Hid, Hty, (entity_type_upper _ H2).
  repeat split; try assumption. now exists args.
Qed.

Lemma X13_parsed_entities_witness :
  NoDup (keys (fst (parse_selected_ifc_lines [sample_wall_line])))
  /\ id (entity_of sample_wall_line) = 5
  /\ is_entity_type (type (entity_of sample_wall_line)) = true
  /\ exists args,
       In (5, type (entity_of sample_wall_line), args) [sample_wall_line]
       /\ entity_of sample_wall_line
          = entity_of (5, type (entity_of sample_wall_line), args).
Proof.
  refine (X13_parsed_entities [sample_wall_line] 5
            (entity_of sample_wall_line) _).
  vm_compute. left. reflexivity.
Defined.

Lemma relation_type_upper (ty : str) :
  is_relation_type ty = true -> upper ty = ty.
Proof.
  intros H. apply (dict_mem_keys str_eqb str_eqb_eq) in H. simpl in H.
  repeat (destruct H as [<- | H]; [reflexivity|]). destruct H.
Qed.

Lemma parse_step_relationships (st : parsed) (line : RawRecord) :
  snd (parse_step st line) = snd st ++ relationships_of line.
Proof.
  destruct st as [entities relationships].
  destruct line as [[i ty] args]. unfold relationships_of.
  destruct (is_entity_type ty) eqn:Ht.
  - rewrite !parse_step_entity by assumption. cbn [snd].
    now rewrite app_nil_r.
  - destruct (is_relation_type ty) eqn:Hr.
    + rewrite !parse_step_relation by assumption.
      destruct (map int (findall ref_pattern args)) as [|p [|c cs]];
        cbn [snd app]; rewrite ?app_nil_r; reflexivity.
    + unfold parse_step. rewrite Ht, Hr. cbn [snd]. now rewrite app_nil_r.
Qed.

Lemma parse_relationships (lines : list RawRecord) :
  snd (parse_selected_ifc_lines lines) = flat_map relationships_of lines.
Proof.
  induction lines as [|line lines IH] using rev_ind; [reflexivity|].
  rewrite parse_snoc, parse_step_relationships, IH, flat_map_app.
  cbn [flat_map]. now rewrite app_nil_r.
Qed.

Lemma relationships_of_cases (i : Z) (ty args : str) (r : IfcRelationship) :
  In r (relationships_of (i, ty, args)) ->
  is_relation_type ty = true
  /\ exists p c cs,
       map int (findall ref_pattern args) = p :: c :: cs
       /\ r = IfcRelationship_init i ty p (c :: cs).
Proof.
  unfold relationships_of.
  destruct (is_entity_type ty) eqn:Ht.
  - rewrite parse_step_entity by assumption. intros [].
  - destruct (is_relation_type ty) eqn:Hr.
    + rewrite parse_step_relation by assumption.
      destruct (map int (findall ref_pattern args)) as [|p [|c cs]];
        cbn [snd app]; [intros [] | intros [] |].
      intros [<- | []]. split; [reflexivity|]. now exists p, c, cs.
    + unfold parse_step. rewrite Ht, Hr. intros [].
Qed.

(** X14.  The relationships of the parser's result are those of the
    lines, line by line and in the order of the lines, at most one per
    line.  Each has the id and the (relation) type of its line, at least
    one child, and a parent and children that are natural numbers. *)
Theorem X14_parsed_relationships :
  forall lines : list RawRecord,
    snd (parse_selected_ifc_lines lines) = flat_map relationships_of lines
    /\ (forall line, (length (relationships_of line) <= 1)%nat)
    /\ (forall r,
          In r (snd (parse_selected_ifc_lines lines)) ->
          is_relation_type (rel_type r) = true
          /\ (exists args, In (rel_id r, rel_type r, args) lines)
          /\ child_ids r <> []
          /\ 0 <= parent_id r
          /\ Forall (fun c => 0 <= c) (child_ids r)).
Proof.
  intros lines. split; [apply parse_relationships|]. split.
  - intros [[i ty] args]. unfold relationships_of.
    destruct (is_entity_type ty) eqn:Ht.
    + rewrite parse_step_entity by assumption. simpl. lia.
    + destruct (is_relation_type ty) eqn:Hr.
      * rewrite parse_step_relation by assumption.
        destruct (map int (findall ref_pattern args)) as [|p [|c cs]];
          simpl; lia.
      * unfold parse_step. rewrite Ht, Hr. simpl. lia.
  - intros r Hin. rewrite parse_relationships in Hin.
    apply in_flat_map in Hin as ([[i ty] args] & Hline & Hr).
    apply relationships_of_cases in Hr as (Hty & p & c & cs & Hnums & ->).
    unfold IfcRelationship_init.
    cbn [rel_type rel_id child_ids parent_id].
    rewrite (relation_type_upper _ Hty).
    assert (Hall : Forall (fun n => 0 <= n) (p :: c :: cs)).
    { rewrite <- Hnums. apply Forall_forall. intros n Hn.
      apply in_map_iff in Hn as (ds & <- & _). apply int_nonneg. }
    inversion Hall as [|? ? Hp Hcs]; subst.
    repeat split; try assumption.
    + now exists args.
    + discriminate.
Qed.

Lemma parse_step_not_of_interest (st : parsed) (line : RawRecord) :
  of_interest IFC_TYPES_OF_INTEREST line = false ->
  parse_step st line = st.
Proof.
  destruct line as [[i ty] args]. unfold of_interest. cbn [fst snd].
  rewrite types_of_interest_mem. intros H.
  apply orb_false_iff in H as [Ht Hr].
  destruct st as [entities relationships].
  unfold parse_step. now rewrite Ht, Hr.
Qed.

(** X15.  The parser passes over every line whose type is not of
    interest: the result for a sequence of lines is the result for its
    lines of interest. *)
Theorem X15_lines_out_of_interest :
  forall lines : list RawRecord,
    parse_selected_ifc_lines lines =
    parse_selected_ifc_lines
      (filter (of_interest IFC_TYPES_OF_INTEREST) lines).
Proof.
  intros lines. unfold parse_selected_ifc_lines.
  generalize (([], []) : parsed).
  induction lines as [|line lines IH]; intros st; [reflexivity|].
  cbn [fold_left filter].
  destruct (of_interest IFC_TYPES_OF_INTEREST line) eqn:E.
  - cbn [fold_left]. apply IH.
  - rewrite (parse_step_not_of_interest _ _ E). apply IH.
Qed.

(* ================================================================== *)
(** * Further properties of the whole pipeline *)
(* ================================================================== *)

(** X16.  A text without a hash sign holds no record, and converts to the
    bare header: the four namespace-prefix declarations. *)
Theorem X16_text_without_records :
  forall text : str,
    ~ In "#"%char text ->
    convert text = header.
Proof.
  intros text Hno. unfold convert, convert_with.
  rewrite scan_with_eq.
  rewrite <- (app_nil_r text), (finditer_skips_prefix _ _ Hno).
  vm_compute. reflexivity.
Qed.

Lemma X16_text_without_records_witness :
  convert (lit "ISO-10303-21; HEADER; ENDSEC; END-ISO-10303-21;") = header.
Proof.
  refine (X16_text_without_records
            (lit "ISO-10303-21; HEADER; ENDSEC; END-ISO-10303-21;") _).
  intros H. simpl in H.
  repeat (destruct H as [H | H]; [discriminate H|]). exact H.
Defined.

Lemma type_and_label_counts (entities : dict Z IfcEntity)
  (rels : list IfcRelationship) (k : Z) :
  NoDup (keys entities) ->
  (length (filter (about k rdfs_label) (ifc_to_bot_triples entities rels))
   <= length (filter (about k rdf_type) (ifc_to_bot_triples entities rels))
   <= 1)%nat.
Proof.
  intros Hnd. rewrite ifc_to_bot_triples_eq, !filter_app.
  rewrite (about_relationships _ _ _ _ rdf_type_not_relationship).
  rewrite (about_relationships _ _ _ _ rdfs_label_not_relationship).
  rewrite !app_nil_r.
  destruct (dict_get Z.eqb k entities) as [e|] eqn:Eg.
  - apply (dict_get_In Z.eqb Z_eqb_eq) in Eg.
    rewrite !(about_entities _ _ e _ Hnd Eg), entity_triples_cases.
    destruct (classify_ifc_entity e) as [cls|]; [|simpl; lia].
    cbn [filter]. rewrite !about_self.
    rewrite (about_other_predicate k rdfs_label rdf_type) by discriminate.
    destruct (name e) as [|c n]; cbn [filter]; [simpl; lia|].
    rewrite about_self.
    rewrite (about_other_predicate k rdf_type rdfs_label) by discriminate.
    simpl. lia.
  - apply (dict_get_None Z.eqb Z_eqb_eq) in Eg.
    rewrite !about_absent by assumption. simpl. lia.
Qed.

(** X17.  In the triples the pipeline computes from a text, a subject has
    at most one rdf:type triple, and at most as many rdfs:label triples as
    rdf:type triples: no instance gets two classes, and no label comes
    without a class. *)
Theorem X17_one_class_per_subject :
  forall (text : str) (k : Z),
    (length (filter (about k rdfs_label) (triples_of_text text))
     <= length (filter (about k rdf_type) (triples_of_text text))
     <= 1)%nat.
Proof.
  intros text k. unfold triples_of_text.
  pose proof (parse_fold_NoDup (scan_ifc_and_extract_lines text) ([], [])
                (NoDup_nil Z)) as Hnd.
  fold (parse_selected_ifc_lines (scan_ifc_and_extract_lines text)) in Hnd.
  destruct (parse_selected_ifc_lines (scan_ifc_and_extract_lines text))
    as [entities relationships].
  now apply type_and_label_counts.
Qed.

(** X18.  Instance identifiers tell ids apart: two ids have the same
    instance identifier only if they are equal. *)
Theorem X18_instance_identifiers_injective :
  forall a b : Z, inst a = inst b <-> a = b.
Proof.
  intros a b. split; [apply inst_inj | now intros ->].
Qed.

(* ================================================================== *)
(** * Names and literals *)
(* ================================================================== *)

Lemma escape_quotes_head (s : str) (x : str) :
  escape_quotes s <> dquote :: x.
Proof.
  destruct s as [|c s]; simpl; [discriminate|].
  destruct (Ascii.eqb c dquote) eqn:E; simpl.
  - discriminate.
  - intros [= -> _]. rewrite Ascii.eqb_refl in E. discriminate.
Qed.

Lemma escape_quotes_cons (c : ascii) (s : str) :
  escape_quotes (c :: s) =
  (if Ascii.eqb c dquote then [backslash; dquote] else [c])
  ++ escape_quotes s.
Proof. reflexivity. Qed.

Lemma escape_quotes_inj (s1 s2 : str) :
  escape_quotes s1 = escape_quotes s2 -> s1 = s2.
Proof.
  revert s2. induction s1 as [|c1 s1 IH]; intros [|c2 s2].
  - reflexivity.
  - rewrite escape_quotes_cons.
    destruct (Ascii.eqb c2 dquote); discriminate.
  - rewrite escape_quotes_cons.
    destruct (Ascii.eqb c1 dquote); discriminate.
  - rewrite !escape_quotes_cons.
    destruct (Ascii.eqb c1 dquote) eqn:E1;
      destruct (Ascii.eqb c2 dquote) eqn:E2; cbn [app].
    + apply Ascii.eqb_eq in E1, E2. subst.
      intros [= H]. f_equal. now apply IH.
    + intros [= <- H]. symmetry in H. now apply escape_quotes_head in H.
    + intros [= -> H]. now apply escape_quotes_head in H.
    + intros [= <- H]. f_equal. now apply IH.
Qed.

(** X20.  The label literal determines the name: two names with the same
    quoted, escaped literal are equal.  A name without a double quote is
    put between the quotes as it is (a backslash in it is not escaped). *)
Theorem X20_label_literals :
  forall n1 n2 : str,
    (quoted (escape_quotes n1) = quoted (escape_quotes n2) <-> n1 = n2)
    /\ (~ In dquote n1 -> escape_quotes n1 = n1).
Proof.
  intros n1 n2. split; [split|].
  - unfold quoted. intros H. cbn [app] in H. injection H as H.
    apply app_inv_tail in H. now apply escape_quotes_inj.
  - now intros ->.
  - induction n1 as [|c s IH]; intros Hno; [reflexivity|].
    rewrite escape_quotes_cons.
    destruct (Ascii.eqb c dquote) eqn:E.
    + apply Ascii.eqb_eq in E. subst c. exfalso. apply Hno. now left.
    + cbn [app]. f_equal. apply IH. intros H. apply Hno. now right.
Qed.

Lemma all_not_quote (s : str) :
  all not_quote s -> ~ In "'"%char s.
Proof.
  unfold all. intros H Hin.
  rewrite forallb_forall in H. apply H in Hin. discriminate Hin.
Qed.

(** X21.  The name and the global identifier of every entity the parser
    stores hold no single quote: they are the insides of two literals, or
    empty. *)
Theorem X21_parsed_fields_have_no_quote :
  forall (lines : list RawRecord) (k : Z) (e : IfcEntity),
    In (k, e) (fst (parse_selected_ifc_lines lines)) ->
    ~ In "'"%char (name e) /\ ~ In "'"%char (global_id e).
Proof.
  intros lines k e Hin.
  destruct (parse_entities_from_lines _ _ _ Hin) as (ty & args & _ & _ & ->).
  unfold entity_of.
  destruct (match_ entity_args_pattern args) as [[g rest]|] eqn:E.
  - apply two_literals_sound in E.
    destruct E as (w1 & w2 & _ & Hg & _ & _ & Hn).
    cbn [IfcEntity_init name global_id].
    split; now apply all_not_quote.
  - cbn [IfcEntity_init name global_id]. split; intros [].
Qed.

Lemma X21_parsed_fields_have_no_quote_witness :
  ~ In "'"%char (name (entity_of sample_wall_line))
  /\ ~ In "'"%char (global_id (entity_of sample_wall_line)).
Proof.
  refine (X21_parsed_fields_have_no_quote [sample_wall_line] 5
            (entity_of sample_wall_line) _).
  vm_compute. left. reflexivity.
Defined.

(* ================================================================== *)
(** * Loops and comprehensions that may raise *)
(* ================================================================== *)

Lemma for_each_checked {A B : Type} (step : B -> A -> result B)
  (ok : A -> bool) (pure : B -> A -> B) :
  (forall acc x, step acc x = if ok x then Ok (pure acc x) else ValueError) ->
  forall l acc,
    for_each step l acc =
    if forallb ok l then Ok (fold_left pure l acc) else ValueError.
Proof.
  intros H l. induction l as [|x l IH]; intros acc; simpl; [reflexivity|].
  rewrite H. destruct (ok x); simpl; [apply IH | reflexivity].
Qed.

Lemma comprehension_checked {A B : Type} (f : A -> result B)
  (ok : A -> bool) (g : A -> B) :
  (forall x, f x = if ok x then Ok (g x) else ValueError) ->
  forall l,
    comprehension f l = if forallb ok l then Ok (map g l) else ValueError.
Proof.
  intros H l. induction l as [|x l IH]; simpl; [reflexivity|].
  rewrite H. destruct (ok x); simpl; [|reflexivity].
  rewrite IH. now destruct (forallb ok l).
Qed.

Lemma for_each_app {A B : Type} (step : B -> A -> result B)
  (l1 l2 : list A) (acc : B) :
  for_each step (l1 ++ l2) acc =
  bind (for_each step l1 acc) (for_each step l2).
Proof.
  revert acc. induction l1 as [|x l1 IH]; intros acc; simpl; [reflexivity|].
  destruct (step acc x); simpl; [apply IH | reflexivity].
Qed.


Lemma forallb_map {A B : Type} (ok : B -> bool) (f : A -> B) (l : list A) :
  forallb ok (map f l) = forallb (fun x => ok (f x)) l.
Proof.
  induction l as [|x l IH]; simpl; [reflexivity|]. now rewrite IH.
Qed.

(* ================================================================== *)
(** * The mapping engine with conversions that may raise *)
(* ================================================================== *)

Section CheckedEngine.

Context {rt : Runtime}.

Lemma exceeds_spec (n : nat) :
  exceeds n = false <->
  (n <= 640 \/ int_max_str_digits = 0 \/ n <= int_max_str_digits)%nat.
Proof.
  unfold exceeds.
  rewrite !Bool.andb_false_iff, !Nat.ltb_ge. lia.
Qed.

Lemma checked_inst (n : Z) :
  Checked.inst n = if Checked.fits n then Ok (inst n) else ValueError.
Proof.
  unfold Checked.inst, Checked.str_of_int.
  now destruct (Checked.fits n).
Qed.





End CheckedEngine.




(* ================================================================== *)
(** * The program over Unicode text *)
(* ================================================================== *)

(** From here on the names of the selector, the parser and the matcher
    are those of the module [Unicode]. *)

Section UnicodeText.

Import Unicode.

Context {rt : Runtime}.


(* ================================================================== *)
(** * The matcher over code points *)
(* ================================================================== *)

Section UMatcherFacts.

Context {A : Type}.
Implicit Types (cls : codepoint -> bool) (k : ustr -> option A).

Lemma u_star_none cls s k :
  star cls s k = None <->
  (forall q rest, s = q ++ rest -> all cls q -> k rest = None).
Proof.
  induction s as [|c t IH]; simpl.
  - split.
    + intros H q rest E _. symmetry in E.
      apply app_eq_nil in E as [-> ->]. exact H.
    + intros H. now apply (H [] []).
  - destruct (cls c) eqn:Ec.
    + destruct (star cls t k) as [a|] eqn:Es.
      * split; [discriminate|]. intros H.
        apply IH. intros q rest E Hq. apply (H (c :: q) rest).
        -- now rewrite E.
        -- unfold all. simpl. now rewrite Ec.
      * split.
        -- intros Hk [|c' q] rest E Hq; simpl in E.
           ++ now subst.
           ++ injection E as <- E. apply (proj1 IH eq_refl q rest E).
              unfold all in *. simpl in Hq.
              now apply andb_true_iff in Hq as [_ Hq].
        -- intros H. now apply (H [] (c :: t)).
    + split.
      * intros Hk [|c' q] rest E Hq; simpl in E.
        -- now subst.
        -- injection E as <- E. unfold all in Hq. simpl in Hq.
           rewrite Ec in Hq. discriminate.
      * intros H. now apply (H [] (c :: t)).
Qed.

(** Greedy repetition succeeds with the longest prefix in the class after
    which the rest of the pattern succeeds. *)
Lemma u_star_some cls s k a :
  star cls s k = Some a <->
  exists pre rest,
    s = pre ++ rest /\ all cls pre /\ k rest = Some a /\
    (forall q rest', rest = q ++ rest' -> q <> [] -> all cls q ->
                     k rest' = None).
Proof.
  induction s as [|c t IH]; simpl.
  - split.
    + intros H. exists [], []. repeat split; try assumption.
      intros q rest' E Hq. symmetry in E.
      apply app_eq_nil in E as [-> _]. congruence.
    + intros (pre & rest & E & _ & Hk & _). symmetry in E.
      apply app_eq_nil in E as [-> ->]. exact Hk.
  - destruct (cls c) eqn:Ec.
    + destruct (star cls t k) as [a'|] eqn:Es.
      * split.
        -- intros [= ->].
           destruct (proj1 IH eq_refl) as (pre & rest & -> & Hp & Hk & Hmax).
           exists (c :: pre), rest. repeat split; try assumption.
           unfold all in *. simpl. now rewrite Ec.
        -- intros (pre & rest & E & Hp & Hk & Hmax).
           destruct pre as [|c' pre]; simpl in E.
           ++ subst rest.
              assert (X : star cls t k = None).
              { apply u_star_none. intros q rest' E Hq.
                apply (Hmax (c :: q) rest').
                - now rewrite E.
                - discriminate.
                - unfold all in *. simpl. now rewrite Ec. }
              congruence.
           ++ injection E as <- E.
              apply IH. exists pre, rest. repeat split; try assumption.
              unfold all in *. simpl in Hp.
              now apply andb_true_iff in Hp as [_ Hp].
      * split.
        -- intros Hk. exists [], (c :: t). repeat split; try assumption.
           intros [|c' q] rest' E Hne Hq; [congruence|].
           simpl in E. injection E as <- E.
           apply (proj1 (u_star_none cls t k) Es q rest' E).
           unfold all in *. simpl in Hq.
           now apply andb_true_iff in Hq as [_ Hq].
        -- intros (pre & rest & E & Hp & Hk & Hmax).
           destruct pre as [|c' pre]; simpl in E; [now subst|].
           injection E as <- E.
           rewrite (proj1 (u_star_none cls t k) Es pre rest E) in Hk;
             [discriminate|].
           unfold all in *. simpl in Hp.
           now apply andb_true_iff in Hp as [_ Hp].
    + split.
      * intros Hk. exists [], (c :: t). repeat split; try assumption.
        intros [|c' q] rest' E Hne Hq; [congruence|].
        simpl in E. injection E as <- E. unfold all in Hq. simpl in Hq.
        rewrite Ec in Hq. discriminate.
      * intros (pre & rest & E & Hp & Hk & Hmax).
        destruct pre as [|c' pre]; simpl in E; [now subst|].
        injection E as <- E. unfold all in Hp. simpl in Hp.
        rewrite Ec in Hp. discriminate.
Qed.

(** When the text after the prefix does not go on in the class, the prefix
    is the longest one. *)
Lemma u_star_hit cls pre rest k a :
  all cls pre -> stops cls rest -> k rest = Some a ->
  star cls (pre ++ rest) k = Some a.
Proof.
  intros Hp Hs Hk. apply u_star_some. exists pre, rest.
  repeat split; try assumption.
  intros [|c q] rest' -> Hne Hq; [congruence|].
  simpl in Hs. unfold all in Hq. simpl in Hq. rewrite Hs in Hq.
  discriminate.
Qed.

(** Lazy repetition succeeds with the shortest prefix in the class after
    which the rest of the pattern succeeds. *)
Lemma u_lazy_star_some cls s k a :
  lazy_star cls s k = Some a <->
  exists pre rest,
    s = pre ++ rest /\ all cls pre /\ k rest = Some a /\
    (forall p1 p2, pre = p1 ++ p2 -> p2 <> [] -> k (p2 ++ rest) = None).
Proof.
  induction s as [|c t IH].
  - simpl. destruct (k []) as [a'|] eqn:Ek.
    + split.
      * intros [= ->]. exists [], []. repeat split; try assumption.
        intros p1 p2 E. symmetry in E.
        apply app_eq_nil in E as [_ ->]. congruence.
      * intros (pre & rest & E & _ & Hk & _). symmetry in E.
        apply app_eq_nil in E as [-> ->]. congruence.
    + split; [discriminate|].
      intros (pre & rest & E & _ & Hk & _). symmetry in E.
      apply app_eq_nil in E as [-> ->]. congruence.
  - cbn [lazy_star]. destruct (k (c :: t)) as [a'|] eqn:Ek.
    + split.
      * intros [= ->]. exists [], (c :: t). repeat split; try assumption.
        intros p1 p2 E. symmetry in E.
        apply app_eq_nil in E as [_ ->]. congruence.
      * intros (pre & rest & E & _ & Hk & Hmin).
        destruct pre as [|c' pre]; simpl in E; [subst; congruence|].
        pose proof (Hmin [] (c' :: pre) eq_refl ltac:(discriminate)) as X.
        simpl in X. rewrite <- E in X. congruence.
    + destruct (cls c) eqn:Ec.
      * rewrite IH. split.
        -- intros (pre & rest & -> & Hp & Hk & Hmin).
           exists (c :: pre), rest. repeat split; try assumption.
           ++ unfold all in *. simpl. now rewrite Ec.
           ++ intros [|c1 p1] p2 E Hne; simpl in E.
              ** now subst p2.
              ** injection E as <- E. now apply (Hmin p1 p2).
        -- intros (pre & rest & E & Hp & Hk & Hmin).
           destruct pre as [|c' pre]; simpl in E; [subst; congruence|].
           injection E as <- E. exists pre, rest.
           repeat split; try assumption.
           ++ unfold all in *. simpl in Hp.
              now apply andb_true_iff in Hp as [_ Hp].
           ++ intros p1 p2 -> Hne. now apply (Hmin (c :: p1) p2).
      * split; [discriminate|].
        intros (pre & rest & E & Hp & Hk & Hmin).
        destruct pre as [|c' pre]; simpl in E; [subst; congruence|].
        injection E as <- E. unfold all in Hp. simpl in Hp.
        rewrite Ec in Hp. discriminate.
Qed.

End UMatcherFacts.

Lemma u_all_nil cls : all cls [].
Proof. reflexivity. Qed.

Lemma u_all_cons cls c s : all cls (c :: s) <-> cls c = true /\ all cls s.
Proof. unfold all. simpl. apply andb_true_iff. Qed.


(* ================================================================== *)
(** * Scanning a Unicode text for the matches of a pattern *)
(* ================================================================== *)

Section UFinditerFacts.

Context {A : Type}.
Variable r : regex.
Variable decode : groups -> A.
Variable M : ustr -> A -> ustr -> Prop.

Hypothesis match_sound :
  forall s g rest, match_ r s = Some (g, rest) -> M s (decode g) rest.
Hypothesis match_complete :
  forall s a rest,
    M s a rest -> exists g, match_ r s = Some (g, rest) /\ decode g = a.
Hypothesis match_consumes :
  forall s a rest, M s a rest -> exists c pre, s = c :: pre ++ rest.

Lemma u_finditer_from_skip (pre rest : ustr) :
  finditer_from r (length pre) (pre ++ rest) = finditer_from r 0 rest.
Proof.
  induction pre as [|c pre IH]; simpl; [|exact IH].
  destruct rest; reflexivity.
Qed.

Lemma u_finditer_hit (c : codepoint) (pre rest : ustr) (g : groups) :
  match_ r (c :: pre ++ rest) = Some (g, rest) ->
  finditer r (c :: pre ++ rest) = g :: finditer r rest.
Proof.
  intros H. unfold finditer. cbn [finditer_from]. rewrite H.
  f_equal.
  replace (length (c :: pre ++ rest) - length rest - 1)%nat
    with (length pre) by (cbn [length]; rewrite length_app; lia).
  apply u_finditer_from_skip.
Qed.

Lemma u_finditer_miss (c : codepoint) (s : ustr) :
  match_ r (c :: s) = None -> finditer r (c :: s) = finditer r s.
Proof.
  intros H. unfold finditer. cbn [finditer_from]. now rewrite H.
Qed.

(** Every left-to-right reading of the text is the one [finditer]
    computes. *)
Lemma u_scan_spec_unique (s : ustr) (l : list A) :
  scan_spec M s l -> l = map decode (finditer r s).
Proof.
  induction 1 as [|c s l Hno _ IH|s a rest l Hm _ IH].
  - reflexivity.
  - rewrite u_finditer_miss; [exact IH|].
    destruct (match_ r (c :: s)) as [[g rest]|] eqn:E; [|reflexivity].
    apply match_sound in E. now apply Hno in E.
  - destruct (match_consumes _ _ _ Hm) as (c & pre & ->).
    destruct (match_complete _ _ _ Hm) as (g & Hg & <-).
    rewrite (u_finditer_hit _ _ _ _ Hg). simpl. now rewrite IH.
Qed.

Lemma u_finditer_scan_spec_len (n : nat) :
  forall s, (length s <= n)%nat -> scan_spec M s (map decode (finditer r s)).
Proof.
  induction n as [|n IH]; intros s Hlen.
  - destruct s; [constructor | simpl in Hlen; lia].
  - destruct s as [|c s]; [constructor|].
    destruct (match_ r (c :: s)) as [[g rest]|] eqn:E.
    + pose proof (match_sound _ _ _ E) as Hm.
      destruct (match_consumes _ _ _ Hm) as (c' & pre & Hs).
      injection Hs as <- ->.
      rewrite (u_finditer_hit _ _ _ _ E). simpl.
      apply scan_hit with rest; [exact Hm|].
      apply IH. simpl in Hlen. rewrite length_app in Hlen. lia.
    + rewrite (u_finditer_miss _ _ E). apply scan_skip.
      * intros a rest Hm.
        destruct (match_complete _ _ _ Hm) as (g & Hg & _). congruence.
      * apply IH. simpl in Hlen. lia.
Qed.

(** [finditer] computes a left-to-right reading of the text. *)
Lemma u_finditer_scan_spec (s : ustr) :
  scan_spec M s (map decode (finditer r s)).
Proof. apply (u_finditer_scan_spec_len (length s)). lia. Qed.

End UFinditerFacts.


(* ================================================================== *)
(** * Character classes of the runtime *)
(* ================================================================== *)

(** A class of the runtime at an ASCII code point. *)
Ltac ascii_class :=
  first [ rewrite uni_space_ascii by reflexivity
        | rewrite uni_digit_ascii by reflexivity
        | rewrite uni_word_ascii by reflexivity ];
  reflexivity.

Lemma u_space_not_digit c : uni_space c = true -> uni_digit c = false.
Proof.
  intros H. destruct (uni_digit c) eqn:E; [|reflexivity].
  apply uni_digit_word in E. apply uni_space_not_word in H. congruence.
Qed.

Lemma u_word_not_space c : uni_word c = true -> uni_space c = false.
Proof.
  intros H. destruct (uni_space c) eqn:E; [|reflexivity].
  apply uni_space_not_word in E. congruence.
Qed.

Lemma u_stops_after_spaces cls (w : ustr) (c : codepoint) (x : ustr) :
  (forall d, uni_space d = true -> cls d = false) ->
  cls c = false -> all uni_space w -> stops cls (w ++ c :: x).
Proof.
  intros Hd Hc Hw. destruct w as [|d w]; simpl; [exact Hc|].
  apply u_all_cons in Hw as [Hd' _]. now apply Hd.
Qed.

(* ================================================================== *)
(** * The three patterns over Unicode text *)
(* ================================================================== *)

Lemma u_chr_eqb_true (a c : codepoint) : N.eqb a c = true -> c = a.
Proof. intros H. apply N.eqb_eq in H. now subst. Qed.

(** ** The reference pattern *)

Lemma u_ref_match_sound (s : ustr) (g : groups) (rest : ustr) :
  match_ ref_pattern s = Some (g, rest) ->
  ref_shape s (group 1 g) rest.
Proof.
  unfold match_, ref_pattern. cbn [run].
  destruct s as [|c t]; [discriminate|].
  destruct (N.eqb hash c) eqn:Ec; [|discriminate].
  apply u_chr_eqb_true in Ec. subst c.
  destruct t as [|d t]; [discriminate|].
  destruct (uni_digit d) eqn:Ed; [|discriminate].
  intros H. apply u_star_some in H as (pre & rest' & -> & Hp & Hk & Hmax).
  rewrite firstn_consumed_cons in Hk.
  injection Hk as <- <-. cbn [group Nat.eqb].
  repeat split.
  - discriminate.
  - now apply u_all_cons.
  - destruct rest' as [|c x]; simpl; [trivial|].
    destruct (uni_digit c) eqn:E; [|reflexivity].
    specialize (Hmax [c] x eq_refl).
    discriminate Hmax; [discriminate|]. apply u_all_cons. now split.
Qed.

Lemma u_ref_match_complete (s : ustr) (ds : ustr) (rest : ustr) :
  ref_shape s ds rest ->
  exists g, match_ ref_pattern s = Some (g, rest) /\ group 1 g = ds.
Proof.
  intros (-> & Hne & Hd & Hs).
  destruct ds as [|d ds]; [congruence|].
  apply u_all_cons in Hd as [Hd Hds].
  exists [(1%nat, d :: ds)]. split; [|reflexivity].
  unfold match_, ref_pattern. cbn [run app].
  rewrite N.eqb_refl, Hd.
  apply u_star_hit; try assumption.
  now rewrite firstn_consumed_cons.
Qed.

Lemma u_ref_shape_consumes (s : ustr) (ds : ustr) (rest : ustr) :
  ref_shape s ds rest -> exists c pre, s = c :: pre ++ rest.
Proof. intros (-> & _). now exists hash, ds. Qed.

(** ** The pattern of the two leading literals *)

Lemma u_two_literals_sound (s : ustr) (g : groups) (rest : ustr) :
  match_ entity_args_pattern s = Some (g, rest) ->
  two_literals_at s (group 1 g, group 2 g) rest.
Proof.
  unfold match_, entity_args_pattern. cbn [run].
  destruct s as [|c t]; [discriminate|].
  destruct (N.eqb quote c) eqn:Ec; [|discriminate].
  apply u_chr_eqb_true in Ec. subst c.
  intros H. apply u_star_some in H as (gid & t1 & -> & Hgid & H & _).
  cbv beta in H. rewrite firstn_consumed in H.
  destruct t1 as [|c t1]; [discriminate|].
  destruct (N.eqb quote c) eqn:Ec; [|discriminate].
  apply u_chr_eqb_true in Ec. subst c.
  apply u_star_some in H as (w1 & t2 & -> & Hw1 & H & _).
  destruct t2 as [|c t2]; [discriminate|].
  destruct (N.eqb comma c) eqn:Ec; [|discriminate].
  apply u_chr_eqb_true in Ec. subst c.
  apply u_star_some in H as (w2 & t3 & -> & Hw2 & H & _).
  destruct t3 as [|c t3]; [discriminate|].
  destruct (N.eqb quote c) eqn:Ec; [|discriminate].
  apply u_chr_eqb_true in Ec. subst c.
  apply u_star_some in H as (nm & t4 & -> & Hnm & H & _).
  cbv beta in H. rewrite firstn_consumed in H.
  destruct t4 as [|c t4]; [discriminate|].
  destruct (N.eqb quote c) eqn:Ec; [|discriminate].
  apply u_chr_eqb_true in Ec. subst c.
  injection H as <- <-. cbn [group Nat.eqb].
  exists w1, w2. repeat split; assumption.
Qed.

Lemma u_two_literals_complete (s : ustr) (gid nm rest : ustr) :
  two_literals_at s (gid, nm) rest ->
  match_ entity_args_pattern s = Some ([(2%nat, nm); (1%nat, gid)], rest).
Proof.
  intros (w1 & w2 & -> & Hgid & Hw1 & Hw2 & Hnm).
  unfold match_, entity_args_pattern. cbn [run].
  rewrite N.eqb_refl.
  apply u_star_hit; [assumption | reflexivity |].
  rewrite N.eqb_refl.
  apply u_star_hit; [assumption | simpl; ascii_class |].
  rewrite N.eqb_refl.
  apply u_star_hit; [assumption | simpl; ascii_class |].
  rewrite N.eqb_refl.
  apply u_star_hit; [assumption | reflexivity |].
  rewrite N.eqb_refl.
  now rewrite !firstn_consumed.
Qed.

(** The argument text has at most one reading of that shape. *)
Lemma u_two_literals_unique (s : ustr) (m m' : ustr * ustr)
  (rest rest' : ustr) :
  two_literals_at s m rest -> two_literals_at s m' rest' -> m = m'.
Proof.
  destruct m as [gid nm], m' as [gid' nm']. intros H H'.
  apply u_two_literals_complete in H, H'. congruence.
Qed.

(** ** The record pattern *)

Lemma u_record_match_sound (s : ustr) (g : groups) (rest : ustr) :
  match_ record_pattern s = Some (g, rest) ->
  record_shape s (group 1 g, group 2 g, group 3 g) rest.
Proof.
  unfold match_, record_pattern. cbn [run].
  destruct s as [|c t]; [discriminate|].
  destruct (N.eqb hash c) eqn:Ec; [|discriminate].
  apply u_chr_eqb_true in Ec. subst c.
  destruct t as [|d t]; [discriminate|].
  destruct (uni_digit d) eqn:Ed; [|discriminate].
  intros H. apply u_star_some in H as (ds & t1 & -> & Hds & H & _).
  cbv beta in H. rewrite firstn_consumed_cons in H.
  apply u_star_some in H as (w1 & t2 & -> & Hw1 & H & _).
  destruct t2 as [|c t2]; [discriminate|].
  destruct (N.eqb equals c) eqn:Ec; [|discriminate].
  apply u_chr_eqb_true in Ec. subst c.
  apply u_star_some in H as (w2 & t3 & -> & Hw2 & H & _).
  destruct t3 as [|i t3]; [discriminate|].
  destruct (uni_word i) eqn:Ei; [|discriminate].
  apply u_star_some in H as (ident & t4 & -> & Hident & H & _).
  cbv beta in H. rewrite firstn_consumed_cons in H.
  apply u_star_some in H as (w3 & t5 & -> & Hw3 & H & _).
  destruct t5 as [|c t5]; [discriminate|].
  destruct (N.eqb lparen c) eqn:Ec; [|discriminate].
  apply u_chr_eqb_true in Ec. subst c.
  apply u_lazy_star_some in H as (args & t6 & -> & _ & H & Hmin).
  assert (Hfirst : forall a b, args <> a ++ rparen :: semicolon :: b).
  { intros a b E.
    specialize (Hmin a (rparen :: semicolon :: b) E ltac:(discriminate)).
    cbn [app] in Hmin. rewrite !N.eqb_refl in Hmin.
    discriminate Hmin. }
  clear Hmin. cbv beta in H. rewrite firstn_consumed in H.
  destruct t6 as [|c t6]; [discriminate|].
  destruct (N.eqb rparen c) eqn:Ec; [|discriminate].
  apply u_chr_eqb_true in Ec. subst c.
  destruct t6 as [|c t6]; [discriminate|].
  destruct (N.eqb semicolon c) eqn:Ec; [|discriminate].
  apply u_chr_eqb_true in Ec. subst c.
  injection H as <- <-. cbn [group Nat.eqb].
  exists w1, w2, w3. repeat split; try assumption; try discriminate.
  - now apply u_all_cons.
  - now apply u_all_cons.
Qed.

Lemma u_record_match_complete (s : ustr) (ds ident args rest : ustr) :
  record_shape s (ds, ident, args) rest ->
  match_ record_pattern s =
  Some ([(3%nat, args); (2%nat, ident); (1%nat, ds)], rest).
Proof.
  intros (w1 & w2 & w3 & -> & Hne & Hds & Hw1 & Hw2 & Hni & Hident & Hw3
          & Hfirst).
  destruct ds as [|d ds]; [congruence|].
  destruct ident as [|i ident]; [congruence|].
  apply u_all_cons in Hds as [Hd Hds].
  apply u_all_cons in Hident as [Hi Hident].
  unfold match_, record_pattern. cbn [run app].
  rewrite N.eqb_refl, Hd.
  apply u_star_hit; [assumption | |].
  { apply u_stops_after_spaces;
      [apply u_space_not_digit | ascii_class | assumption]. }
  rewrite firstn_consumed_cons.
  apply u_star_hit; [assumption | simpl; ascii_class |].
  rewrite N.eqb_refl.
  apply u_star_hit; [assumption | simpl; now apply u_word_not_space |].
  rewrite Hi.
  apply u_star_hit; [assumption | |].
  { apply u_stops_after_spaces;
      [apply uni_space_not_word | ascii_class | assumption]. }
  rewrite firstn_consumed_cons.
  apply u_star_hit; [assumption | simpl; ascii_class |].
  rewrite N.eqb_refl.
  apply u_lazy_star_some. exists args, (rparen :: semicolon :: rest).
  repeat split.
  - unfold all, any_char. now apply forallb_forall.
  - rewrite firstn_consumed, !N.eqb_refl. reflexivity.
  - intros p1 [|c p2] E Hp2; [congruence|]. cbn [app].
    destruct (N.eqb rparen c) eqn:Ec; [|reflexivity].
    apply u_chr_eqb_true in Ec. subst c.
    destruct p2 as [|c p2]; cbn [app]; [reflexivity|].
    destruct (N.eqb semicolon c) eqn:Ec; [|reflexivity].
    apply u_chr_eqb_true in Ec. subst c.
    now apply Hfirst in E.
Qed.

Lemma u_record_sound (s : ustr) (g : groups) (rest : ustr) :
  match_ record_pattern s = Some (g, rest) ->
  record_shape s (shape_of g) rest.
Proof. apply u_record_match_sound. Qed.

Lemma u_record_complete (s : ustr) (m : ustr * ustr * ustr) (rest : ustr) :
  record_shape s m rest ->
  exists g, match_ record_pattern s = Some (g, rest)
            /\ shape_of g = m.
Proof.
  destruct m as [[ds ident] args]. intros H.
  apply u_record_match_complete in H.
  eexists. split; [exact H | reflexivity].
Qed.

Lemma u_record_shape_consumes (s : ustr) (m : ustr * ustr * ustr)
  (rest : ustr) :
  record_shape s m rest -> exists c pre, s = c :: pre ++ rest.
Proof.
  destruct m as [[ds ident] args]. intros (w1 & w2 & w3 & -> & _).
  exists hash,
    (ds ++ w1 ++ equals :: w2 ++ ident ++ w3
     ++ lparen :: args ++ [rparen; semicolon]).
  repeat (rewrite <- ?app_assoc; cbn [app]). reflexivity.
Qed.

(* ================================================================== *)
(** * Strings of code points *)
(* ================================================================== *)

Lemma ustr_eqb_eq (a b : ustr) : ustr_eqb a b = true <-> a = b.
Proof.
  revert b. induction a as [|x a IH]; intros [|y b]; simpl;
    try (split; [discriminate | discriminate]); [tauto|].
  rewrite andb_true_iff, N.eqb_eq, IH.
  split; [intros [-> ->]; reflexivity | intros [= -> ->]; now split].
Qed.

(** [str.upper] on ASCII text. *)
Lemma u_upper_ascii (s : ustr) :
  forallb (fun c => N.ltb c 128) s = true ->
  upper s = map ascii_upper s.
Proof.
  unfold upper. induction s as [|c s IH]; simpl; [reflexivity|].
  intros H. apply andb_true_iff in H as [Hc Hs].
  apply N.ltb_lt in Hc.
  now rewrite (uni_upper_ascii c Hc), IH.
Qed.

Lemma u_upper_literal (s : ustr) :
  forallb (fun c => N.ltb c 128) s = true ->
  map ascii_upper s = s ->
  upper s = s.
Proof. intros H E. now rewrite u_upper_ascii. Qed.

Lemma u_entity_type_upper (ty : ustr) :
  is_entity_type ty = true -> upper ty = ty.
Proof.
  unfold is_entity_type. rewrite !orb_true_iff.
  intros [[H | H] | H].
  - apply (dict_mem_keys ustr_eqb ustr_eqb_eq) in H. simpl in H.
    repeat (destruct H as [<- | H];
            [apply u_upper_literal; reflexivity|]).
    destruct H.
  - apply (dict_mem_keys ustr_eqb ustr_eqb_eq) in H. simpl in H.
    repeat (destruct H as [<- | H];
            [apply u_upper_literal; reflexivity|]).
    destruct H.
  - apply ustr_eqb_eq in H. subst. apply u_upper_literal; reflexivity.
Qed.

Lemma u_relation_type_upper (ty : ustr) :
  is_relation_type ty = true -> upper ty = ty.
Proof.
  intros H. apply (dict_mem_keys ustr_eqb ustr_eqb_eq) in H. simpl in H.
  repeat (destruct H as [<- | H];
          [apply u_upper_literal; reflexivity|]).
  destruct H.
Qed.

Lemma u_relation_not_entity (ty : ustr) :
  is_relation_type ty = true -> is_entity_type ty = false.
Proof.
  intros H. apply (dict_mem_keys ustr_eqb ustr_eqb_eq) in H. simpl in H.
  repeat (destruct H as [<- | H]; [reflexivity|]). destruct H.
Qed.

Lemma u_dict_mem_existsb {V : Type} (x : ustr) (d : dict ustr V) :
  dict_mem ustr_eqb x d = existsb (ustr_eqb x) (keys d).
Proof.
  unfold dict_mem, keys. induction d as [|[k v] d IH]; simpl; [reflexivity|].
  destruct (ustr_eqb x k); [reflexivity | exact IH].
Qed.

Lemma u_types_of_interest_mem (ty : ustr) :
  set_mem ty IFC_TYPES_OF_INTEREST =
  (is_entity_type ty || is_relation_type ty)%bool.
Proof.
  unfold set_mem, IFC_TYPES_OF_INTEREST, is_entity_type, is_relation_type.
  rewrite !existsb_app, !u_dict_mem_existsb. cbn [existsb].
  destruct (existsb (ustr_eqb ty) (keys IFC_TO_BOT_ZONE)),
    (existsb (ustr_eqb ty) (keys IFC_TO_BOT_ELEMENT)),
    (existsb (ustr_eqb ty) (keys IFC_REL_TO_BOT_PROP)),
    (ustr_eqb ty (ulit "IFCPROJECT")); reflexivity.
Qed.

(* ================================================================== *)
(** * Numerals *)
(* ================================================================== *)

Lemma u_int_checked (s : ustr) :
  int s = if fits s then Ok (decimal_value s) else ValueError.
Proof. unfold int, fits. now destruct (exceeds (length s)). Qed.

Lemma u_fits_spec (s : ustr) :
  fits s = true <->
  (length s <= 640 \/ int_max_str_digits = 0 \/ length s <= int_max_str_digits)%nat.
Proof.
  unfold fits. rewrite Bool.negb_true_iff. apply exceeds_spec.
Qed.

Lemma u_decimal_from (d : Decimal.uint) (acc : positive) :
  fold_left (fun a c => 10 * a + uni_decimal c) (embed (digits d))
    (Z.pos acc)
  = Z.pos (Pos.of_uint_acc d acc).
Proof.
  unfold digits, embed. revert acc.
  induction d as [|d IH|d IH|d IH|d IH|d IH|d IH|d IH|d IH|d IH|d IH];
    intros acc;
    cbn [NilEmpty.string_of_uint list_ascii_of_string map fold_left
         Pos.of_uint_acc];
    [reflexivity
    | rewrite <- IH; f_equal;
      rewrite uni_decimal_ascii by reflexivity;
      vm_compute (Z.of_N (of_ascii _)); lia ..].
Qed.

Lemma u_decimal_digits (d : Decimal.uint) :
  decimal_value (embed (digits d)) = Z.of_N (Pos.of_uint d).
Proof.
  unfold decimal_value.
  induction d as [|d IH|d IH|d IH|d IH|d IH|d IH|d IH|d IH|d IH|d IH];
    [reflexivity | | ..];
    unfold digits, embed;
    cbn [NilEmpty.string_of_uint list_ascii_of_string map fold_left
         Pos.of_uint Z.of_N];
    fold (digits d); fold (embed (digits d));
    rewrite uni_decimal_ascii by reflexivity;
    [exact IH | rewrite <- u_decimal_from; reflexivity ..].
Qed.

(** Reading the decimal numeral of a natural number gives the number. *)
Lemma u_decimal_round_trip (n : Z) :
  0 <= n -> decimal_value (embed (dec n)) = n.
Proof.
  destruct n as [|p|p]; intros Hn; [| | lia].
  - unfold decimal_value. cbn.
    rewrite uni_decimal_ascii by reflexivity. reflexivity.
  - unfold dec. cbn [Z.to_int NilZero.string_of_int].
    unfold NilZero.string_of_uint.
    pose proof (DecimalPos.Unsigned.to_uint_nonnil p) as Hnil.
    pose proof (DecimalPos.Unsigned.of_to p) as Hof.
    destruct (Pos.to_uint p) as [|d|d|d|d|d|d|d|d|d|d] eqn:E;
      [congruence | ..];
      rewrite <- E; fold (digits (Pos.to_uint p));
      rewrite u_decimal_digits; rewrite E, Hof; reflexivity.
Qed.

(* ================================================================== *)
(** * The selector over Unicode text *)
(* ================================================================== *)

Lemma u_scan_step (results : list RawRecord) (m : groups) :
  scan_step IFC_TYPES_OF_INTEREST results m =
  if id_fits (shape_of m)
  then Ok (results ++ (if of_interest (record_of (shape_of m))
                       then [record_of (shape_of m)] else []))
  else ValueError.
Proof.
  unfold scan_step, int, id_fits, of_interest, record_of, shape_of.
  cbn [fst snd].
  destruct (exceeds (length (group 1 m))); [reflexivity|].
  cbn [bind negb].
  destruct (set_mem _ _); [reflexivity | now rewrite app_nil_r].
Qed.

Lemma u_scan_eq (text : ustr) :
  scan_ifc_and_extract_lines text =
  if forallb id_fits (map shape_of (finditer record_pattern text))
  then Ok (filter of_interest
             (map record_of (map shape_of (finditer record_pattern text))))
  else ValueError.
Proof.
  unfold scan_ifc_and_extract_lines.
  rewrite (for_each_checked _ (fun m => id_fits (shape_of m))
             (fun results m =>
                results ++ (if of_interest (record_of (shape_of m))
                            then [record_of (shape_of m)] else []))
             u_scan_step).
  rewrite forallb_map.
  destruct (forallb _ _); [|reflexivity]. f_equal.
  rewrite (fold_left_appends _
             (fun m => if of_interest (record_of (shape_of m))
                       then [record_of (shape_of m)] else []))
    by reflexivity.
  cbn [app]. rewrite map_map.
  apply (flat_map_filter_map (fun m => record_of (shape_of m))).
Qed.

(* ================================================================== *)
(** * The parser over Unicode text *)
(* ================================================================== *)

Lemma u_parse_step (st : parsed) (line : RawRecord) :
  parse_step st line =
  if line_fits line then Ok (value_step st line) else ValueError.
Proof.
  destruct st as [entities relationships].
  destruct line as [[ent_id ent_type] args_str].
  unfold parse_step, line_fits, value_step. cbn [fst snd].
  destruct (is_entity_type ent_type) eqn:Ht.
  - unfold IfcEntity_init, leading_literals.
    rewrite (u_entity_type_upper _ Ht).
    destruct (match_ entity_args_pattern args_str) as [[g rest]|];
      reflexivity.
  - destruct (is_relation_type ent_type) eqn:Hr; [|reflexivity].
    destruct (findall ref_pattern args_str) as [|n0 [|n1 rest]];
      [reflexivity | reflexivity |].
    cbn [length Nat.leb].
    change (forallb fits (n0 :: n1 :: rest))
      with (fits n0 && forallb fits (n1 :: rest))%bool.
    rewrite u_int_checked.
    destruct (fits n0); [|reflexivity]. cbn [bind andb].
    rewrite (comprehension_checked _ _ decimal_value u_int_checked).
    destruct (forallb fits (n1 :: rest)); [|reflexivity].
    cbn [bind]. unfold IfcRelationship_init.
    now rewrite (u_relation_type_upper _ Hr).
Qed.

Lemma u_parse_from (lines : list RawRecord) (st : parsed) :
  for_each parse_step lines st =
  if forallb line_fits lines
  then Ok (fold_left value_step lines st) else ValueError.
Proof. apply (for_each_checked _ _ value_step u_parse_step). Qed.

(** The parser raises exactly when one of the lines does. *)
Lemma u_parse_eq (lines : list RawRecord) :
  parse_selected_ifc_lines lines =
  if forallb line_fits lines
  then Ok (fold_left value_step lines ([], [])) else ValueError.
Proof. apply u_parse_from. Qed.

Lemma u_parse_snoc (lines : list RawRecord) (st : parsed)
  (line : RawRecord) :
  parse_selected_ifc_lines lines = Ok st ->
  parse_selected_ifc_lines (lines ++ [line]) =
  if line_fits line then Ok (value_step st line) else ValueError.
Proof.
  intros H. unfold parse_selected_ifc_lines in *.
  rewrite for_each_app, H. cbn [bind for_each].
  rewrite u_parse_step. now destruct (line_fits line).
Qed.

Lemma u_entity_line_fits (ent_id : Z) (ent_type args_str : ustr) :
  is_entity_type ent_type = true ->
  line_fits (ent_id, ent_type, args_str) = true.
Proof. intros Ht. unfold line_fits. now rewrite Ht. Qed.

Lemma u_value_step_entity (st : parsed) (ent_id : Z)
  (ent_type args_str : ustr) :
  is_entity_type ent_type = true ->
  value_step st (ent_id, ent_type, args_str) =
  (dict_set Z.eqb ent_id
     (mkEntity ent_id ent_type (snd (leading_literals args_str))
        (fst (leading_literals args_str)))
     (fst st),
   snd st).
Proof. intros Ht. unfold value_step. now rewrite Ht. Qed.





(** The two literals the entity branch reads are those of the shape at
    the head of the argument text, and are empty without that shape. *)
Lemma u_leading_literals_shape (args_str gid nm rest : ustr) :
  two_literals_at args_str (gid, nm) rest ->
  leading_literals args_str = (gid, nm).
Proof.
  intros H. apply u_two_literals_complete in H.
  unfold leading_literals. now rewrite H.
Qed.

Lemma u_leading_literals_none (args_str : ustr) :
  (forall gid nm rest, ~ two_literals_at args_str (gid, nm) rest) ->
  leading_literals args_str = ([], []).
Proof.
  intros Hno. unfold leading_literals.
  destruct (match_ entity_args_pattern args_str) as [[g rest]|] eqn:E;
    [|reflexivity].
  apply u_two_literals_sound in E. now apply Hno in E.
Qed.

(* ================================================================== *)
(** * The claims on the selector and the parser *)
(* ================================================================== *)

(** C6, as the code has it.  For every text, the text has exactly one
    left-to-right reading into records of the shape
     #<digits> = <IDENTIFIER>(<args>);  , text that starts no record being
    passed over; the digits, white space and identifier characters are
    those of the Unicode classes of the interpreter.  The selector
    converts the digits of every such record, of interest or not, to an
    integer: when the digits of one of them are more than the limit of
    the interpreter allows, it raises [ValueError]; otherwise it returns
    the list (built eagerly) of the records whose identifier, put in
    upper case, is a type of interest, each as (number, upper-case
    identifier, arguments), in the order of the text.  The number of a
    decimal numeral is the number it denotes, and the upper case of ASCII
    text maps the letters a to z to A to Z and nothing else.  The types
    of interest are the four zone types, the twelve element types, the
    four relation types and IFCPROJECT. *)
Theorem C6_record_selector :
  forall text : ustr,
    exists shapes : list (ustr * ustr * ustr),
      scan_spec record_shape text shapes
      /\ (forall shapes',
            scan_spec record_shape text shapes' -> shapes' = shapes)
      /\ Unicode.scan_ifc_and_extract_lines text =
           (if forallb id_fits shapes
            then Ok (filter of_interest (map record_of shapes))
            else ValueError)
      /\ (forall ds ident args,
            record_of (ds, ident, args)
            = (decimal_value ds, upper ident, args)
            /\ of_interest (record_of (ds, ident, args))
               = (is_entity_type (upper ident)
                  || is_relation_type (upper ident))%bool
            /\ (id_fits (ds, ident, args) = true <->
                (length ds <= 640 \/ int_max_str_digits = 0
                 \/ length ds <= int_max_str_digits)%nat))
      /\ (forall n, 0 <= n -> decimal_value (embed (dec n)) = n)
      /\ (forall s,
            forallb (fun c => N.ltb c 128) s = true ->
            upper s =
            map (fun c => if (N.leb 97 c && N.leb c 122)%bool
                          then (c - 32)%N else c) s)
      /\ IFC_TYPES_OF_INTEREST =
         map ulit
           [ "IFCSITE"; "IFCBUILDING"; "IFCBUILDINGSTOREY"; "IFCSPACE";
             "IFCWALL"; "IFCWALLSTANDARDCASE"; "IFCSLAB"; "IFCBEAM";
             "IFCCOLUMN"; "IFCDOOR"; "IFCWINDOW"; "IFCPLATE";
             "IFCFURNISHINGELEMENT"; "IFCSTAIR"; "IFCSTAIRFLIGHT";
             "IFCFLOWTERMINAL";
             "IFCRELAGGREGATES"; "IFCRELCONTAINEDINSPATIALSTRUCTURE";
             "IFCRELCONNECTSELEMENTS"; "IFCRELINTERFERESELEMENTS";
             "IFCPROJECT" ]%string.
Proof.
  intros text.
  exists (map shape_of (finditer record_pattern text)).
  split; [|split; [|split; [|split; [|split; [|split]]]]].
  - apply u_finditer_scan_spec.
    + apply u_record_sound.
    + apply u_record_complete.
    + apply u_record_shape_consumes.
  - apply u_scan_spec_unique.
    + apply u_record_sound.
    + apply u_record_complete.
    + apply u_record_shape_consumes.
  - apply u_scan_eq.
  - intros ds ident args. split; [reflexivity|]. split.
    + unfold of_interest, record_of. cbn [fst snd].
      apply u_types_of_interest_mem.
    + unfold id_fits. cbn [fst]. apply (u_fits_spec ds).
  - apply u_decimal_round_trip.
  - apply u_upper_ascii.
  - reflexivity.
Qed.

(** C5, as the code has it.  For a line of a relation type added to lines
    the parser has processed, the argument text has exactly one
    left-to-right reading into references  #<digits>  (the digits being
    the decimal digits of the interpreter).  With fewer than two
    references the parser adds nothing and raises nothing.  With two or
    more it converts all of them to integers: when the digits of one of
    them are more than the limit allows it raises [ValueError]; otherwise
    it appends one relationship with the id and the type of the line,
    whose parent is the first reference and whose children are all the
    following ones, in order, and leaves the entity mapping as it was. *)
Theorem C5_relationship_references :
  forall (lines : list RawRecord) (st : parsed) (ent_id : Z)
         (ent_type args_str : ustr),
    is_relation_type ent_type = true ->
    Unicode.parse_selected_ifc_lines lines = Ok st ->
    exists refs : list ustr,
      scan_spec ref_shape args_str refs
      /\ (forall refs', scan_spec ref_shape args_str refs' -> refs' = refs)
      /\ Unicode.parse_selected_ifc_lines
           (lines ++ [(ent_id, ent_type, args_str)])
         = match refs with
           | p :: c :: cs =>
               if forallb fits refs
               then Ok (fst st,
                        snd st
                        ++ [mkRelationship ent_id ent_type
                              (decimal_value p)
                              (map decimal_value (c :: cs))])
               else ValueError
           | _ => Ok st
           end
      /\ (forall ds,
            fits ds = true <->
            (length ds <= 640 \/ int_max_str_digits = 0
             \/ length ds <= int_max_str_digits)%nat)
      /\ (forall n, 0 <= n -> decimal_value (embed (dec n)) = n).
Proof.
  intros lines st ent_id ent_type args_str Ht Hst.
  exists (map (group 1) (finditer ref_pattern args_str)).
  split; [|split; [|split; [|split]]].
  - apply u_finditer_scan_spec.
    + apply u_ref_match_sound.
    + apply u_ref_match_complete.
    + apply u_ref_shape_consumes.
  - apply u_scan_spec_unique.
    + apply u_ref_match_sound.
    + apply u_ref_match_complete.
    + apply u_ref_shape_consumes.
  - rewrite (u_parse_snoc _ _ _ Hst).
    unfold line_fits, value_step.
    rewrite (u_relation_not_entity _ Ht), Ht.
    fold (findall ref_pattern args_str).
    destruct (findall ref_pattern args_str) as [|p [|c cs]];
      [destruct st; reflexivity | destruct st; reflexivity |].
    reflexivity.
  - apply u_fits_spec.
  - apply u_decimal_round_trip.
Qed.

(** C4, as the code has it.  For a line of a zone, element or root type
    added to lines the parser has processed, the parser raises nothing
    and stores under the line's id an entity with that id and the type of
    the line; its global identifier and its name are the two literals
    when the argument text begins with the shape  '<gid>' , '<name>'
    (two single-quoted literals separated by a comma, with optional white
    space of the interpreter around the comma), and both are empty when
    the argument text does not begin with that shape.  The relationships
    are left as they were. *)
Theorem C4_leading_literals :
  forall (lines : list RawRecord) (st : parsed) (ent_id : Z)
         (ent_type args_str : ustr),
    is_entity_type ent_type = true ->
    Unicode.parse_selected_ifc_lines lines = Ok st ->
    exists e : IfcEntity,
      Unicode.parse_selected_ifc_lines
        (lines ++ [(ent_id, ent_type, args_str)])
      = Ok (dict_set Z.eqb ent_id e (fst st), snd st)
      /\ dict_get Z.eqb ent_id (dict_set Z.eqb ent_id e (fst st)) = Some e
      /\ id e = ent_id
      /\ type e = ent_type
      /\ (forall gid nm rest,
            two_literals_at args_str (gid, nm) rest ->
            global_id e = gid /\ name e = nm)
      /\ ((forall gid nm rest, ~ two_literals_at args_str (gid, nm) rest) ->
          global_id e = [] /\ name e = []).
Proof.
  intros lines st ent_id ent_type args_str Ht Hst.
  exists (mkEntity ent_id ent_type (snd (leading_literals args_str))
            (fst (leading_literals args_str))).
  split; [|split; [|split; [|split; [|split]]]].
  - rewrite (u_parse_snoc _ _ _ Hst), (u_entity_line_fits _ _ _ Ht).
    now rewrite (u_value_step_entity _ _ _ _ Ht).
  - apply dict_get_set_same.
  - reflexivity.
  - reflexivity.
  - intros gid nm rest H. cbn [global_id name].
    now rewrite (u_leading_literals_shape _ _ _ _ H).
  - intros Hno. cbn [global_id name].
    now rewrite (u_leading_literals_none _ Hno).
Qed.


End UnicodeText.

(* ================================================================== *)
(** * Instances of the claims, and examples *)
(* ================================================================== *)

(** C6 as the specification words it fails: the text holds one record,
    whose id has 4301 digits; with the default limit of 4300 digits the
    conversion of line 136 raises [ValueError].  When a record of
    interest comes before it the selector raises all the same, and
    delivers no record: the result is a list built before it is
    returned, not a lazy sequence. *)
Lemma C6_long_id_counterexample :
  length long_numeral = 4301%nat
  /\ @Unicode.scan_ifc_and_extract_lines ascii_runtime long_id_text
     = ValueError
  /\ @Unicode.scan_ifc_and_extract_lines ascii_runtime
       (ulit "#1=IFCWALL();")
     = Ok [(1, ulit "IFCWALL", [])]
  /\ @Unicode.scan_ifc_and_extract_lines ascii_runtime
       (ulit "#1=IFCWALL();" ++ long_id_text)
     = ValueError.
Proof. split; [|split; [|split]]; vm_compute; reflexivity. Qed.

Lemma C5_relationship_references_witness :
  exists refs : list ustr,
    Unicode.scan_spec (@Unicode.ref_shape ascii_runtime)
      (snd u_sample_relation_line) refs
    /\ @Unicode.parse_selected_ifc_lines ascii_runtime
         ([] ++ [u_sample_relation_line])
       = match refs with
         | p :: c :: cs =>
             if forallb (@Unicode.fits ascii_runtime) refs
             then Ok ([],
                      [] ++ [Unicode.mkRelationship 30
                               (ulit "IFCRELAGGREGATES")
                               (@Unicode.decimal_value ascii_runtime p)
                               (map (@Unicode.decimal_value ascii_runtime)
                                  (c :: cs))])
             else ValueError
         | _ => Ok ([], [])
         end.
Proof.
  destruct (@C5_relationship_references ascii_runtime [] ([], []) 30
              (ulit "IFCRELAGGREGATES") (ulit "'X',$,$,$,#10,(#20,#21)")
              eq_refl eq_refl)
    as (refs & Hspec & _ & Heq & _).
  exists refs. split; [exact Hspec | exact Heq].
Defined.

(** C5 as the specification words it fails: the line has two references,
    the second of 4301 digits; with the default limit of 4300 digits the
    conversion of line 234 raises [ValueError], and no relationship is
    made. *)
Lemma C5_long_reference_counterexample :
  Unicode.is_relation_type (snd (fst long_reference_line)) = true
  /\ length (Unicode.findall (@Unicode.ref_pattern ascii_runtime)
               (snd long_reference_line)) = 2%nat
  /\ @Unicode.parse_selected_ifc_lines ascii_runtime [long_reference_line]
     = ValueError.
Proof. split; [|split]; vm_compute; reflexivity. Qed.

Lemma C4_leading_literals_witness :
  exists e : Unicode.IfcEntity,
    @Unicode.parse_selected_ifc_lines ascii_runtime
      ([] ++ [u_sample_wall_line])
    = Ok (dict_set Z.eqb 5 e [], [])
    /\ Unicode.global_id e = ulit "w"
    /\ Unicode.name e = ulit "Wall 5".
Proof.
  destruct (@C4_leading_literals ascii_runtime [] ([], []) 5
              (ulit "IFCWALL") (ulit "'w','Wall 5',$") eq_refl eq_refl)
    as (e & Heq & _ & _ & _ & Hshape & _).
  exists e. split; [exact Heq|].
  apply (Hshape (ulit "w") (ulit "Wall 5") (ulit ",$")).
  exists [], []. repeat split; reflexivity.
Defined.

(** C4 as the specification words it fails.  In the argument text
    $,'G1','Main'  the first two single-quoted literals are G1 and Main,
    but the text does not begin with a literal; in  'G1',#5,'Main'  another
    attribute stands between the two literals.  In both cases the parser
    stores the empty string in both fields. *)
Lemma C4_first_two_literals_counterexample :
  (Unicode.quoted_literals (ulit "$,'G1','Main'") = [ulit "G1"; ulit "Main"]
   /\ ~ @Unicode.takes_first_two_literals ascii_runtime 10 (ulit "IFCWALL")
          (ulit "$,'G1','Main'"))
  /\ (Unicode.quoted_literals (ulit "'G1',#5,'Main'")
      = [ulit "G1"; ulit "Main"]
      /\ ~ @Unicode.takes_first_two_literals ascii_runtime 10
             (ulit "IFCWALL") (ulit "'G1',#5,'Main'")).
Proof.
  split; (split; [reflexivity|]); intros H;
    destruct (H (ulit "G1") (ulit "Main") [] eq_refl) as (st & Hst & Hget);
    vm_compute in Hst; injection Hst as <-;
    vm_compute in Hget; discriminate Hget.
Qed.


(** The selector on an ASCII text with a lower-case type, a type out of
    interest and an unterminated record. *)
Example u_scan_example :
  @Unicode.scan_ifc_and_extract_lines ascii_runtime
    (ulit "x #1=ifcwall('a'); #2 = IFCFOO(1); #3 = IFCDOOR('d' #4=IFCSLAB();")
  = Ok [ (1, ulit "IFCWALL", ulit "'a'");
         (3, ulit "IFCDOOR", ulit "'d' #4=IFCSLAB(") ].
Proof. vm_compute. reflexivity. Qed.

(** Text beyond ASCII: a fullwidth digit is a digit of the id, the upper
    case of the dotless i is I, and a no-break space is white space
    between the two literals. *)
Example unicode_record_example :
  @Unicode.scan_ifc_and_extract_lines sample_runtime sample_unicode_text
  = Ok [(7, ulit "IFCWALL", nbsp_args)]
  /\ @Unicode.parse_selected_ifc_lines sample_runtime
       [(7, ulit "IFCWALL", nbsp_args)]
     = Ok ([(7, Unicode.mkEntity 7 (ulit "IFCWALL") (ulit "Main")
                  (ulit "G1"))], []).
Proof. split; vm_compute; reflexivity. Qed.

(** References in fullwidth digits are references. *)
Example unicode_references_example :
  @Unicode.parse_selected_ifc_lines sample_runtime
    [(30, ulit "IFCRELAGGREGATES", fullwidth_refs)]
  = Ok ([], [Unicode.mkRelationship 30 (ulit "IFCRELAGGREGATES") 1 [2]]).
Proof. vm_compute. reflexivity. Qed.

(* ================================================================== *)
(** * Ids written by the engine and read by the selector *)
(* ================================================================== *)

Section UnicodeExtras.

Import Unicode.

Context {rt : Runtime}.

Lemma u_digits_are_digits (d : Decimal.uint) :
  all uni_digit (embed (digits d)).
Proof.
  unfold all, digits, embed.
  induction d as [|d IH|d IH|d IH|d IH|d IH|d IH|d IH|d IH|d IH|d IH];
    cbn [NilEmpty.string_of_uint list_ascii_of_string map forallb];
    [reflexivity | rewrite uni_digit_ascii by reflexivity; exact IH ..].
Qed.

(** The decimal numeral of a natural number is a non-empty string of
    ASCII digits. *)
Lemma u_dec_digits (n : Z) :
  0 <= n -> embed (dec n) <> [] /\ all uni_digit (embed (dec n)).
Proof.
  destruct n as [|p|p]; intros Hn; [| | lia].
  - split; [discriminate|]. unfold all. cbn.
    rewrite uni_digit_ascii by reflexivity. reflexivity.
  - unfold dec. cbn [Z.to_int NilZero.string_of_int].
    unfold NilZero.string_of_uint.
    pose proof (DecimalPos.Unsigned.to_uint_nonnil p) as Hnil.
    destruct (Pos.to_uint p) as [|d|d|d|d|d|d|d|d|d|d] eqn:E;
      [congruence | ..];
      (split; [discriminate|]);
      match goal with
      | |- all _ (embed (list_ascii_of_string (NilEmpty.string_of_uint ?u))) =>
          exact (u_digits_are_digits u)
      end.
Qed.

Lemma u_all_word_ascii (s : ustr) :
  forallb (fun c => N.ltb c 128 && ascii_word c)%bool s = true ->
  all uni_word s.
Proof.
  unfold all. induction s as [|c s IH]; simpl; [reflexivity|].
  intros H. apply andb_true_iff in H as [Hc Hs].
  apply andb_true_iff in Hc as [Hlt Hw]. apply N.ltb_lt in Hlt.
  now rewrite (uni_word_ascii c Hlt), Hw, IH.
Qed.

(** X19.  The selector reads back the ids the engine writes: for a
    natural number, the record whose id is the decimal numeral of the
    number, as the engine formats it in an instance identifier, is read
    by the selector as the record of that number; and the selector reads
    it without raising exactly when the engine formats the number
    without raising, that is, when the numeral is within the limit of
    the interpreter on the digits of a numeral. *)
Theorem X19_ids_read_back :
  forall n : Z,
    0 <= n ->
    Unicode.scan_ifc_and_extract_lines
      (hash :: embed (dec n) ++ ulit "=IFCWALL();")
    = (if Checked.fits n
       then Ok [(n, ulit "IFCWALL", [])]
       else ValueError)
    /\ Checked.inst n
       = (if Checked.fits n
          then Ok (lit "ex:inst_" ++ dec n)
          else ValueError).
Proof.
  intros n Hn. split; [|apply checked_inst].
  destruct (u_dec_digits n Hn) as [Hne Hds].
  assert (Hshape :
            record_shape (hash :: embed (dec n) ++ ulit "=IFCWALL();")
              (embed (dec n), ulit "IFCWALL", []) []).
  { exists [], [], []. split; [reflexivity|].
    repeat (split; [first [ assumption | reflexivity | discriminate
                          | apply u_all_word_ascii; reflexivity ]|]).
    intros [|a l] b; discriminate. }
  assert (Hspec :
            scan_spec record_shape
              (hash :: embed (dec n) ++ ulit "=IFCWALL();")
              [(embed (dec n), ulit "IFCWALL", [])]).
  { apply scan_hit with []; [exact Hshape | constructor]. }
  apply (u_scan_spec_unique record_pattern shape_of record_shape
           u_record_sound u_record_complete u_record_shape_consumes)
    in Hspec.
  rewrite u_scan_eq, <- Hspec.
  cbn [forallb map filter].
  unfold id_fits, Checked.fits, Checked.decimal_digits. cbn [fst].
  unfold embed at 1. rewrite length_map, (Z.abs_eq n Hn), andb_true_r.
  destruct (exceeds (length (dec n))); [reflexivity|]. cbn [negb].
  unfold of_interest, record_of. cbn [fst snd].
  rewrite (u_upper_literal (ulit "IFCWALL")) by reflexivity.
  rewrite (u_decimal_round_trip n Hn). reflexivity.
Qed.

End UnicodeExtras.

Lemma X19_ids_read_back_witness :
  @Unicode.scan_ifc_and_extract_lines ascii_runtime
    (Unicode.hash :: embed (dec 1204) ++ ulit "=IFCWALL();")
  = Ok [(1204, ulit "IFCWALL", [])]
  /\ @Checked.inst ascii_runtime 1204 = Ok (lit "ex:inst_1204").
Proof.
  exact (@X19_ids_read_back ascii_runtime 1204 ltac:(lia)).
Defined.

(* ================================================================== *)
(** * The two embeddings of the selector agree on ASCII text *)
(* ================================================================== *)

Lemma of_ascii_eqb (a b : ascii) :
  N.eqb (of_ascii a) (of_ascii b) = Ascii.eqb a b.
Proof.
  unfold of_ascii. destruct (Ascii.eqb a b) eqn:E.
  - apply Ascii.eqb_eq in E. subst. apply N.eqb_refl.
  - apply N.eqb_neq. intros H. apply (f_equal ascii_of_N) in H.
    rewrite !ascii_N_embedding in H. subst.
    rewrite Ascii.eqb_refl in E. discriminate.
Qed.

Lemma ustr_eqb_embed (a b : str) :
  ustr_eqb (embed a) (embed b) = str_eqb a b.
Proof.
  revert b. induction a as [|x a IH]; intros [|y b]; simpl;
    try reflexivity.
  now rewrite of_ascii_eqb, IH.
Qed.

Lemma ascii_text_cons (c : ascii) (s : str) :
  ascii_text (c :: s) <-> is_ascii c = true /\ ascii_text s.
Proof. unfold ascii_text. simpl. apply andb_true_iff. Qed.

Lemma is_ascii_lt (c : ascii) : is_ascii c = true -> (of_ascii c < 128)%N.
Proof. apply N.ltb_lt. Qed.

Lemma word_is_ascii (c : ascii) : is_word c = true -> is_ascii c = true.
Proof. by_char c. Qed.

Lemma ascii_digit_of (c : ascii) : ascii_digit (of_ascii c) = is_digit c.
Proof. by_char c. Qed.

Lemma ascii_space_of (c : ascii) : ascii_space (of_ascii c) = is_space c.
Proof. by_char c. Qed.

Lemma ascii_word_of (c : ascii) : ascii_word (of_ascii c) = is_word c.
Proof. by_char c. Qed.

Lemma ascii_upper_of (c : ascii) :
  ascii_upper (of_ascii c) = of_ascii (upper_char c).
Proof. by_char c. Qed.

Lemma digit_val_of (c : ascii) :
  is_digit c = true -> Z.of_N (of_ascii c) - 48 = digit_val c.
Proof. by_char c. Qed.

Lemma not_quote_of (c : ascii) :
  Unicode.not_quote (of_ascii c) = not_quote c.
Proof. by_char c. Qed.

Section Agreement.

Context {rt : Runtime}.

Lemma agree_digit : agree is_digit uni_digit.
Proof.
  intros c H. rewrite uni_digit_ascii by now apply is_ascii_lt.
  apply ascii_digit_of.
Qed.

Lemma agree_space : agree is_space uni_space.
Proof.
  intros c H. rewrite uni_space_ascii by now apply is_ascii_lt.
  apply ascii_space_of.
Qed.

Lemma agree_word : agree is_word uni_word.
Proof.
  intros c H. rewrite uni_word_ascii by now apply is_ascii_lt.
  apply ascii_word_of.
Qed.

Lemma agree_any : agree any_char Unicode.any_char.
Proof. intros c _. reflexivity. Qed.

Lemma agree_not_quote : agree not_quote Unicode.not_quote.
Proof. intros c _. apply not_quote_of. Qed.

Section MatcherAgreement.

Context {A B : Type}.
Variable f : A -> B.

Lemma star_agree (cls : ascii -> bool) (cls' : codepoint -> bool)
  (s : str) (k : str -> option A) (k' : ustr -> option B) :
  agree cls cls' ->
  ascii_text s ->
  (forall s0, ascii_text s0 -> k' (embed s0) = option_map f (k s0)) ->
  Unicode.star cls' (embed s) k' = option_map f (Re.star cls s k).
Proof.
  intros Hcls Hs Hk. induction s as [|c t IH].
  - apply (Hk [] Hs).
  - pose proof (Hk (c :: t) Hs) as Hhere.
    apply ascii_text_cons in Hs as [Hc Ht].
    cbn [embed map] in Hhere. fold (embed t) in Hhere.
    cbn [embed map Unicode.star Re.star]. fold (embed t).
    rewrite (Hcls c Hc). destruct (cls c); [|exact Hhere].
    rewrite (IH Ht). destruct (Re.star cls t k); [reflexivity|].
    exact Hhere.
Qed.

Lemma lazy_star_agree (cls : ascii -> bool) (cls' : codepoint -> bool)
  (s : str) (k : str -> option A) (k' : ustr -> option B) :
  agree cls cls' ->
  ascii_text s ->
  (forall s0, ascii_text s0 -> k' (embed s0) = option_map f (k s0)) ->
  Unicode.lazy_star cls' (embed s) k' = option_map f (Re.lazy_star cls s k).
Proof.
  intros Hcls Hs Hk. induction s as [|c t IH].
  - cbn [embed map Unicode.lazy_star Re.lazy_star].
    change (@nil codepoint) with (embed []). rewrite (Hk [] Hs).
    now destruct (k []).
  - pose proof (Hk (c :: t) Hs) as Hhere.
    apply ascii_text_cons in Hs as [Hc Ht].
    cbn [embed map] in Hhere. fold (embed t) in Hhere.
    cbn [embed map Unicode.lazy_star Re.lazy_star]. fold (embed t).
    rewrite Hhere.
    destruct (k (c :: t)); [reflexivity|].
    cbn [option_map].
    rewrite (Hcls c Hc). destruct (cls c); [|reflexivity].
    apply (IH Ht).
Qed.

End MatcherAgreement.

Lemma run_agree {A B : Type} (f : A -> B) (r : Re.regex)
  (r' : Unicode.regex) :
  same_regex r r' ->
  forall (s : str) (g : Re.groups) (k : str -> Re.groups -> option A)
         (k' : ustr -> Unicode.groups -> option B),
    ascii_text s ->
    (forall s0 g0,
       ascii_text s0 ->
       k' (embed s0) (embed_groups g0) = option_map f (k s0 g0)) ->
    Unicode.run r' (embed s) (embed_groups g) k'
    = option_map f (Re.run r s g k).
Proof.
  induction 1 as [c | cls cls' Hcls | cls cls' Hcls | cls cls' Hcls
                 | i r r' Hr IH | r1 r2 r1' r2' H1 IH1 H2 IH2];
    intros s g k k' Hs Hk.
  - destruct s as [|c' t]; [reflexivity|].
    apply ascii_text_cons in Hs as [Hc Ht].
    cbn [embed map Unicode.run Re.run]. fold (embed t).
    rewrite of_ascii_eqb. destruct (Ascii.eqb c c'); [|reflexivity].
    now apply Hk.
  - cbn [Unicode.run Re.run].
    apply (star_agree f _ _ _ _ _ Hcls Hs). intros s0 H0. now apply Hk.
  - destruct s as [|c' t]; [reflexivity|].
    apply ascii_text_cons in Hs as [Hc Ht].
    cbn [embed map Unicode.run Re.run]. fold (embed t).
    rewrite (Hcls c' Hc). destruct (cls c'); [|reflexivity].
    apply (star_agree f _ _ _ _ _ Hcls Ht). intros s0 H0. now apply Hk.
  - cbn [Unicode.run Re.run].
    apply (lazy_star_agree f _ _ _ _ _ Hcls Hs). intros s0 H0.
    now apply Hk.
  - cbn [Unicode.run Re.run]. apply (IH s g _ _ Hs).
    intros s0 g0 H0.
    rewrite <- (Hk s0 ((i, firstn (length s - length s0) s) :: g0) H0).
    unfold embed_groups at 2. cbn [map fst snd].
    unfold embed at 4. rewrite firstn_map.
    unfold embed at 2 3. now rewrite !length_map.
  - cbn [Unicode.run Re.run]. apply (IH1 s g _ _ Hs).
    intros s0 g0 H0. now apply IH2.
Qed.

Lemma match_agree (r : Re.regex) (r' : Unicode.regex) (s : str) :
  same_regex r r' -> ascii_text s ->
  Unicode.match_ r' (embed s)
  = option_map (fun m => (embed_groups (fst m), embed (snd m)))
      (Re.match_ r s).
Proof.
  intros Hr Hs. unfold Unicode.match_, Re.match_.
  change (@nil (nat * ustr)) with (embed_groups []).
  apply (run_agree _ _ _ Hr); [exact Hs | reflexivity].
Qed.

Lemma finditer_from_agree (r : Re.regex) (r' : Unicode.regex) :
  same_regex r r' ->
  forall (s : str) (skip : nat),
    ascii_text s ->
    Unicode.finditer_from r' skip (embed s)
    = map embed_groups (Re.finditer_from r skip s).
Proof.
  intros Hr s. induction s as [|c t IH]; intros skip Hs; [reflexivity|].
  pose proof (match_agree r r' (c :: t) Hr Hs) as Hm.
  apply ascii_text_cons in Hs as [Hc Ht].
  cbn [embed map] in Hm. fold (embed t) in Hm.
  cbn [embed map Unicode.finditer_from Re.finditer_from]. fold (embed t).
  destruct skip as [|n]; [|now apply IH].
  rewrite Hm.
  destruct (Re.match_ r (c :: t)) as [[g rest]|]; cbn [option_map fst snd].
  - cbn [map]. f_equal. rewrite <- (IH _ Ht). f_equal.
    cbn [length]. unfold embed. now rewrite !length_map.
  - now apply IH.
Qed.

Lemma group_embed (i : nat) (g : Re.groups) :
  Unicode.group i (embed_groups g) = embed (Re.group i g).
Proof.
  induction g as [|[j s] g IH]; [reflexivity|].
  cbn [embed_groups map fst snd Unicode.group Re.group].
  destruct (Nat.eqb i j); [reflexivity | exact IH].
Qed.

Lemma same_record_pattern :
  same_regex record_pattern Unicode.record_pattern.
Proof.
  unfold record_pattern, Unicode.record_pattern.
  repeat first
    [ apply same_seq
    | apply same_group
    | exact (same_chr _)
    | apply same_star
    | apply same_plus
    | apply same_lazy_star
    | exact agree_digit
    | exact agree_space
    | exact agree_word
    | exact agree_any ].
Qed.

(** Every match [finditer] yields is a match of the pattern somewhere. *)
Lemma finditer_from_matched (r : Re.regex) (s : str) :
  forall skip,
    Forall (fun g => exists s0 rest, Re.match_ r s0 = Some (g, rest))
      (Re.finditer_from r skip s).
Proof.
  induction s as [|c t IH]; intros skip; [constructor|].
  cbn [Re.finditer_from]. destruct skip as [|n]; [|apply IH].
  destruct (Re.match_ r (c :: t)) as [[g rest]|] eqn:E; [|apply IH].
  constructor; [|apply IH]. now exists (c :: t), rest.
Qed.

Lemma decimal_embed (ds : str) :
  all is_digit ds -> Unicode.decimal_value (embed ds) = int ds.
Proof.
  unfold Unicode.decimal_value, int. generalize 0.
  induction ds as [|c ds IH]; intros acc Hds; [reflexivity|].
  apply all_cons in Hds as [Hc Hds].
  cbn [embed map fold_left]. fold (embed ds).
  rewrite uni_decimal_ascii by (now rewrite ascii_digit_of).
  rewrite (digit_val_of c Hc). now apply IH.
Qed.

Lemma upper_embed (s : str) :
  all is_word s -> Unicode.upper (embed s) = embed (upper s).
Proof.
  unfold Unicode.upper, upper.
  induction s as [|c s IH]; intros Hs; [reflexivity|].
  apply all_cons in Hs as [Hc Hs].
  cbn [embed map flat_map]. fold (embed s).
  rewrite uni_upper_ascii
    by (apply is_ascii_lt; now apply word_is_ascii).
  rewrite ascii_upper_of, (IH Hs). reflexivity.
Qed.

Lemma of_interest_embed (rec : RawRecord) :
  Unicode.of_interest (embed_record rec)
  = of_interest IFC_TYPES_OF_INTEREST rec.
Proof.
  destruct rec as [[i ty] args].
  unfold Unicode.of_interest, of_interest, Unicode.set_mem, set_mem.
  cbn [embed_record fst snd].
  change Unicode.IFC_TYPES_OF_INTEREST
    with (map embed IFC_TYPES_OF_INTEREST).
  induction IFC_TYPES_OF_INTEREST as [|x l IH]; [reflexivity|].
  cbn [map existsb]. now rewrite ustr_eqb_embed, IH.
Qed.

Lemma record_of_embed (g : Re.groups) :
  (exists s0 rest, Re.match_ record_pattern s0 = Some (g, rest)) ->
  Unicode.record_of (Unicode.shape_of (embed_groups g))
  = embed_record (decode_record g).
Proof.
  intros (s0 & rest & Hm). apply record_match_sound in Hm.
  destruct Hm as (w1 & w2 & w3 & _ & _ & Hds & _ & _ & _ & Hident & _).
  unfold Unicode.record_of, Unicode.shape_of, decode_record, embed_record.
  rewrite !group_embed.
  now rewrite (decimal_embed _ Hds), (upper_embed _ Hident).
Qed.

(** X22.  On ASCII text the selector does not depend on the character
    database of the interpreter: when no id of a record of the text is
    beyond the limit on the digits of a numeral, its result is the one
    computed with the ASCII classes alone (the selector of the first
    part), and it raises [ValueError] otherwise. *)
Theorem X22_ascii_text_agreement :
  forall text : str,
    ascii_text text ->
    Unicode.scan_ifc_and_extract_lines (embed text)
    = (if forallb (fun g => Unicode.fits (embed (Re.group 1 g)))
            (Re.finditer record_pattern text)
       then Ok (map embed_record (scan_ifc_and_extract_lines text))
       else ValueError).
Proof.
  intros text Htext. rewrite u_scan_eq.
  unfold Unicode.finditer, Re.finditer.
  rewrite (finditer_from_agree _ _ same_record_pattern text 0 Htext).
  rewrite !forallb_map.
  assert (Hfits :
            forall l : list Re.groups,
              forallb (fun g => Unicode.id_fits
                                  (Unicode.shape_of (embed_groups g))) l
              = forallb (fun g => Unicode.fits (embed (Re.group 1 g))) l).
  { intros l. induction l as [|g l IH]; [reflexivity|].
    cbn [forallb]. rewrite IH. f_equal.
    unfold Unicode.id_fits, Unicode.shape_of, Unicode.fits. cbn [fst].
    now rewrite group_embed. }
  rewrite Hfits. destruct (forallb _ _); [|reflexivity]. f_equal.
  unfold scan_ifc_and_extract_lines. rewrite scan_with_eq.
  unfold Re.finditer.
  pose proof (finditer_from_matched record_pattern text 0) as Hall.
  induction Hall as [|g l Hg _ IH]; [reflexivity|].
  cbn [map filter]. rewrite (record_of_embed g Hg), of_interest_embed.
  destruct (of_interest IFC_TYPES_OF_INTEREST (decode_record g));
    cbn [map]; now rewrite IH.
Qed.

End Agreement.

Lemma X22_ascii_text_agreement_witness :
  @Unicode.scan_ifc_and_extract_lines ascii_runtime (embed sample_text)
  = Ok (map embed_record (scan_ifc_and_extract_lines sample_text)).
Proof.
  exact (@X22_ascii_text_agreement ascii_runtime sample_text eq_refl).
Defined.

(* ================================================================== *)
(** * The two embeddings of the parser agree on ASCII text *)
(* ================================================================== *)

Lemma dict_mem_embed {V V' : Type} (h : V -> V') (x : str)
  (d : dict str V) :
  dict_mem ustr_eqb (embed x)
    (map (fun p => (embed (fst p), h (snd p))) d)
  = dict_mem str_eqb x d.
Proof.
  unfold dict_mem. induction d as [|[k v] d IH]; [reflexivity|].
  cbn [map fst snd dict_get]. rewrite ustr_eqb_embed.
  destruct (str_eqb x k); [reflexivity | exact IH].
Qed.

Lemma is_entity_type_embed (ty : str) :
  Unicode.is_entity_type (embed ty) = is_entity_type ty.
Proof.
  unfold Unicode.is_entity_type, is_entity_type.
  change Unicode.IFC_TO_BOT_ZONE
    with (map (fun p : str * str => (embed (fst p), embed (snd p)))
            IFC_TO_BOT_ZONE).
  change Unicode.IFC_TO_BOT_ELEMENT
    with (map (fun p : str * str => (embed (fst p), embed (snd p)))
            IFC_TO_BOT_ELEMENT).
  rewrite !dict_mem_embed.
  change (ulit "IFCPROJECT") with (embed IFCPROJECT).
  now rewrite ustr_eqb_embed.
Qed.

Lemma is_relation_type_embed (ty : str) :
  Unicode.is_relation_type (embed ty) = is_relation_type ty.
Proof.
  unfold Unicode.is_relation_type, is_relation_type.
  change Unicode.IFC_REL_TO_BOT_PROP
    with (map (fun p : str * str => (embed (fst p), embed (snd p)))
            IFC_REL_TO_BOT_PROP).
  apply dict_mem_embed.
Qed.

Lemma dict_set_map {V V' : Type} (h : V -> V') (k : Z) (v : V)
  (d : dict Z V) :
  dict_set Z.eqb k (h v) (map (fun item => (fst item, h (snd item))) d)
  = map (fun item => (fst item, h (snd item))) (dict_set Z.eqb k v d).
Proof.
  induction d as [|[k' v'] d IH]; [reflexivity|].
  cbn [map fst snd dict_set].
  destruct (Z.eqb k k'); [reflexivity|].
  cbn [map fst snd]. now rewrite IH.
Qed.

Lemma ref_group_digits (s : str) (g : groups) (rest : str) :
  match_ ref_pattern s = Some (g, rest) -> all is_digit (group 1 g).
Proof.
  unfold match_, ref_pattern. cbn [run].
  destruct s as [|c t]; [discriminate|].
  destruct (Ascii.eqb (chr "#") c); [|discriminate].
  destruct t as [|d t]; [discriminate|].
  destruct (is_digit d) eqn:Ed; [|discriminate].
  intros H. apply star_some in H as (pre & rest' & -> & Hp & Hk & _).
  rewrite firstn_consumed_cons in Hk.
  injection Hk as <- <-. cbn [group Nat.eqb].
  now apply all_cons.
Qed.

Section ParserAgreement.

Context {rt : Runtime}.

Lemma same_entity_args_pattern :
  same_regex entity_args_pattern Unicode.entity_args_pattern.
Proof.
  unfold entity_args_pattern, Unicode.entity_args_pattern.
  repeat first
    [ apply same_seq
    | apply same_group
    | exact (same_chr _)
    | apply same_star
    | exact agree_space
    | exact agree_not_quote ].
Qed.

Lemma same_ref_pattern : same_regex ref_pattern Unicode.ref_pattern.
Proof.
  unfold ref_pattern, Unicode.ref_pattern.
  repeat first
    [ apply same_seq
    | apply same_group
    | exact (same_chr _)
    | apply same_plus
    | exact agree_digit ].
Qed.

Lemma leading_literals_embed (args_str : str) :
  ascii_text args_str ->
  Unicode.leading_literals (embed args_str)
  = match match_ entity_args_pattern args_str with
    | Some (g, _) => (embed (group 1 g), embed (group 2 g))
    | None => ([], [])
    end.
Proof.
  intros Ha. unfold Unicode.leading_literals.
  rewrite (match_agree _ _ _ same_entity_args_pattern Ha).
  destruct (match_ entity_args_pattern args_str) as [[g rest]|];
    [|reflexivity].
  cbn [option_map fst snd]. now rewrite !group_embed.
Qed.

Lemma findall_refs_embed (args_str : str) :
  ascii_text args_str ->
  Unicode.findall Unicode.ref_pattern (embed args_str)
  = map embed (findall ref_pattern args_str).
Proof.
  intros Ha. unfold Unicode.findall, Unicode.finditer, findall, finditer.
  rewrite (finditer_from_agree _ _ same_ref_pattern _ 0 Ha), !map_map.
  apply map_ext. intros g. apply group_embed.
Qed.

Lemma findall_refs_digits (args_str : str) :
  Forall (all is_digit) (findall ref_pattern args_str).
Proof.
  unfold findall, finditer. apply Forall_map.
  eapply Forall_impl; [|apply (finditer_from_matched ref_pattern)].
  intros g (s0 & rest & Hm). now apply ref_group_digits in Hm.
Qed.

Lemma decimal_embed_all (l : list str) :
  Forall (all is_digit) l ->
  map Unicode.decimal_value (map embed l) = map int l.
Proof.
  induction 1 as [|ds l Hds _ IH]; [reflexivity|].
  cbn [map]. now rewrite (decimal_embed _ Hds), IH.
Qed.

Lemma value_step_embed (st : parsed) (line : RawRecord) :
  ascii_text (snd line) ->
  Unicode.value_step (embed_parsed st) (embed_record line)
  = embed_parsed (parse_step st line).
Proof.
  destruct line as [[i ty] args]. cbn [snd]. intros Ha.
  unfold Unicode.value_step. cbn [embed_record].
  rewrite is_entity_type_embed, is_relation_type_embed.
  destruct (is_entity_type ty) eqn:Ht.
  - rewrite (parse_step_entity _ _ _ _ Ht).
    unfold embed_parsed. cbn [fst snd]. rewrite <- dict_set_map.
    f_equal. f_equal.
    rewrite (leading_literals_embed _ Ha). unfold entity_of.
    destruct (match_ entity_args_pattern args) as [[g rest]|];
      unfold embed_entity, IfcEntity_init;
      cbn [fst snd id type name global_id];
      now rewrite (entity_type_upper _ Ht).
  - destruct (is_relation_type ty) eqn:Hr.
    + rewrite (parse_step_relation _ _ _ _ Hr).
      rewrite (findall_refs_embed _ Ha).
      pose proof (findall_refs_digits args) as Hd.
      destruct (findall ref_pattern args) as [|a [|b l]];
        [reflexivity | reflexivity |].
      inversion Hd as [|? ? Ha' Hd']; subst.
      cbn [map]. unfold embed_parsed. cbn [fst snd].
      rewrite map_app. cbn [map].
      unfold embed_relationship, IfcRelationship_init.
      cbn [rel_id rel_type parent_id child_ids].
      rewrite (relation_type_upper _ Hr), (decimal_embed _ Ha').
      change (Unicode.decimal_value (embed b)
              :: map Unicode.decimal_value (map embed l))
        with (map Unicode.decimal_value (map embed (b :: l))).
      now rewrite (decimal_embed_all _ Hd').
    + destruct st as [entities relationships].
      unfold parse_step. now rewrite Ht, Hr.
Qed.

Lemma value_fold_embed (lines : list RawRecord) (st : parsed) :
  Forall (fun line => ascii_text (snd line)) lines ->
  fold_left Unicode.value_step (map embed_record lines) (embed_parsed st)
  = embed_parsed (fold_left parse_step lines st).
Proof.
  intros H. revert st.
  induction H as [|line lines Hl _ IH]; intros st; [reflexivity|].
  cbn [map fold_left]. now rewrite (value_step_embed _ _ Hl), IH.
Qed.

(** X23.  On lines with ASCII argument texts the parser does not depend
    on the character database of the interpreter: when no reference of a
    relation line is beyond the limit on the digits of a numeral, its
    result is the one computed with the ASCII classes alone (the parser
    of the first part), and it raises [ValueError] otherwise. *)
Theorem X23_ascii_lines_agreement :
  forall lines : list RawRecord,
    Forall (fun line => ascii_text (snd line)) lines ->
    Unicode.parse_selected_ifc_lines (map embed_record lines)
    = (if forallb Unicode.line_fits (map embed_record lines)
       then Ok (embed_parsed (parse_selected_ifc_lines lines))
       else ValueError).
Proof.
  intros lines H. rewrite u_parse_eq.
  destruct (forallb _ _); [|reflexivity]. f_equal.
  exact (value_fold_embed lines ([], []) H).
Qed.

End ParserAgreement.

Lemma X23_ascii_lines_agreement_witness :
  @Unicode.parse_selected_ifc_lines ascii_runtime
    (map embed_record [sample_wall_line; sample_relation_line])
  = Ok (embed_parsed
          (parse_selected_ifc_lines
             [sample_wall_line; sample_relation_line])).
Proof.
  exact (@X23_ascii_lines_agreement ascii_runtime
           [sample_wall_line; sample_relation_line]
           ltac:(repeat constructor)).
Defined.
